(** * MerkleDB trie views and the pebble backend: a shallow embedding

    The development follows two Go packages of the repository:

    - [pebble]   : the [Database] wrapper around the LSM engine
                   ([Compact] and the helpers it uses);
    - [merkledb] : the [trieView] overlay ([getValue], [insert], [remove],
                   [calculateNodeIDs], [getProof], [GetRangeProof],
                   [invalidate], [NewView], ...).

    Go values are modelled as the code has them: a [[]byte] is a list of
    bytes (with [None] for the nil slice where the code tests for nil), a Go
    map is a [gmap] (with [None] for the nil map where the code tests for
    nil), a function returning [(value, error)] returns a [result], and a
    method that mutates its receiver is a state transformer on the record
    that holds the receiver's fields. *)

From Stdlib Require Import ZArith NArith List Bool Lia.
From stdpp Require Import base option gmap list strings.

(** [bytes.Compare]: lexicographic order on byte strings with result -1, 0
    or 1.  A nil slice compares equal to the empty slice. *)
Fixpoint bytes_Compare (a b : list N) : Z :=
  match a, b with
  | [], [] => 0
  | [], _ :: _ => -1
  | _ :: _, [] => 1
  | x :: a', y :: b' =>
      if (x <? y)%N then -1
      else if (y <? x)%N then 1
      else bytes_Compare a' b'
  end%Z.

(* ===================================================================== *)
(** * Package pebble *)
(* ===================================================================== *)

Module pebble.

(** A Go [[]byte]: [None] is the nil slice. *)
Definition slice := option (list N).

Definition contents (s : slice) : list N := default [] s.

(** [pebble.DefaultComparer.Compare] is [bytes.Compare]. *)
Definition comparer_Compare (a b : slice) : Z :=
  bytes_Compare (contents a) (contents b).

(** Errors of the engine and of the [database] package. *)
Inductive engine_error :=
| pebble_ErrClosed
| pebble_ErrNotFound
| pebble_other (code : nat).

Inductive error :=
| ErrClosed
| ErrNotFound
| ErrEngine (code : nat).

(** [updateError] converts an engine error to its Avalanche equivalent. *)
Definition updateError (err : option engine_error) : option error :=
  match err with
  | None => None
  | Some pebble_ErrClosed => Some ErrClosed
  | Some pebble_ErrNotFound => Some ErrNotFound
  | Some (pebble_other c) => Some (ErrEngine c)
  end.

(** The [Database] struct.  Of the engine only the set of keys it holds
    matters to [Compact]; the lock is not modelled. *)
Record Database := {
  pebbleDB : list (list N);
  closed : bool;
}.

(** [it.Last()] followed by [it.Key()] on a fresh iterator: the greatest
    key of the engine, if there is one. *)
Definition greater (a b : list N) : list N :=
  if (bytes_Compare a b <? 0)%Z then b else a.

Definition Last (keys : list (list N)) : option (list N) :=
  match keys with
  | [] => None
  | k :: ks => Some (fold_left greater ks k)
  end.

(** The key returned by [it.Key()]; the source treats an empty last key as
    nil ("the only key in it is nil"). *)
Definition Key_of (k : list N) : slice :=
  match k with [] => None | _ => Some k end.

Section Compact.

(** What the engine's own [Compact(start, end, parallelize)] returns. *)
Variable engine_Compact : slice -> slice -> option engine_error.

(** [Database.Compact].  The result is the returned error together with
    the list of compaction requests handed to the engine. *)
Definition Compact (db : Database) (start limit : slice)
  : option error * list (slice * slice) :=
  if closed db then (Some ErrClosed, [])
  else if (0 <=? comparer_Compare start limit)%Z then
    (* pebble's Compact will no-op & error if start >= limit *)
    (None, [])
  else
    match limit with
    | Some _ => (updateError (engine_Compact start limit), [(start, limit)])
    | None =>
        match Last (pebbleDB db) with
        | Some k =>
            match Key_of k with
            | Some lastkey =>
                (updateError (engine_Compact start (Some lastkey)),
                 [(start, Some lastkey)])
            | None => (None, [])
            end
        | None => (None, [])
        end
    end.

End Compact.

(** ** Iterators *)

(** [pebble.IterOptions]: the bounds of an iteration. *)
Record IterOptions := {
  LowerBound : slice;
  UpperBound : slice;
}.

(** The loop of [bytesPrefix], at the indices [i - 1] down to 0.  An index
    of the loop is always within the prefix. *)
Fixpoint bytesPrefix_limit (i : nat) (prefix : list N) : slice :=
  match i with
  | O => None
  | S i' =>
      match prefix !! i' with
      | Some c =>
          if (c <? 255)%N
          then Some (<[i' := ((c + 1) mod 256)%N]> (take (S i') prefix))
          else bytesPrefix_limit i' prefix
      | None => None
      end
  end.

(** [bytesPrefix] returns the key range that satisfies the given prefix. *)
Definition bytesPrefix (prefix : slice) : IterOptions :=
  {| LowerBound := prefix;
     UpperBound := bytesPrefix_limit (length (contents prefix)) (contents prefix) |}.

(** The [iter] struct: the engine iterator it wraps, given by its bounds,
    whether it is closed and the error it holds. *)
Record iter := {
  iter_range : option IterOptions;
  iter_closed : bool;
  iter_err : option error;
}.

(** The iterator a closed database hands out. *)
Definition closed_iter : iter :=
  {| iter_range := None; iter_closed := true; iter_err := Some ErrClosed |}.

Definition open_iter (opts : IterOptions) : iter :=
  {| iter_range := Some opts; iter_closed := false; iter_err := None |}.

Definition NewIterator (db : Database) : iter :=
  if closed db then closed_iter
  else open_iter {| LowerBound := None; UpperBound := None |}.

Definition NewIteratorWithStart (db : Database) (start : slice) : iter :=
  if closed db then closed_iter
  else open_iter {| LowerBound := start; UpperBound := None |}.

Definition NewIteratorWithPrefix (db : Database) (prefix : slice) : iter :=
  if closed db then closed_iter
  else open_iter (bytesPrefix prefix).

Definition NewIteratorWithStartAndPrefix (db : Database) (start prefix : slice) : iter :=
  if closed db then closed_iter
  else
    let iterRange := bytesPrefix prefix in
    open_iter
      (if (bytes_Compare (contents start) (contents prefix) =? 1)%Z
       then {| LowerBound := start; UpperBound := UpperBound iterRange |}
       else iterRange).

(** ** Reads, writes and Close *)

(** The requests a method hands to the engine. *)
Inductive request :=
| req_Get (key : slice)
| req_Set (key value : slice)
| req_Delete (key : slice)
| req_Close.

Section Engine.

(** What the engine answers: the data and error of [Get], the error of
    the closer [Get] returns with the data, the errors of [Set], [Delete]
    and [Close], and whether the text of an error mentions a leaked
    iterator. *)
Variable engine_Get : slice -> slice * option engine_error.
Variable closer_Close : slice -> option error.
Variable engine_Set : slice -> slice -> option engine_error.
Variable engine_Delete : slice -> option engine_error.
Variable engine_Close : option engine_error.
Variable leaked_iterator : error -> bool.

(** Each method returns its results and the requests it handed to the
    engine; [Close] also returns the database. *)
Definition Close (db : Database) : option error * Database * list request :=
  if closed db then (Some ErrClosed, db, [])
  else
    let db' := {| pebbleDB := pebbleDB db; closed := true |} in
    match updateError engine_Close with
    | Some err =>
        if leaked_iterator err then
          (* avalanche database support close db w/o error even if there
             is an iterator which is not released *)
          (None, db', [req_Close])
        else (Some err, db', [req_Close])
    | None => (None, db', [req_Close])
    end.

Definition HealthCheck (db : Database) : option error :=
  if closed db then Some ErrClosed else None.

Definition Has (db : Database) (key : slice) : bool * option error * list request :=
  if closed db then (false, Some ErrClosed, [])
  else
    match snd (engine_Get key) with
    | Some pebble_ErrNotFound => (false, None, [req_Get key])
    | Some err => (false, updateError (Some err), [req_Get key])
    | None => (true, closer_Close key, [req_Get key])
    end.

Definition Get (db : Database) (key : slice) : slice * option error * list request :=
  if closed db then (None, Some ErrClosed, [])
  else
    match engine_Get key with
    | (_, Some err) => (None, updateError (Some err), [req_Get key])
    | (data, None) => (data, closer_Close key, [req_Get key])
    end.

Definition Put (db : Database) (key value : slice) : option error * list request :=
  if closed db then (Some ErrClosed, [])
  else (updateError (engine_Set key value), [req_Set key value]).

Definition Delete (db : Database) (key : slice) : option error * list request :=
  if closed db then (Some ErrClosed, [])
  else (updateError (engine_Delete key), [req_Delete key]).

End Engine.

(** ** Vocabulary of the properties *)

(** A byte. *)
Definition is_byte (b : N) : Prop := (b < 256)%N.

(** [key] lies within the bounds of an iteration: at or after the lower
    bound and before the upper bound, a nil bound being no bound. *)
Definition within (opts : IterOptions) (key : list N) : Prop :=
  (bytes_Compare (contents (LowerBound opts)) key <= 0)%Z
  /\ match UpperBound opts with
     | Some upper => (bytes_Compare key upper < 0)%Z
     | None => True
     end.

End pebble.

(* ===================================================================== *)
(** * Package merkledb *)
(* ===================================================================== *)

Module merkledb.

(** ** Keys and tokens *)

(** Modelled from the spec: the [Key] type and its operations ([length],
    [Take], [Skip], [Token], [Extend], [iteratedHasPrefix], [ToToken],
    [ToKey]) are declared in a file of the package that this development
    does not follow.  Following section 3.1 of the specification a key is
    its sequence of tokens; two keys are equal iff their token lengths and
    tokens match.  As in the callers, every length and index is a number of
    bits, [tokenSize] bits per token. *)
Definition Key := list N.

Definition emptyKey : Key := [].

(** [rootKey], the byte string of the root. *)
Definition rootKey : list N := [].

Section Keys.

Variable tokenSize : Z.

Definition tokens_of (bits : Z) : nat := Z.to_nat (bits / tokenSize).

Definition Key_length (k : Key) : Z := tokenSize * Z.of_nat (length k).

Definition Key_Take (k : Key) (bitsToTake : Z) : Key :=
  take (tokens_of bitsToTake) k.

Definition Key_Skip (k : Key) (bitsToSkip : Z) : Key :=
  drop (tokens_of bitsToSkip) k.

(** [Token] of an index past the end is a programmer error in the source;
    here it reads 0.  Every call below is guarded by a length test. *)
Definition Key_Token (k : Key) (bitIndex : Z) : N :=
  nth (tokens_of bitIndex) k 0%N.

Definition ToToken (val : N) : Key := [val].

Definition Key_Extend (k : Key) (keys : list Key) : Key := k ++ concat keys.

(** [k.iteratedHasPrefix(prefix, bitsOffset, tokenSize)]: does
    [k[bitsOffset : bitsOffset + prefix.length]] equal [prefix]? *)
Definition iteratedHasPrefix (k prefix : Key) (bitsOffset : Z) : bool :=
  if (Key_length k - bitsOffset <? Key_length prefix)%Z then false
  else bool_decide (take (length prefix) (drop (tokens_of bitsOffset) k) = prefix).

(** The tokens packed in one byte, most significant first. *)
Definition byte_tokens (b : N) : list N :=
  map (fun i : nat =>
         N.land (N.shiftr b (Z.to_N (8 - (Z.of_nat i + 1) * tokenSize)))
                (N.ones (Z.to_N tokenSize)))
      (seq 0 (Z.to_nat (8 / tokenSize))).

Definition ToKey (keyBytes : list N) : Key := concat (map byte_tokens keyBytes).

(** [getLengthOfCommonPrefix]: the loop advances [commonIndex] by one
    token per round and stops at the latest when [first] is exhausted, so
    [length first] rounds are enough. *)
Fixpoint commonPrefixLoop (rounds : nat) (first second : Key)
         (secondOffset commonIndex : Z) : Z :=
  match rounds with
  | O => commonIndex
  | S rounds' =>
      if (commonIndex <? Key_length first)%Z
         && (commonIndex + secondOffset <? Key_length second)%Z
         && (Key_Token first commonIndex =? Key_Token second (commonIndex + secondOffset))%N
      then commonPrefixLoop rounds' first second secondOffset (commonIndex + tokenSize)
      else commonIndex
  end.

Definition getLengthOfCommonPrefix (first second : Key) (secondOffset : Z) : Z :=
  commonPrefixLoop (length first) first second secondOffset 0.

End Keys.

(** ** Nodes, changes, errors *)

(** [ids.ID]: 32 bytes; [ids.Empty] is the zero value and marks a child
    whose ID has to be recalculated. *)
Definition ID := list N.

Definition ids_Empty : ID := repeat 0%N 32.

(** Modelled from the spec: the [child] struct (section 3.2, ChildRef) is
    declared in another file of the package.  The view only ever writes
    [compressedKey] and [id]; [hasValue] keeps its zero value. *)
Record child := {
  compressedKey : Key;
  child_id : ID;
  hasValue : bool;
}.

Definition set_child_id (newID : ID) (c : child) : child :=
  {| compressedKey := compressedKey c; child_id := newID; hasValue := hasValue c |}.

(** [nodeChildren] is [map[byte]*child]; [None] is the nil map, which the
    view uses as the mark of a deleted node. *)
Abbreviation nodeChildren := (option (gmap N child)).

Definition children_lookup (m : nodeChildren) (index : N) : option child :=
  match m with
  | Some entries => entries !! index
  | None => None
  end.

Definition children_len (m : nodeChildren) : nat :=
  match m with
  | Some entries => size entries
  | None => 0
  end.

Definition children_entries (m : nodeChildren) : list (N * child) :=
  match m with
  | Some entries => map_to_list entries
  | None => []
  end.

(** [maybe.Maybe[[]byte]] is [option (list N)]: [None] is [Nothing]. *)
Abbreviation Maybe := option (only parsing).

Record change := {
  before : Maybe (list N);
  after : Maybe (list N);
}.

Inductive error :=
| ErrCommitted
| ErrInvalid
| ErrPartialByteLengthWithValue
| ErrGetPathToFailure
| ErrStartAfterEnd
| ErrNoValidRoot
| ErrParentNotDatabase
| ErrNodesAlreadyCalculated
| ErrInvalidMaxLength
| ErrInvalidMaxLength_but_was (maxLength : Z)
| database_ErrNotFound
| database_ErrClosed
| ErrOther (code : nat).

(** [errors.Is]: [fmt.Errorf("%w but was %d", ErrInvalidMaxLength, n)] wraps
    the sentinel. *)
Definition errors_Is (err target : error) : bool :=
  match err, target with
  | ErrInvalidMaxLength_but_was _, ErrInvalidMaxLength => true
  | ErrInvalidMaxLength_but_was n, ErrInvalidMaxLength_but_was m => (n =? m)%Z
  | ErrCommitted, ErrCommitted
  | ErrInvalid, ErrInvalid
  | ErrPartialByteLengthWithValue, ErrPartialByteLengthWithValue
  | ErrGetPathToFailure, ErrGetPathToFailure
  | ErrStartAfterEnd, ErrStartAfterEnd
  | ErrNoValidRoot, ErrNoValidRoot
  | ErrParentNotDatabase, ErrParentNotDatabase
  | ErrNodesAlreadyCalculated, ErrNodesAlreadyCalculated
  | ErrInvalidMaxLength, ErrInvalidMaxLength
  | database_ErrNotFound, database_ErrNotFound
  | database_ErrClosed, database_ErrClosed => true
  | ErrOther n, ErrOther m => Nat.eqb n m
  | _, _ => false
  end.

(** A Go [(value, error)] pair. *)
Inductive result (A : Type) :=
| Ok (a : A)
| Err (e : error).
Arguments Ok {A} a.
Arguments Err {A} e.

(** ** The view *)

(** The fields of [trieView] that the methods below read or write.
    [values] and [rootID] are [changes.values] and [changes.rootID];
    [calculateNodesOnce] is the done flag of the [sync.Once]; a child view
    is named by its address in the heap of views.  The parent trie and the
    database are parameters of the methods (see [TrieView] below). *)
Record trieView := {
  committed : bool;
  nodesAlreadyCalculated : bool;
  calculateNodesOnce : bool;
  invalidated : bool;
  childViews : list nat;
  values : gmap Key change;
  rootID : ID;
  childrenChanges : gmap Key nodeChildren;
}.

Definition set_nodesAlreadyCalculated (b : bool) (t : trieView) : trieView :=
  {| committed := committed t; nodesAlreadyCalculated := b;
     calculateNodesOnce := calculateNodesOnce t; invalidated := invalidated t;
     childViews := childViews t; values := values t; rootID := rootID t;
     childrenChanges := childrenChanges t |}.

Definition set_calculateNodesOnce (b : bool) (t : trieView) : trieView :=
  {| committed := committed t; nodesAlreadyCalculated := nodesAlreadyCalculated t;
     calculateNodesOnce := b; invalidated := invalidated t;
     childViews := childViews t; values := values t; rootID := rootID t;
     childrenChanges := childrenChanges t |}.

Definition set_validity (inv : bool) (children : list nat) (t : trieView) : trieView :=
  {| committed := committed t; nodesAlreadyCalculated := nodesAlreadyCalculated t;
     calculateNodesOnce := calculateNodesOnce t; invalidated := inv;
     childViews := children; values := values t; rootID := rootID t;
     childrenChanges := childrenChanges t |}.

Definition set_values (vs : gmap Key change) (t : trieView) : trieView :=
  {| committed := committed t; nodesAlreadyCalculated := nodesAlreadyCalculated t;
     calculateNodesOnce := calculateNodesOnce t; invalidated := invalidated t;
     childViews := childViews t; values := vs; rootID := rootID t;
     childrenChanges := childrenChanges t |}.

Definition set_rootID (r : ID) (t : trieView) : trieView :=
  {| committed := committed t; nodesAlreadyCalculated := nodesAlreadyCalculated t;
     calculateNodesOnce := calculateNodesOnce t; invalidated := invalidated t;
     childViews := childViews t; values := values t; rootID := r;
     childrenChanges := childrenChanges t |}.

Definition set_childrenChanges (cc : gmap Key nodeChildren) (t : trieView) : trieView :=
  {| committed := committed t; nodesAlreadyCalculated := nodesAlreadyCalculated t;
     calculateNodesOnce := calculateNodesOnce t; invalidated := invalidated t;
     childViews := childViews t; values := values t; rootID := rootID t;
     childrenChanges := cc |}.

(** The part of the [TrieView] interface a view uses of its parent trie.
    The view does not hold its [validityTrackingLock] across a call into the
    parent, so [invalidate] may run on the view while the call is in flight:
    each method returns, next to its result, whether that happened. *)
Record TrieView := {
  tv_getValue : Key -> result (Maybe (list N)) * bool;
  tv_getChildren : Key -> result nodeChildren * bool;
}.

(** Methods are state transformers on the receiver that may return an
    error. *)
Definition M (A : Type) : Type := trieView -> result A * trieView.

Definition ret {A} (a : A) : M A := fun t => (Ok a, t).

Definition bind {A B} (m : M A) (k : A -> M B) : M B :=
  fun t =>
    match m t with
    | (Ok a, t') => k a t'
    | (Err e, t') => (Err e, t')
    end.

Notation "'let*' x ':=' m 'in' k" := (bind m (fun x => k))
  (at level 10, x pattern, m at level 100, k at level 200, only parsing).
Notation "'run' m 'in' k" := (bind m (fun _ => k))
  (at level 10, m at level 100, k at level 200, only parsing).

Definition modify (f : trieView -> trieView) : M unit := fun t => (Ok tt, f t).

Definition when (b : bool) (m : M unit) : M unit := if b then m else ret tt.

Fixpoint foldM {A B} (f : B -> A -> M B) (l : list A) (b : B) : M B :=
  match l with
  | [] => ret b
  | a :: l' => let* b' := f b a in foldM f l' b'
  end.

(** What a concurrent [invalidate] does to the view itself. *)
Definition invalidate_self (t : trieView) : trieView := set_validity true [] t.

(** A call into the parent trie. *)
Definition callParent {A} (call : result A * bool) : M A :=
  fun t => (fst call, if snd call then invalidate_self t else t).

(** A local variable of type [nodeChildren] holds a reference: either to
    the map object stored in [childrenChanges] under a key, which later
    writes through [childrenChanges] change, or to a map the view does not
    store (a clone handed out by the parent trie, or nil). *)
Inductive mapRef :=
| Stored (key : Key)
| Detached (m : nodeChildren).

Definition deref (t : trieView) (r : mapRef) : nodeChildren :=
  match r with
  | Stored key => default None (childrenChanges t !! key)
  | Detached m => m
  end.

(** Reading [t.childrenChanges[key]] into a local variable. *)
Definition load (key : Key) (t : trieView) : mapRef :=
  match childrenChanges t !! key with
  | Some (Some _) => Stored key
  | _ => Detached None
  end.

Definition is_nil (r : mapRef) (t : trieView) : bool :=
  match deref t r with None => true | Some _ => false end.

(** ** Proofs *)

(** Modelled from the spec: [ProofNode] and [asProofNode] are declared
    in another file of the package.  Section 4.6 of the specification gives a
    proof node as the key, the digest of the value and the child IDs;
    section 4.3 gives the digest as the value itself when it is shorter than
    32 bytes and its SHA-256 hash otherwise. *)
Record ProofNode := {
  pn_Key : Key;
  pn_ValueOrHash : Maybe (list N);
  pn_Children : gmap N ID;
}.

Definition valueDigest (sha256 : list N -> list N) (value : list N) : list N :=
  if (length value <? 32)%nat then value else sha256 value.

Definition asProofNode (sha256 : list N -> list N)
           (key : Key) (children : nodeChildren) (value : Maybe (list N)) : ProofNode :=
  {| pn_Key := key;
     pn_ValueOrHash := valueDigest sha256 <$> value;
     pn_Children := child_id <$> default ∅ children |}.

Record Proof := {
  Proof_Key : Key;
  Proof_Value : Maybe (list N);
  Proof_Path : list ProofNode;
}.

Record KeyValue := {
  kv_Key : list N;
  kv_Value : list N;
}.

Record RangeProof := {
  StartProof : list ProofNode;
  EndProof : list ProofNode;
  KeyValues : list KeyValue;
}.

(** [database.BatchOp] and [ViewChanges].  [MapOps] lists the entries of the
    Go map in the order [range] yields them. *)
Record BatchOp := {
  op_Key : list N;
  op_Value : list N;
  op_Delete : bool;
}.

Record ViewChanges := {
  BatchOps : list BatchOp;
  MapOps : list (list N * Maybe (list N));
  ConsumeBytes : bool;
}.

Section View.

(** [t.tokenSize] *)
Variable tokenSize : Z.

(** [t.parentTrie], as returned by [getParentTrie]. *)
Variable parentTrie : TrieView.

(** [calculateID(metrics, key, children, value)], the hash of section 4.3
    of the specification; declared in another file of the package. *)
Variable calculateID : Key -> nodeChildren -> Maybe (list N) -> ID.

(** The SHA-256 hash used for the digest of long values. *)
Variable sha256 : list N -> list N.

(** [t.NewIteratorWithStart(start)], declared in another file of the
    package: the key-value pairs the iterator yields, in order, and the error it
    fails with after the last of them, if any. *)
Variable NewIteratorWithStart : trieView -> list N -> list KeyValue * option error.

Local Abbreviation Key_length := (Key_length tokenSize).
Local Abbreviation Key_Take := (Key_Take tokenSize).
Local Abbreviation Key_Skip := (Key_Skip tokenSize).
Local Abbreviation Key_Token := (Key_Token tokenSize).
Local Abbreviation iteratedHasPrefix := (iteratedHasPrefix tokenSize).
Local Abbreviation getLengthOfCommonPrefix := (getLengthOfCommonPrefix tokenSize).

Definition isInvalid (t : trieView) : bool := invalidated t.

(** *** Reads *)

Definition getValue (key : Key) : M (Maybe (list N)) :=
  fun t =>
    if isInvalid t then (Err ErrInvalid, t)
    else
      match values t !! key with
      | Some change => (Ok (after change), t)
      | None =>
          (* if we don't have local copy of the key, then grab a copy from
             the parent trie *)
          match callParent (tv_getValue parentTrie key) t with
          | (Err err, t') => (Err err, t')
          | (Ok value, t') =>
              (* ensure no ancestor changes occurred during execution *)
              if isInvalid t' then (Err ErrInvalid, t') else (Ok value, t')
          end
      end.

Definition getChildrenInternal (key : Key) : M mapRef :=
  fun t =>
    match childrenChanges t !! key with
    | Some None => (Err database_ErrNotFound, t)
    | Some (Some _) => (Ok (Stored key), t)
    | None =>
        (let* parentTrieNode := callParent (tv_getChildren parentTrie key) in
         ret (Detached parentTrieNode)) t
    end.

Definition getChildren (key : Key) : M mapRef :=
  fun t =>
    if isInvalid t then (Err ErrInvalid, t)
    else
      match getChildrenInternal key t with
      | (Err err, t') => (Err err, t')
      | (Ok n, t') =>
          if isInvalid t' then (Err ErrInvalid, t') else (Ok n, t')
      end.

(** *** Recording node changes *)

Definition store (key : Key) (m : nodeChildren) : M unit :=
  modify (fun t => set_childrenChanges (<[key := m]> (childrenChanges t)) t).

Definition recordNewNode (key : Key) : M mapRef :=
  run store key (Some ∅) in ret (Stored key).

Definition recordChildRemoved (key childKey : Key) : M unit :=
  fun t =>
    match childrenChanges t !! key with
    | Some existing =>
        store key (delete (Key_Token childKey (Key_length key)) <$> existing) t
    | None => (Ok tt, t)
    end.

Definition recordNodeDeleted (key : Key) : M unit := store key None.

Definition recordChildEntry (key : Key) (childIndex : N) (entry : child) : M unit :=
  fun t =>
    match childrenChanges t !! key with
    | Some (Some existing) => store key (Some (<[childIndex := entry]> existing)) t
    | _ => store key (Some {[childIndex := entry]}) t
    end.

Definition recordPendingChildChange (key childKey : Key) : M unit :=
  recordChildEntry key (Key_Token childKey (Key_length key))
    {| compressedKey := Key_Skip childKey (Key_length key + tokenSize);
       child_id := ids_Empty;
       hasValue := false |}.

Definition recordChildChange (key childKey : Key) (id : ID) : M unit :=
  recordChildEntry key (Key_Token childKey (Key_length key))
    {| compressedKey := Key_Skip childKey (Key_length key + tokenSize);
       child_id := id;
       hasValue := false |}.

(** [recordValueChange]: the existing [*change] is updated in place. *)
Definition recordValueChange (key : Key) (value : Maybe (list N)) : M unit :=
  fun t =>
    if nodesAlreadyCalculated t then (Err ErrNodesAlreadyCalculated, t)
    else
      match values t !! key with
      | Some existing =>
          (Ok tt,
           set_values (<[key := {| before := before existing; after := value |}]> (values t)) t)
      | None =>
          (let* before := callParent (tv_getValue parentTrie key) in
           modify (fun t' =>
             set_values (<[key := {| before := before; after := value |}]> (values t')) t')) t
      end.

(** *** Walking towards a key *)

(** The loop of [visitPathToKey].  Each round moves [currentKey] at least
    one token closer to [key], so [length key] rounds are enough. *)
Fixpoint visitPathLoop {A} (rounds : nat) (key : Key)
         (visitNode : Key -> mapRef -> A -> M A)
         (currentKey : Key) (currentChildren : mapRef) (acc : A) : M A :=
  fun t =>
    if (Key_length currentKey <? Key_length key)%Z then
      match rounds with
      | O => (Ok acc, t)
      | S rounds' =>
          match children_lookup (deref t currentChildren)
                                (Key_Token key (Key_length currentKey)) with
          | None => (Ok acc, t)
          | Some nextChildEntry =>
              if negb (iteratedHasPrefix key (compressedKey nextChildEntry)
                                         (Key_length currentKey + tokenSize))
              then (Ok acc, t)
              else
                let currentKey' :=
                  Key_Take key (Key_length currentKey + tokenSize
                                + Key_length (compressedKey nextChildEntry)) in
                (let* currentChildren' := getChildrenInternal currentKey' in
                 let* acc' := visitNode currentKey' currentChildren' acc in
                 visitPathLoop rounds' key visitNode currentKey' currentChildren' acc') t
          end
      end
    else (Ok acc, t).

Definition visitPathToKey {A} (key : Key)
           (visitNode : Key -> mapRef -> A -> M A) (acc : A) : M A :=
  fun t =>
    let currentChildren := load emptyKey t in
    (let* acc' := visitNode emptyKey currentChildren acc in
     visitPathLoop (length key) key visitNode emptyKey currentChildren acc') t.

(** *** insert *)

(** The variables the closure of [insert] captures. *)
Record insertVars := {
  iv_closestChildren : mapRef;
  iv_closestKey : Key;
  iv_previousKey : option Key;
}.

Definition insert_visit (localKey : Key) (children : mapRef) (v : insertVars)
  : M insertVars :=
  run match iv_previousKey v with
      | Some previousKey => recordPendingChildChange previousKey localKey
      | None => ret tt
      end in
  ret {| iv_closestChildren := children;
         iv_closestKey := localKey;
         iv_previousKey := Some localKey |}.

Definition insert (key : Key) : M mapRef :=
  fun t =>
    if nodesAlreadyCalculated t then (Err ErrNodesAlreadyCalculated, t)
    else
      (let* v := visitPathToKey key insert_visit
                   {| iv_closestChildren := Detached None;
                      iv_closestKey := emptyKey;
                      iv_previousKey := None |} in
       let closestChildren := iv_closestChildren v in
       let closestKey := iv_closestKey v in
       (* a node with that exact key already exists *)
       if bool_decide (closestKey = key) then ret closestChildren
       else
         fun t' =>
           match children_lookup (deref t' closestChildren)
                                 (Key_Token key (Key_length closestKey)) with
           | None =>
               (run recordChildChange closestKey key ids_Empty in
                recordNewNode key) t'
           | Some existingChildEntry =>
               let commonPrefixLength :=
                 getLengthOfCommonPrefix (compressedKey existingChildEntry) key
                                         (Key_length closestKey + tokenSize) in
               if (Key_length (compressedKey existingChildEntry) <=? commonPrefixLength)%Z
               then (Err ErrGetPathToFailure, t')
               else
                 let branchKey :=
                   Key_Take key (Key_length closestKey + tokenSize + commonPrefixLength) in
                 (run recordChildChange closestKey branchKey ids_Empty in
                  run when (negb (Key_length key =? Key_length branchKey)%Z)
                        (recordChildChange branchKey key ids_Empty) in
                  (* add the existing child onto the branch node *)
                  run recordChildEntry branchKey
                        (Key_Token (compressedKey existingChildEntry) commonPrefixLength)
                        {| compressedKey :=
                             Key_Skip (compressedKey existingChildEntry)
                                      (commonPrefixLength + tokenSize);
                           child_id := child_id existingChildEntry;
                           hasValue := false |} in
                  recordNewNode key) t'
           end) t.

(** *** remove *)

(** [compressNodePath].  [node] is read when the method is entered: the
    map object it refers to is not written before the loop over it. *)
Definition compressNodePath (parent : mapRef) (parentKey : Key)
           (node : mapRef) (nodeKey : Key) : M unit :=
  fun t =>
    if nodesAlreadyCalculated t then (Err ErrNodesAlreadyCalculated, t)
    else
      let nodeEntries := deref t node in
      (* don't collapse into this node if it's the root, doesn't have 1
         child, or has a value *)
      if is_nil parent t || negb (Nat.eqb (children_len nodeEntries) 1) then (Ok tt, t)
      else
        match getValue nodeKey t with
        | (Err err, t') => (Err err, t')
        | (Ok (Some _), t') => (Ok tt, t')
        | (Ok None, t') =>
            (run recordNodeDeleted nodeKey in
             (* there is only one child, but we don't know the index *)
             match children_entries nodeEntries with
             | (index, entry) :: _ =>
                 let childKey :=
                   Key_Extend nodeKey [ToToken index; compressedKey entry] in
                 recordChildChange parentKey childKey (child_id entry)
             | [] => ret tt
             end) t'
        end.

(** The variables the closure of [remove] captures. *)
Record removeVars := {
  rv_grandParentKey : Key;
  rv_parentKey : Key;
  rv_nodeToDeleteKey : Key;
  rv_grandParent : mapRef;
  rv_parent : mapRef;
  rv_nodeToDelete : mapRef;
}.

Definition remove_visit (key : Key) (children : mapRef) (v : removeVars)
  : M removeVars :=
  let v' := {| rv_grandParentKey := rv_parentKey v;
               rv_parentKey := rv_nodeToDeleteKey v;
               rv_nodeToDeleteKey := key;
               rv_grandParent := rv_parent v;
               rv_parent := rv_nodeToDelete v;
               rv_nodeToDelete := children |} in
  fun t =>
    (run when (negb (is_nil (rv_parent v') t))
           (recordPendingChildChange (rv_parentKey v') (rv_nodeToDeleteKey v')) in
     ret v') t.

Definition remove (key : Key) : M unit :=
  fun t =>
    if nodesAlreadyCalculated t then (Err ErrNodesAlreadyCalculated, t)
    else
      (* confirm a node exists with a value *)
      match getChildren key t with
      | (Err err, t') =>
          if errors_Is err database_ErrNotFound
          then (Ok tt, t')   (* key didn't exist *)
          else (Err err, t')
      | (Ok keyNode, t') =>
          (* node has already been deleted *)
          if is_nil keyNode t' then (Ok tt, t')
          else
            (let* v := visitPathToKey key remove_visit
                         {| rv_grandParentKey := emptyKey;
                            rv_parentKey := emptyKey;
                            rv_nodeToDeleteKey := emptyKey;
                            rv_grandParent := Detached None;
                            rv_parent := Detached None;
                            rv_nodeToDelete := Detached None |} in
             fun t1 =>
               if negb (Nat.eqb (children_len (deref t1 (rv_nodeToDelete v))) 0) then
                 (* merge this node and its child into a single node if
                    possible *)
                 compressNodePath (rv_parent v) (rv_parentKey v)
                                  (rv_nodeToDelete v) (rv_nodeToDeleteKey v) t1
               else
                 (* if the removed node has no children, the node can be
                    removed from the trie *)
                 (run recordNodeDeleted (rv_nodeToDeleteKey v) in
                  fun t2 =>
                    if negb (is_nil (rv_parent v) t2) then
                      (run recordChildRemoved (rv_parentKey v) (rv_nodeToDeleteKey v) in
                       (* merge the parent node and its child into a single
                          node if possible *)
                       compressNodePath (rv_grandParent v) (rv_grandParentKey v)
                                        (rv_parent v) (rv_parentKey v)) t2
                    else (Ok tt, t2)) t1) t'
      end.

(** *** Node IDs *)

(** [children[currentIndex].id = id]: the write goes through the [*child]
    the map holds, so it shows in the view when the map is the stored
    one. *)
Definition write_child_id (key : Key) (r : mapRef) (index : N) (id : ID) : M unit :=
  match r with
  | Stored _ =>
      modify (fun t =>
        set_childrenChanges
          (alter (fmap (alter (set_child_id id) index)) key (childrenChanges t)) t)
  | Detached _ => ret tt
  end.

(** The body of the loop of [calculateNodeIDsHelper] for one child:
    [children] is the local map, [ic] the pair the [range] yields and
    [helper] the recursive call. *)
Definition updateChild (helper : Key -> Maybe (list N) -> M ID)
           (key : Key) (r : mapRef) (children : nodeChildren) (ic : N * child)
  : M nodeChildren :=
  let (childIndex, child) := ic in
  let childPath := Key_Extend key [ToToken childIndex; compressedKey child] in
  fun t =>
    let childrenChanged := bool_decide (is_Some (childrenChanges t !! childPath)) in
    let valueChange := values t !! childPath in
    let valueChanged := bool_decide (is_Some valueChange) in
    if (negb childrenChanged && negb valueChanged)
       || negb (bool_decide (child_id child = ids_Empty))
    then (Ok children, t)
    else
      let changedValue :=
        match valueChange with
        | Some c => after c
        | None => None
        end in
      (let* id := helper childPath changedValue in
       run write_child_id key r childIndex id in
       ret (fmap (alter (set_child_id id) childIndex) children)) t.

(** [calculateNodeIDsHelper].  The children are visited on the calling
    goroutine one after the other, which is the schedule the source
    follows when the semaphore is exhausted.  [depth] bounds the depth of
    the recursion; every call descends to a strictly longer key that is
    recorded in the view. *)
Fixpoint calculateNodeIDsHelper (depth : nat) (key : Key) (value : Maybe (list N))
  : M ID :=
  match depth with
  | O => ret ids_Empty
  | S depth' =>
      let* r := getChildren key in
      fun t =>
        (let* children :=
           foldM (updateChild (calculateNodeIDsHelper depth') key r)
                 (children_entries (deref t r)) (deref t r) in
         (* The IDs of the descendants are up to date so we can calculate
            the ID of this node. *)
         ret (calculateID key children value)) t
  end.

(** The depth [calculateNodeIDs] hands to the helper: one more than the
    number of tokens of the longest key recorded in the view. *)
Definition longest (keys : list Key) : nat :=
  fold_right (fun k n => Nat.max (length k) n) 0%nat keys.

Definition helperDepth (t : trieView) : nat :=
  S (Nat.max (longest (map fst (map_to_list (childrenChanges t))))
             (longest (map fst (map_to_list (values t))))).

(** [calculateNodeIDs].  [order] is the order in which [range] yields the
    keys of [t.changes.values]; Go leaves it unspecified.  The semaphore
    and the tracer are not modelled. *)
Definition calculateNodeIDs_body (order : list Key) : M unit :=
  run foldM (fun (_ : unit) (key : Key) =>
               fun t =>
                 match values t !! key with
                 | Some change =>
                     match after change with
                     | None => remove key t
                     | Some _ => (run insert key in ret tt) t
                     end
                 | None => (Ok tt, t)
                 end) order tt in
  let* val := getValue emptyKey in
  fun t =>
    match calculateNodeIDsHelper (helperDepth t) emptyKey val t with
    | (Err err, t') => (Err err, set_rootID ids_Empty t')
    | (Ok id, t') =>
        (* ensure no ancestor changes occurred during execution *)
        if isInvalid t' then (Err ErrInvalid, set_rootID id t')
        else (Ok tt, set_rootID id t')
    end.

Definition calculateNodeIDs (order : list Key) : M unit :=
  fun t =>
    if calculateNodesOnce t then (Ok tt, t)
    else
      let t := set_calculateNodesOnce true t in
      if isInvalid t then (Err ErrInvalid, t)
      else
        (* defer t.nodesAlreadyCalculated.Set(true) *)
        let (r, t') := calculateNodeIDs_body order t in
        (r, set_nodesAlreadyCalculated true t').

Definition GetMerkleRoot (order : list Key) : M ID :=
  run calculateNodeIDs order in
  fun t => (Ok (rootID t), t).

(** *** Proofs *)

(** The variables the closure of [getProof] captures. *)
Record proofVars := {
  pv_closestKey : Key;
  pv_closestChildren : mapRef;
  pv_closestValue : Maybe (list N);
  pv_Path : list ProofNode;
}.

Definition getProof_visit (key : Key) (children : mapRef) (v : proofVars)
  : M proofVars :=
  let* closestValue := getValue key in
  fun t =>
    (Ok {| pv_closestKey := key;
           pv_closestChildren := children;
           pv_closestValue := closestValue;
           pv_Path := pv_Path v ++ [asProofNode sha256 key (deref t children) closestValue] |},
     t).

Definition getProof (key : list N) : M Proof :=
  let proofKey := ToKey tokenSize key in
  let* v := visitPathToKey proofKey getProof_visit
              {| pv_closestKey := emptyKey;
                 pv_closestChildren := Detached None;
                 pv_closestValue := None;
                 pv_Path := [] |} in
  if bool_decide (pv_closestKey v = proofKey) then
    (* There is a node with the given [key]. *)
    ret {| Proof_Key := proofKey;
           Proof_Value := pv_closestValue v;
           Proof_Path := pv_Path v |}
  else
    (* There is no node with the given [key].  If there is a child at the
       index where the node would be if it existed, include that child in
       the proof. *)
    fun t =>
      let nextIndex := Key_Token proofKey (Key_length (pv_closestKey v)) in
      match children_lookup (deref t (pv_closestChildren v)) nextIndex with
      | None =>
          (Ok {| Proof_Key := proofKey; Proof_Value := None; Proof_Path := pv_Path v |}, t)
      | Some child =>
          let childKey :=
            Key_Extend (pv_closestKey v) [ToToken nextIndex; compressedKey child] in
          (let* childChildren := getChildren childKey in
           let* childValue := getValue childKey in
           fun t' =>
             if isInvalid t' then (Err ErrInvalid, t')
             else
               (Ok {| Proof_Key := proofKey;
                      Proof_Value := None;
                      Proof_Path :=
                        pv_Path v
                        ++ [asProofNode sha256 childKey (deref t' childChildren) childValue] |},
                t')) t
      end.

Definition GetProof (order : list Key) (key : list N) : M Proof :=
  run calculateNodeIDs order in getProof key.

(** The loop of [GetRangeProof] over the iterator.  [it.Next()] is
    evaluated first, so the error of the iterator shows only when the loop
    has consumed every pair before it. *)
Fixpoint collectKeyValues (entries : list KeyValue) (itErr : option error)
         (end_ : Maybe (list N)) (maxLength : Z) (acc : list KeyValue)
  : list KeyValue * option error :=
  match entries with
  | [] => (acc, itErr)
  | kv :: entries' =>
      if (Z.of_nat (length acc) <? maxLength)%Z
         && match end_ with
            | None => true
            | Some e => (bytes_Compare (kv_Key kv) e <=? 0)%Z
            end
      then collectKeyValues entries' itErr end_ maxLength (acc ++ [kv])
      else (acc, None)
  end.

(** strip out any common nodes to reduce proof size *)
Fixpoint stripCommon (startProof endProof : list ProofNode) : list ProofNode :=
  match startProof, endProof with
  | s :: startProof', e :: endProof' =>
      if bool_decide (pn_Key s = pn_Key e) then stripCommon startProof' endProof'
      else startProof
  | _, _ => startProof
  end.

Definition startAfterEnd (start end_ : Maybe (list N)) : bool :=
  match start, end_ with
  | Some s, Some e => (bytes_Compare s e =? 1)%Z
  | _, _ => false
  end.

Definition is_empty {A} (l : list A) : bool :=
  match l with [] => true | _ => false end.

Definition GetRangeProof (order : list Key) (start end_ : Maybe (list N))
           (maxLength : Z) : M RangeProof :=
  fun t =>
    if startAfterEnd start end_ then (Err ErrStartAfterEnd, t)
    else if (maxLength <=? 0)%Z then (Err (ErrInvalidMaxLength_but_was maxLength), t)
    else
      (run calculateNodeIDs order in
       fun t1 =>
         let (entries, itErr) := NewIteratorWithStart t1 (default [] start) in
         match collectKeyValues entries itErr end_ maxLength [] with
         | (_, Some err) => (Err err, t1)
         | (keyValues, None) =>
             (* The end proof is for the last key-value pair in the proof,
                not for the last key-value pair requested. *)
             (let* endProof :=
                match last keyValues, end_ with
                | Some greatest, _ =>
                    let* endProof := getProof (kv_Key greatest) in
                    ret (Proof_Path endProof)
                | None, Some e =>
                    let* endProof := getProof e in
                    ret (Proof_Path endProof)
                | None, None => ret []
                end in
              let* startProof :=
                match start with
                | Some s =>
                    let* startProof := getProof s in
                    ret (stripCommon (Proof_Path startProof) endProof)
                | None => ret []
                end in
              let* endProof :=
                if is_empty startProof && is_empty endProof && is_empty keyValues then
                  (* If the range is empty, return the root proof. *)
                  let* rootProof := getProof rootKey in
                  ret (Proof_Path rootProof)
                else ret endProof in
              fun t2 =>
                if isInvalid t2 then (Err ErrInvalid, t2)
                else
                  (Ok {| StartProof := startProof;
                         EndProof := endProof;
                         KeyValues := keyValues |}, t2)) t1
         end) t.

End View.

(** ** Reading values from outside *)

Section Values.

Variable tokenSize : Z.
Variable parentTrie : TrieView.

(** [getValueCopy]: the byte slices are values here, so the copy does not
    show. *)
Definition getValueCopy (key : Key) : M (Maybe (list N)) :=
  let* val := getValue parentTrie key in
  ret val.

(** [GetValue] returns [database.ErrNotFound] when the value is [Nothing]. *)
Definition GetValue (key : list N) : M (list N) :=
  let* val := getValueCopy (ToKey tokenSize key) in
  match val with
  | None => fun t => (Err database_ErrNotFound, t)
  | Some v => ret v
  end.

(** [GetValues]: one slot per key in [results] and in [valueErrors]; a slot
    that is not written keeps its zero value (nil). *)
Fixpoint GetValues (keys : list (list N)) (t : trieView)
  : list (option (list N)) * list (option error) * trieView :=
  match keys with
  | [] => ([], [], t)
  | key :: keys' =>
      let (r, t1) := getValueCopy (ToKey tokenSize key) t in
      let '(results, valueErrors, t2) := GetValues keys' t1 in
      match r with
      | Err err => (None :: results, Some err :: valueErrors, t2)
      | Ok None => (None :: results, Some database_ErrNotFound :: valueErrors, t2)
      | Ok (Some v) => (Some v :: results, None :: valueErrors, t2)
      end
  end.

End Values.

(** ** Views of views *)

(** A view seen as the parent trie of the views created on top of it. *)
Definition view_as_TrieView (parentTrie : TrieView) (t : trieView) : TrieView :=
  {| tv_getValue := fun key => (fst (getValue parentTrie key t), false);
     tv_getChildren := fun key =>
       (match getChildren parentTrie key t with
        | (Ok n, t') => Ok (deref t' n)
        | (Err err, _) => Err err
        end, false) |}.

(** [newTrieView(db, parentTrie, changes)].  The byte slices are values
    here, so cloning them ([ConsumeBytes]) does not show. *)
Definition newTrieView (tokenSize : Z) (parentTrie : TrieView) (changes : ViewChanges)
  : result trieView :=
  match fst (tv_getChildren parentTrie emptyKey) with
  | Err err =>
      if errors_Is err database_ErrNotFound then Err ErrNoValidRoot else Err err
  | Ok rootChildren =>
      let newView :=
        {| committed := false; nodesAlreadyCalculated := false;
           calculateNodesOnce := false; invalidated := false; childViews := [];
           values := ∅; rootID := ids_Empty;
           childrenChanges := {[ emptyKey := rootChildren ]} |} in
      let record :=
        run foldM (fun (_ : unit) (op : BatchOp) =>
                     recordValueChange parentTrie (ToKey tokenSize (op_Key op))
                       (if op_Delete op then None else Some (op_Value op)))
                  (BatchOps changes) tt in
        foldM (fun (_ : unit) (kv : list N * Maybe (list N)) =>
                 recordValueChange parentTrie (ToKey tokenSize (fst kv)) (snd kv))
              (MapOps changes) tt in
      match record newView with
      | (Err err, _) => Err err
      | (Ok _, newView') => Ok newView'
      end
  end.

(** The views of a database live in a heap; [childViews] holds addresses
    into it. *)
Abbreviation heap := (gmap nat trieView).

(** The loop of [invalidate] over the child views, [invalidate_child] being
    the recursive call. *)
Fixpoint invalidate_each (invalidate_child : nat -> heap -> option heap)
         (children : list nat) (h : heap) : option heap :=
  match children with
  | [] => Some h
  | childView :: children' =>
      match invalidate_child childView h with
      | Some h' => invalidate_each invalidate_child children' h'
      | None => None
      end
  end.

(** [invalidate]: marks the view, invalidates its children one after the
    other, then forgets them.  [depth] bounds the depth of the recursion
    through the child registries; the result is [None] when it is exceeded
    (a registry that loops back never returns in the source either) or when
    an address is not allocated. *)
Fixpoint invalidate (depth : nat) (addr : nat) (h : heap) : option heap :=
  match depth with
  | O => None
  | S depth' =>
      match h !! addr with
      | None => None
      | Some t =>
          let h1 := <[addr := set_validity true (childViews t) t]> h in
          match invalidate_each (invalidate depth') (childViews t) h1 with
          | None => None
          | Some h2 =>
              (* after invalidating the children, they no longer need to be
                 tracked *)
              Some (alter (fun t' => set_validity (invalidated t') [] t') addr h2)
          end
      end
  end.

Section NewView.

Variable tokenSize : Z.
Variable calculateID : Key -> nodeChildren -> Maybe (list N) -> ID.

(** [t.parentTrie] and its [NewView] method, to which a committed view
    hands the request over. *)
Variable parentTrie : TrieView.
Variable parent_NewView : ViewChanges -> heap -> result nat * heap.

(** [NewView] on the view at [addr].  The result is the address of the
    new view; [None] when [addr] is not allocated. *)
Definition NewView (order : list Key) (addr : nat) (changes : ViewChanges) (h : heap)
  : option (result nat * heap) :=
  match h !! addr with
  | None => None
  | Some t =>
      Some (
        if isInvalid t then (Err ErrInvalid, h)
        else if committed t then parent_NewView changes h
        else
          match calculateNodeIDs tokenSize parentTrie calculateID order t with
          | (Err err, t1) => (Err err, <[addr := t1]> h)
          | (Ok _, t1) =>
              match newTrieView tokenSize (view_as_TrieView parentTrie t1) changes with
              | Err err => (Err err, <[addr := t1]> h)
              | Ok newView =>
                  if invalidated t1 then (Err ErrInvalid, <[addr := t1]> h)
                  else
                    let new := fresh (dom h) in
                    (Ok new,
                     <[new := newView]>
                       (<[addr := set_validity (invalidated t1) (childViews t1 ++ [new]) t1]> h))
              end
          end)
  end.

End NewView.

(** ** Vocabulary of the properties *)

(** What editing the trie of a view may change: the recorded node changes
    and, through a concurrent [invalidate], the validity fields, where the
    flag is only ever set. *)
Definition steps (t t' : trieView) : Prop :=
  committed t' = committed t
  /\ nodesAlreadyCalculated t' = nodesAlreadyCalculated t
  /\ calculateNodesOnce t' = calculateNodesOnce t
  /\ values t' = values t
  /\ rootID t' = rootID t
  /\ (invalidated t = true -> invalidated t' = true).

Definition frames {A} (m : M A) : Prop := forall t, steps t (snd (m t)).

(** The key has no node in the trie of the view: the view recorded its
    deletion, or the view records nothing for it and the parent trie has no
    node (or a nil one) for it.  The parent answers without the view being
    invalidated in the meantime. *)
Definition has_no_node (parentTrie : TrieView) (key : Key) (t : trieView) : Prop :=
  childrenChanges t !! key = Some None
  \/ (childrenChanges t !! key = None
      /\ ((exists err, tv_getChildren parentTrie key = (Err err, false)
                       /\ errors_Is err database_ErrNotFound = true)
          \/ tv_getChildren parentTrie key = (Ok None, false))).

(** The key is recorded in the view: it has an entry in the node changes or
    in the value changes.  These are the keys [calculateNodeIDsHelper]
    descends to. *)
Definition recorded (t : trieView) (key : Key) : Prop :=
  is_Some (childrenChanges t !! key) \/ is_Some (values t !! key).

(** Two states of a view record the same keys. *)
Definition same_keys (t t' : trieView) : Prop :=
  (forall key, is_Some (childrenChanges t' !! key) <-> is_Some (childrenChanges t !! key))
  /\ values t' = values t.

(** [order] is an order in which [range] may yield the keys of
    [t.changes.values]: each key once. *)
Definition range_order (t : trieView) (order : list Key) : Prop :=
  order ≡ₚ map fst (map_to_list (values t)).

(** A sequence of [recordValueChange] calls, as [newTrieView] issues them. *)
Definition recordValueChanges (parentTrie : TrieView)
           (ops : list (Key * Maybe (list N))) : M unit :=
  foldM (fun (_ : unit) (op : Key * Maybe (list N)) =>
           recordValueChange parentTrie (fst op) (snd op)) ops tt.

(** The value of the most recent call for [key] in a sequence of calls. *)
Fixpoint lastValue (ops : list (Key * Maybe (list N))) (key : Key)
  : option (Maybe (list N)) :=
  match ops with
  | [] => None
  | (k, v) :: ops' =>
      match lastValue ops' key with
      | Some v' => Some v'
      | None => if decide (k = key) then Some v else None
      end
  end.

(** Reachability through the child registries of a heap of views. *)
Inductive reachable (h : heap) : nat -> nat -> Prop :=
| reach_here a : reachable h a a
| reach_child a t c b :
    h !! a = Some t -> c ∈ childViews t -> reachable h c b -> reachable h a b.

(** The registries form a forest of allocated views: every registered child
    is allocated and sits strictly below its parent. *)
Definition ranked (rank : nat -> nat) (h : heap) : Prop :=
  forall a t c, h !! a = Some t -> c ∈ childViews t ->
                rank c < rank a /\ is_Some (h !! c).

(** The view at an address is invalidated and tracks no children. *)
Definition dead (h : heap) (a : nat) : Prop :=
  exists t, h !! a = Some t /\ invalidated t = true /\ childViews t = [].

(** [g] is what invalidations made of the heap [h]: a view differs from
    what it was in its validity fields only, its flag was not cleared, and
    its registry is what it was unless the view and everything that was
    reachable from it are dead. *)
Definition tracks (h g : heap) : Prop :=
  forall b t,
    h !! b = Some t ->
    exists t',
      g !! b = Some t'
      /\ t' = set_validity (invalidated t') (childViews t') t
      /\ (invalidated t = true -> invalidated t' = true)
      /\ (childViews t' = childViews t
          \/ (childViews t' = [] /\ forall x, reachable h b x -> dead g x)).

(** Keys in strictly ascending order. *)
Fixpoint ascending (keys : list (list N)) : Prop :=
  match keys with
  | [] => True
  | k :: keys' =>
      match keys' with
      | [] => True
      | k' :: _ => bytes_Compare k k' = (-1)%Z
      end /\ ascending keys'
  end.

(** [key] lies in [[start, end_]], an absent bound being no bound. *)
Definition in_range (start end_ : Maybe (list N)) (key : list N) : Prop :=
  match start with Some s => (bytes_Compare s key <= 0)%Z | None => True end
  /\ match end_ with Some e => (bytes_Compare key e <= 0)%Z | None => True end.

(** The contract of the iterator of a view: the keys come in strictly
    ascending order, none before the start key. *)
Definition ordered_iterator
           (it : trieView -> list N -> list KeyValue * option error) : Prop :=
  forall t start,
    ascending (map kv_Key (fst (it t start)))
    /\ Forall (fun kv => (bytes_Compare start (kv_Key kv) <= 0)%Z) (fst (it t start)).

(** The calls of [recordValueChange] that [newTrieView] issues for a set of
    changes, in order: the batch operations, then the map operations. *)
Definition changes_ops (tokenSize : Z) (changes : ViewChanges)
  : list (Key * Maybe (list N)) :=
  map (fun op : BatchOp =>
         (ToKey tokenSize (op_Key op),
          if op_Delete op then None else Some (op_Value op)))
      (BatchOps changes)
  ++ map (fun kv : list N * Maybe (list N) => (ToKey tokenSize (fst kv), snd kv))
         (MapOps changes).

(** The parent trie answers every call without the view being invalidated
    in the meantime. *)
Definition quiet (parentTrie : TrieView) : Prop :=
  forall key, snd (tv_getValue parentTrie key) = false
              /\ snd (tv_getChildren parentTrie key) = false.

(** Every run of a method takes the view to a state related to the one it
    started in. *)
Definition edits (R : trieView -> trieView -> Prop) {A} (m : M A) : Prop :=
  forall t, R t (snd (m t)).

(** The validity fields are what they were, or the view was invalidated
    and forgot its children. *)
Definition keeps_registry (t t' : trieView) : Prop :=
  (invalidated t' = invalidated t /\ childViews t' = childViews t)
  \/ (invalidated t' = true /\ childViews t' = []).

(** The node changes recorded for the keys that are not prefixes of [key]
    are what they were. *)
Definition untouched_off_path (key : Key) (t t' : trieView) : Prop :=
  forall k : Key, ~ k `prefix_of` key -> childrenChanges t' !! k = childrenChanges t !! k.

(** A visitor of [visitPathToKey] that also lists the keys it is called
    with. *)
Definition traced {A} (visitNode : Key -> mapRef -> A -> M A)
  : Key -> mapRef -> A * list Key -> M (A * list Key) :=
  fun k r acc =>
    let* a' := visitNode k r (fst acc) in
    ret (a', snd acc ++ [k]).

(** Each key is strictly longer than the one before. *)
Fixpoint lengthening (keys : list Key) : Prop :=
  match keys with
  | [] => True
  | k :: keys' =>
      match keys' with
      | [] => True
      | k' :: _ => length k < length k'
      end /\ lengthening keys'
  end.

(** The end proof that [GetRangeProof] builds before it turns to the
    start proof: the path of the proof of the last pair taken, of [end_]
    when no pair was taken, and no path when there is neither. *)
Definition endProofStep (tokenSize : Z) (parentTrie : TrieView)
           (sha256 : list N -> list N)
           (keyValues : list KeyValue) (end_ : Maybe (list N))
  : M (list ProofNode) :=
  match last keyValues, end_ with
  | Some greatest, _ =>
      let* endProof := getProof tokenSize parentTrie sha256 (kv_Key greatest) in
      ret (Proof_Path endProof)
  | None, Some e =>
      let* endProof := getProof tokenSize parentTrie sha256 e in
      ret (Proof_Path endProof)
  | None, None => ret []
  end.

(** ** Sample tries and views *)

(** The parent trie of a view on an empty database: a root without children
    and without value, no other node. *)
Definition emptyDB : TrieView :=
  {| tv_getValue := fun _ => (Ok None, false);
     tv_getChildren := fun key =>
       (match key with
        | [] => Ok (Some ∅)
        | _ => Err database_ErrNotFound
        end, false) |}.

(** A parent trie that fails with [database.ErrClosed] while the view is
    being invalidated. *)
Definition closingDB : TrieView :=
  {| tv_getValue := fun _ => (Err database_ErrClosed, true);
     tv_getChildren := fun _ => (Err database_ErrClosed, true) |}.

(** A fresh view on the empty database, as [newTrieView] builds it before
    any change is recorded. *)
Definition freshView : trieView :=
  {| committed := false; nodesAlreadyCalculated := false;
     calculateNodesOnce := false; invalidated := false; childViews := [];
     values := ∅; rootID := ids_Empty;
     childrenChanges := {[ emptyKey := Some ∅ ]} |}.

(** The keys ["a"] and ["ab"] with four-bit tokens. *)
Definition key_a : Key := ToKey 4 [97%N].
Definition key_ab : Key := ToKey 4 [97%N; 98%N].

(** The view on the empty database that records [a := [1]] and
    [ab := [2]]. *)
Definition view_a_ab : trieView :=
  set_values
    (<[key_a := {| before := None; after := Some [1%N] |}]>
       (<[key_ab := {| before := None; after := Some [2%N] |}]> ∅))
    freshView.

(** The parent trie of a view on a database that holds [z := [9]]: the
    root has the one child that leads to ["z"]. *)
Definition key_z : Key := ToKey 4 [122%N].

Definition dbWithZ : TrieView :=
  {| tv_getValue := fun key =>
       (Ok (if bool_decide (key = key_z) then Some [9%N] else None), false);
     tv_getChildren := fun key =>
       (if bool_decide (key = emptyKey) then
          Ok (Some {[ 7%N := {| compressedKey := [10%N];
                               child_id := repeat 1%N 32;
                               hasValue := true |} ]})
        else if bool_decide (key = key_z) then Ok (Some ∅)
        else Err database_ErrNotFound, false) |}.

(** The view on that database that records [a := [1]] and [ab := [2]]. *)
Definition view_a_ab_over_z : trieView :=
  set_childrenChanges
    {[ emptyKey := Some {[ 7%N := {| compressedKey := [10%N];
                                    child_id := repeat 1%N 32;
                                    hasValue := true |} ]} ]}
    view_a_ab.

(** The two batches that record these changes, in either order. *)
Definition put (key value : list N) : BatchOp :=
  {| op_Key := key; op_Value := value; op_Delete := false |}.

Definition changes_a_ab : ViewChanges :=
  {| BatchOps := [put [97%N] [1%N]; put [97%N; 98%N] [2%N]];
     MapOps := []; ConsumeBytes := false |}.

Definition changes_ab_a : ViewChanges :=
  {| BatchOps := [put [97%N; 98%N] [2%N]; put [97%N] [1%N]];
     MapOps := []; ConsumeBytes := false |}.

(** A view whose node IDs were calculated already, and one that was
    invalidated before they were. *)
Definition calculatedView : trieView := set_nodesAlreadyCalculated true freshView.

Definition invalidView : trieView := invalidate_self freshView.

(** A parent trie that answers [Nothing] while the view is being
    invalidated. *)
Definition racingDB : TrieView :=
  {| tv_getValue := fun _ => (Ok None, true);
     tv_getChildren := fun _ => (Ok None, true) |}.

(** Stand-ins for the collaborators the view is parameterised by: a node
    ID that spells out what is hashed, a digest that keeps the value, and an
    iterator over the two pairs of [view_a_ab]. *)
Definition sample_calculateID (key : Key) (children : nodeChildren)
           (value : Maybe (list N)) : ID :=
  key ++ [255%N] ++ default [254%N] value ++ [255%N]
      ++ concat (map (fun ic : N * child => fst ic :: child_id (snd ic))
                     (children_entries children)).

Definition sample_sha256 (value : list N) : list N := value.

Definition sample_pairs : list KeyValue :=
  [ {| kv_Key := [97%N]; kv_Value := [1%N] |};
    {| kv_Key := [97%N; 98%N]; kv_Value := [2%N] |} ].

Definition sampleIterator (t : trieView) (start : list N)
  : list KeyValue * option error :=
  (List.filter (fun kv => (bytes_Compare start (kv_Key kv) <=? 0)%Z) sample_pairs, None).

(** A heap with a view at address 0 that tracks a child view at
    address 1. *)
Definition sample_heap : heap :=
  <[0 := set_validity false [1] freshView]> (<[1 := freshView]> ∅).

Definition sample_rank (addr : nat) : nat :=
  match addr with O => 1 | S _ => 0 end.

Definition sample_parent_NewView (changes : ViewChanges) (h : heap)
  : result nat * heap :=
  (Err ErrParentNotDatabase, h).

(** The view on the empty database after [insert] of ["ab"]: the root has
    the one child that leads to ["ab"]. *)
Definition view_with_ab : trieView := snd (insert 4 emptyDB key_ab freshView).

(** A view in which the node of ["a"], without a value, sits between the
    root and the node of ["ab"]. *)
Definition chainView : trieView :=
  set_childrenChanges
    (<[emptyKey := Some {[ 6%N := {| compressedKey := [1%N];
                                    child_id := ids_Empty;
                                    hasValue := false |} ]}]>
       (<[key_a := Some {[ 6%N := {| compressedKey := [2%N];
                                    child_id := repeat 2%N 32;
                                    hasValue := false |} ]}]> ∅))
    freshView.

(** An iterator that yields nothing. *)
Definition emptyIterator (t : trieView) (start : list N)
  : list KeyValue * option error :=
  ([], None).

End merkledb.

(* ===================================================================== *)
(** * Package paths *)
(* ===================================================================== *)

Module paths.

(** Go's [int] is 64 bits wide and a [byte] 8; arithmetic wraps around. *)
Definition int_wrap (z : Z) : Z := ((z + 2 ^ 63) mod 2 ^ 64 - 2 ^ 63)%Z.

Definition byte_wrap (n : N) : N := (n mod 256)%N.

(** The conversion [byte(z)]. *)
Definition byte_of_int (z : Z) : N := Z.to_N (z mod 256).

(** [SerializedPath] contains a path from the trie.  The branch factor is
    16, so the path may hold an odd number of nibbles; the low half of the
    last byte is then not part of the path. *)
Record SerializedPath := {
  NibbleLength : Z;
  Value : list N;
}.

(** [bytes.HasPrefix] *)
Definition bytes_HasPrefix (s prefix : list N) : bool :=
  bool_decide (prefix `prefix_of` s).

Definition Equal (s other : SerializedPath) : bool :=
  (NibbleLength s =? NibbleLength other)%Z && bool_decide (Value s = Value other).

(** [HasPrefix].  The two reads at [reducedSize] are within the slices
    after the tests on the lengths. *)
Definition HasPrefix (s prefix : SerializedPath) : bool :=
  let prefixValue := Value prefix in
  let prefixLength := Z.of_nat (length (Value prefix)) in
  if (NibbleLength s <? NibbleLength prefix)%Z
     || (Z.of_nat (length (Value s)) <? prefixLength)%Z
  then false
  else if (Z.rem (NibbleLength prefix) 2 =? 0)%Z
  then bytes_HasPrefix (Value s) prefixValue
  else
    let reducedSize := (prefixLength - 1)%Z in
    (* the input was invalid so just return false *)
    if (reducedSize <? 0)%Z then false
    else
      match prefixValue !! Z.to_nat reducedSize, Value s !! Z.to_nat reducedSize with
      | Some p, Some v =>
          (* grab the last nibble in the prefix and serialized path *)
          (N.shiftr v 4 =? N.shiftr p 4)%N
          && bytes_HasPrefix (Value s) (take (Z.to_nat reducedSize) prefixValue)
      | _, _ => false
      end.

Definition HasStrictPrefix (s prefix : SerializedPath) : bool :=
  HasPrefix s prefix && negb (Equal s prefix).

(** [NibbleVal]; [None] when the index is out of range, where the source
    panics. *)
Definition NibbleVal (s : SerializedPath) (nibbleIndex : Z) : option N :=
  let byteIndex := Z.shiftr nibbleIndex 1 in
  if (byteIndex <? 0)%Z then None
  else
    match Value s !! Z.to_nat byteIndex with
    | None => None
    | Some value =>
        let isOdd := byte_of_int (Z.land nibbleIndex 1) in
        let isEven := byte_wrap (256 + 1 - isOdd) in
        (* return value first(even index) or last 4(odd index) bits of the
           corresponding byte *)
        Some (byte_wrap (N.shiftr (byte_wrap (isEven * value)) 4
                         + byte_wrap (isOdd * N.land value 15)))
    end.

(** [AppendNibble]; [None] when there is no last byte to add the nibble
    to, where the source panics. *)
Definition AppendNibble (s : SerializedPath) (nibble : N) : option SerializedPath :=
  (* even is 1 if even, 0 if odd *)
  let even := (1 - Z.land (NibbleLength s) 1)%Z in
  let value := Value s ++ repeat 0%N (Z.to_nat even) in
  match length value with
  | O => None
  | S last =>
      match value !! last with
      | Some b =>
          (* shift the nibble 4 left if even, do nothing if odd *)
          Some {| NibbleLength := int_wrap (NibbleLength s + 1);
                  Value :=
                    <[last := byte_wrap (b + byte_wrap (N.shiftl nibble (Z.to_N (4 * even))))]>
                      value |}
      | None => None
      end
  end.

(** ** Vocabulary of the properties *)

(** The path holds as many bytes as its nibbles need. *)
Definition well_formed (s : SerializedPath) : Prop :=
  (0 <= NibbleLength s)%Z
  /\ Z.of_nat (length (Value s)) = ((NibbleLength s + 1) / 2)%Z
  /\ Forall (fun b => (b < 256)%N) (Value s).

(** The half byte after a path of odd length is zero. *)
Definition zero_padded (s : SerializedPath) : Prop :=
  Z.odd (NibbleLength s) = true ->
  exists b, last (Value s) = Some b /\ N.land b 15 = 0%N.

(** The paths [0x6] and [0x61]. *)
Definition path_6 : SerializedPath := {| NibbleLength := 1; Value := [96%N] |}.
Definition path_61 : SerializedPath := {| NibbleLength := 2; Value := [97%N] |}.

End paths.

(* ===================================================================== *)
(** * Package rpc *)
(* ===================================================================== *)

Module rpc.

Section Params.

(** [http.Cookie] and its [Name] field. *)
Variable Cookie : Type.
Variable Cookie_Name : Cookie -> string.

(** [textproto.CanonicalMIMEHeaderKey], which [http.Header.Set] applies to
    the key. *)
Variable CanonicalMIMEHeaderKey : string -> string.

Record Options := {
  headers : gmap string (list string);
  queryParams : gmap string (list string);
  cookies : gmap string Cookie;
}.

Definition Option := Options -> Options.

Definition applyOptions (o : Options) (ops : list Option) : Options :=
  fold_left (fun o op => op o) ops o.

Definition NewOptions (ops : list Option) : Options :=
  applyOptions {| headers := ∅; queryParams := ∅; cookies := ∅ |} ops.

Definition Headers (o : Options) : gmap string (list string) := headers o.

Definition QueryParams (o : Options) : gmap string (list string) := queryParams o.

(** [maps.Values] lists the values in the order [range] yields them. *)
Definition Cookies (o : Options) : list Cookie := snd <$> map_to_list (cookies o).

Definition WithHeader (key val : string) : Option :=
  fun o =>
    {| headers := <[CanonicalMIMEHeaderKey key := [val]]> (headers o);
       queryParams := queryParams o;
       cookies := cookies o |}.

Definition WithQueryParam (key val : string) : Option :=
  fun o =>
    {| headers := headers o;
       queryParams := <[key := [val]]> (queryParams o);
       cookies := cookies o |}.

Definition WithCookie (c : Cookie) : Option :=
  fun o =>
    {| headers := headers o;
       queryParams := queryParams o;
       cookies := <[Cookie_Name c := c]> (cookies o) |}.

End Params.

End rpc.

(* ===================================================================== *)
(** * Properties of package pebble *)
(* ===================================================================== *)

Module pebble_facts.
Import pebble.

Lemma bytes_Compare_nil_r (a : list N) : (0 <= bytes_Compare a [])%Z.
Proof. destruct a; simpl; lia. Qed.

(** Whenever [start >= limit] an open database does nothing and returns
    nil. *)
Lemma Compact_start_ge_limit engine_Compact db start limit :
  closed db = false ->
  (0 <= comparer_Compare start limit)%Z ->
  Compact engine_Compact db start limit = (None, []).
Proof.
  intros Hopen Hge. unfold Compact. rewrite Hopen.
  destruct (Z.leb_spec 0 (comparer_Compare start limit)); [reflexivity | lia].
Qed.

(** A nil [limit] compares as the empty slice, so [start >= limit] holds for
    every [start]: the code that looks up the greatest key is never
    reached. *)
Lemma Compact_nil_limit engine_Compact db start :
  closed db = false ->
  Compact engine_Compact db start None = (None, []).
Proof.
  intros Hopen. apply Compact_start_ge_limit; [assumption |].
  unfold comparer_Compare. simpl. apply bytes_Compare_nil_r.
Qed.

(** C5.  On an open database holding the keys [[1]] and [[2]],
    [Compact([0], nil)] returns nil without handing any range to the engine,
    although the database is not empty and its greatest key [[2]] is after
    [start].  The source comment asks for a nil limit to be treated as a key
    after all keys. *)
Theorem Compact_nil_limit_skips_nonempty_database :
  forall engine_Compact,
    let db := {| pebbleDB := [[1%N]; [2%N]]; closed := false |} in
    Compact engine_Compact db (Some [0%N]) None = (None, [])
    /\ Last (pebbleDB db) = Some [2%N]
    /\ comparer_Compare (Some [0%N]) (Some [2%N]) = (-1)%Z.
Proof. intros engine_Compact db. repeat split. Qed.


(** ** The order of byte strings *)

Lemma bytes_Compare_cons x a y b :
  bytes_Compare (x :: a) (y :: b)
  = if (x <? y)%N then (-1)%Z else if (y <? x)%N then 1%Z else bytes_Compare a b.
Proof. reflexivity. Qed.

Lemma bytes_Compare_range a b :
  bytes_Compare a b = (-1)%Z \/ bytes_Compare a b = 0%Z \/ bytes_Compare a b = 1%Z.
Proof.
  revert b. induction a as [|x a IH]; intros [|y b]; simpl; auto.
  destruct (x <? y)%N; auto. destruct (y <? x)%N; auto.
Qed.

Lemma bytes_Compare_le_trans a :
  forall b c,
    (bytes_Compare a b <= 0)%Z -> (bytes_Compare b c <= 0)%Z ->
    (bytes_Compare a c <= 0)%Z.
Proof.
  induction a as [|x a IH]; intros [|y b] [|z c]; simpl; try lia.
  destruct (N.ltb_spec x y), (N.ltb_spec y x), (N.ltb_spec y z), (N.ltb_spec z y),
           (N.ltb_spec x z), (N.ltb_spec z x); try lia.
  apply IH.
Qed.

Lemma bytes_Compare_flip a :
  forall b, bytes_Compare a b = 1%Z -> (bytes_Compare b a <= 0)%Z.
Proof.
  induction a as [|x a IH]; intros [|y b]; simpl; try lia.
  destruct (N.ltb_spec x y), (N.ltb_spec y x); try lia. apply IH.
Qed.

Lemma bytes_Compare_total a b :
  bytes_Compare a b <> 1%Z -> (bytes_Compare a b <= 0)%Z.
Proof.
  intros H. destruct (bytes_Compare_range a b) as [E | [E | E]]; lia.
Qed.

(** ** The range of a prefix *)

(** The loop of [bytesPrefix], read from the front of the prefix: the limit
    of [x :: p] is [x] before the limit of [p] when [p] has one, and
    otherwise the single byte after [x] when there is one. *)
Lemma bytesPrefix_limit_cons x p :
  forall i, i <= length p ->
    bytesPrefix_limit (S i) (x :: p)
    = match bytesPrefix_limit i p with
      | Some l => Some (x :: l)
      | None => if (x <? 255)%N then Some [((x + 1) mod 256)%N] else None
      end.
Proof.
  induction i as [|i IH]; intros Hi.
  - simpl. destruct (x <? 255)%N; reflexivity.
  - assert (Hlt : i < length p) by lia.
    destruct (lookup_lt_is_Some_2 p i Hlt) as [c Hc].
    change (bytesPrefix_limit (S (S i)) (x :: p))
      with (match (x :: p) !! S i with
            | Some c =>
                if (c <? 255)%N
                then Some (<[S i := ((c + 1) mod 256)%N]> (take (S (S i)) (x :: p)))
                else bytesPrefix_limit (S i) (x :: p)
            | None => None
            end).
    change ((x :: p) !! S i) with (p !! i). rewrite Hc.
    change (bytesPrefix_limit (S i) p)
      with (match p !! i with
            | Some c =>
                if (c <? 255)%N
                then Some (<[i := ((c + 1) mod 256)%N]> (take (S i) p))
                else bytesPrefix_limit i p
            | None => None
            end).
    rewrite Hc. destruct (c <? 255)%N.
    + reflexivity.
    + apply IH. lia.
Qed.

Lemma bytesPrefix_limit_range p :
  Forall is_byte p ->
  forall key, Forall is_byte key ->
    ((bytes_Compare p key <= 0)%Z
     /\ match bytesPrefix_limit (length p) p with
        | Some upper => (bytes_Compare key upper < 0)%Z
        | None => True
        end)
    <-> p `prefix_of` key.
Proof.
  induction p as [|x p IH]; intros Hp key Hkey.
  - simpl. split.
    + intros _. apply prefix_nil.
    + intros _. split; [destruct key; simpl; lia | exact I].
  - apply Forall_cons in Hp as [Hx Hp]. unfold is_byte in Hx.
    cbn [length]. rewrite (bytesPrefix_limit_cons x p (length p)) by lia.
    destruct key as [|y key].
    + split.
      * intros [Hle _]. simpl in Hle. lia.
      * intros [k Hk]. discriminate.
    + apply Forall_cons in Hkey as [Hy Hkey]. unfold is_byte in Hy.
      specialize (IH Hp key Hkey).
      rewrite bytes_Compare_cons.
      split.
      * intros [Hle Hup].
        destruct (N.ltb_spec x y) as [Hxy | Hxy].
        -- (* x < y: the upper bound excludes the key *)
           exfalso.
           destruct (bytesPrefix_limit (length p) p) as [l|].
           ++ rewrite bytes_Compare_cons in Hup.
              destruct (N.ltb_spec y x); [lia |].
              destruct (N.ltb_spec x y); lia.
           ++ destruct (N.ltb_spec x 255) as [Hx255 | Hx255]; [| lia].
              rewrite N.mod_small in Hup by lia.
              rewrite bytes_Compare_cons in Hup.
              destruct (N.ltb_spec y (x + 1)); [lia |].
              destruct (N.ltb_spec (x + 1) y); [lia |].
              destruct key; simpl in Hup; lia.
        -- destruct (N.ltb_spec y x) as [Hyx | Hyx]; [lia |].
           assert (x = y) by lia. subst y.
           apply prefix_cons. apply IH. split; [exact Hle |].
           destruct (bytesPrefix_limit (length p) p) as [l|]; [| exact I].
           rewrite bytes_Compare_cons, N.ltb_irrefl in Hup. exact Hup.
      * intros Hpre.
        assert (x = y) by (exact (prefix_cons_inv_1 _ _ _ _ Hpre)). subst y.
        apply prefix_cons_inv_2 in Hpre. apply IH in Hpre as [Hle Hup].
        rewrite N.ltb_irrefl. split; [exact Hle |].
        destruct (bytesPrefix_limit (length p) p) as [l|].
        -- rewrite bytes_Compare_cons, N.ltb_irrefl. exact Hup.
        -- destruct (N.ltb_spec x 255) as [Hx255 | Hx255]; [| exact I].
           rewrite N.mod_small by lia.
           rewrite bytes_Compare_cons.
           destruct (N.ltb_spec x (x + 1)); lia.
Qed.

Lemma bytesPrefix_limit_nil p :
  Forall is_byte p ->
  bytesPrefix_limit (length p) p = None <-> Forall (fun b => b = 255%N) p.
Proof.
  induction p as [|x p IH]; intros Hp.
  - simpl. split; [intros _; constructor | reflexivity].
  - apply Forall_cons in Hp as [Hx Hp]. unfold is_byte in Hx.
    cbn [length]. rewrite (bytesPrefix_limit_cons x p (length p)) by lia.
    specialize (IH Hp). rewrite Forall_cons.
    destruct (bytesPrefix_limit (length p) p) as [l|].
    + split; [discriminate |]. intros [_ Hall]. apply IH in Hall. discriminate.
    + destruct (N.ltb_spec x 255) as [Hlt | Hge].
      * split; [discriminate | intros [Hx255 _]; lia].
      * split; [| reflexivity]. intros _. split; [lia | apply IH; reflexivity].
Qed.

(** X1.  The range [bytesPrefix] returns for a prefix holds exactly the
    keys that start with the prefix: a key lies at or after the lower bound
    (the prefix itself) and before the upper bound iff the prefix is a prefix
    of it.  The upper bound is nil, so that the range is open ended, exactly
    when every byte of the prefix is 0xff (the empty prefix included). *)
Theorem bytesPrefix_range prefix key :
  Forall is_byte (contents prefix) -> Forall is_byte key ->
  LowerBound (bytesPrefix prefix) = prefix
  /\ (within (bytesPrefix prefix) key <-> contents prefix `prefix_of` key)
  /\ (UpperBound (bytesPrefix prefix) = None
      <-> Forall (fun b => b = 255%N) (contents prefix)).
Proof.
  intros Hprefix Hkey. split; [reflexivity |]. split.
  - exact (bytesPrefix_limit_range (contents prefix) Hprefix key Hkey).
  - exact (bytesPrefix_limit_nil (contents prefix) Hprefix).
Qed.

Lemma bytesPrefix_range_witness :
  LowerBound (bytesPrefix (Some [1%N; 255%N])) = Some [1%N; 255%N]
  /\ (within (bytesPrefix (Some [1%N; 255%N])) [1%N; 255%N; 7%N]
      <-> [1%N; 255%N] `prefix_of` [1%N; 255%N; 7%N])
  /\ (UpperBound (bytesPrefix (Some [1%N; 255%N])) = None
      <-> Forall (fun b => b = 255%N) [1%N; 255%N]).
Proof.
  apply (bytesPrefix_range (Some [1%N; 255%N]) [1%N; 255%N; 7%N]);
    repeat constructor.
Defined.

(** X2.  On an open database the iterator of
    [NewIteratorWithStartAndPrefix] is bounded to exactly the keys that
    start with the prefix and lie at or after the start key: the lower bound
    of the range of the prefix is replaced by the start key only when the
    start key is the greater of the two. *)
Theorem NewIteratorWithStartAndPrefix_range db start prefix :
  closed db = false ->
  Forall is_byte (contents prefix) ->
  exists opts,
    NewIteratorWithStartAndPrefix db start prefix = open_iter opts
    /\ forall key,
         Forall is_byte key ->
         within opts key
         <-> contents prefix `prefix_of` key
             /\ (bytes_Compare (contents start) key <= 0)%Z.
Proof.
  intros Hopen Hprefix. unfold NewIteratorWithStartAndPrefix. rewrite Hopen.
  eexists. split; [reflexivity |]. intros key Hkey.
  pose proof (bytesPrefix_limit_range (contents prefix) Hprefix key Hkey) as Hrange.
  destruct (Z.eqb_spec (bytes_Compare (contents start) (contents prefix)) 1) as [Hgt | Hle].
  - unfold within. cbn [LowerBound UpperBound bytesPrefix]. split.
    + intros [Hstart Hup]. split; [| exact Hstart].
      apply Hrange. split; [| exact Hup].
      apply (bytes_Compare_le_trans _ (contents start));
        [apply bytes_Compare_flip; exact Hgt | exact Hstart].
    + intros [Hpre Hstart]. split; [exact Hstart |]. apply Hrange. exact Hpre.
  - unfold within. cbn [LowerBound UpperBound bytesPrefix]. split.
    + intros Hin. split; [apply Hrange; exact Hin |].
      apply (bytes_Compare_le_trans _ (contents prefix));
        [apply bytes_Compare_total; exact Hle | apply Hin].
    + intros [Hpre _]. apply Hrange. exact Hpre.
Qed.

Lemma NewIteratorWithStartAndPrefix_range_witness :
  exists opts,
    NewIteratorWithStartAndPrefix {| pebbleDB := [[1%N]; [2%N]]; closed := false |}
                                  (Some [1%N; 5%N]) (Some [1%N])
    = open_iter opts
    /\ forall key,
         Forall is_byte key ->
         within opts key
         <-> [1%N] `prefix_of` key /\ (bytes_Compare [1%N; 5%N] key <= 0)%Z.
Proof.
  apply (NewIteratorWithStartAndPrefix_range
           {| pebbleDB := [[1%N]; [2%N]]; closed := false |}
           (Some [1%N; 5%N]) (Some [1%N]));
    [reflexivity | repeat constructor].
Defined.

(** ** A closed database *)

(** X3.  Whatever the engine answers, [Close] leaves the database closed
    and holding the keys it held; closing a closed database fails with
    [database.ErrClosed] and changes nothing.  On the database [Close]
    returns, a second [Close], [HealthCheck], [Has], [Get], [Put],
    [Delete] and [Compact] fail with [database.ErrClosed] without handing
    any request to the engine, and each of the four constructors of
    iterators returns a closed iterator that holds [database.ErrClosed]. *)
Theorem Close_closes engine_Get closer_Close engine_Set engine_Delete engine_Close
        engine_Compact leaked_iterator db :
  let db' := snd (fst (Close engine_Close leaked_iterator db)) in
  closed db' = true
  /\ pebbleDB db' = pebbleDB db
  /\ (closed db = true ->
      Close engine_Close leaked_iterator db = (Some ErrClosed, db, []))
  /\ Close engine_Close leaked_iterator db' = (Some ErrClosed, db', [])
  /\ HealthCheck db' = Some ErrClosed
  /\ (forall key, Has engine_Get closer_Close db' key = (false, Some ErrClosed, []))
  /\ (forall key, Get engine_Get closer_Close db' key = (None, Some ErrClosed, []))
  /\ (forall key value, Put engine_Set db' key value = (Some ErrClosed, []))
  /\ (forall key, Delete engine_Delete db' key = (Some ErrClosed, []))
  /\ (forall start limit, Compact engine_Compact db' start limit = (Some ErrClosed, []))
  /\ NewIterator db' = closed_iter
  /\ (forall start, NewIteratorWithStart db' start = closed_iter)
  /\ (forall prefix, NewIteratorWithPrefix db' prefix = closed_iter)
  /\ (forall start prefix, NewIteratorWithStartAndPrefix db' start prefix = closed_iter).
Proof.
  intros db'.
  assert (Hclosed : closed db' = true).
  { subst db'. unfold Close. destruct (closed db) eqn:Hc; [exact Hc |].
    destruct (updateError engine_Close) as [err|]; [destruct (leaked_iterator err) |];
      reflexivity. }
  assert (Hkeys : pebbleDB db' = pebbleDB db).
  { subst db'. unfold Close. destruct (closed db); [reflexivity |].
    destruct (updateError engine_Close) as [err|]; [destruct (leaked_iterator err) |];
      reflexivity. }
  split; [exact Hclosed |]. split; [exact Hkeys |].
  split; [intros Hc; unfold Close; rewrite Hc; reflexivity |].
  unfold Close, HealthCheck, Has, Get, Put, Delete, Compact, NewIterator,
    NewIteratorWithStart, NewIteratorWithPrefix, NewIteratorWithStartAndPrefix.
  fold db'. rewrite Hclosed. repeat split.
Qed.

End pebble_facts.

(* ===================================================================== *)
(** * Properties of package merkledb *)
(* ===================================================================== *)

Module merkledb_facts.
Import merkledb.

Section Facts.

Set Default Proof Using "Type".

Variable tokenSize : Z.
Variable parentTrie : TrieView.
Variable calculateID : Key -> nodeChildren -> Maybe (list N) -> ID.
Variable sha256 : list N -> list N.
Variable NewIteratorWithStart : trieView -> list N -> list KeyValue * option error.

Local Abbreviation getValue := (getValue parentTrie).
Local Abbreviation getChildren := (getChildren parentTrie).
Local Abbreviation getChildrenInternal := (getChildrenInternal parentTrie).
Local Abbreviation recordValueChange := (recordValueChange parentTrie).
Local Abbreviation insert := (insert tokenSize parentTrie).
Local Abbreviation remove := (remove tokenSize parentTrie).
Local Abbreviation compressNodePath := (compressNodePath tokenSize parentTrie).
Local Abbreviation calculateNodeIDs := (calculateNodeIDs tokenSize parentTrie calculateID).
Local Abbreviation GetMerkleRoot := (GetMerkleRoot tokenSize parentTrie calculateID).
Local Abbreviation getProof := (getProof tokenSize parentTrie sha256).
Local Abbreviation GetProof := (GetProof tokenSize parentTrie calculateID sha256).
Local Abbreviation GetRangeProof :=
  (GetRangeProof tokenSize parentTrie calculateID sha256 NewIteratorWithStart).

(** ** getValue *)

Lemma getValue_invalid key t :
  invalidated t = true -> getValue key t = (Err ErrInvalid, t).
Proof. intros H. unfold merkledb.getValue, isInvalid. now rewrite H. Qed.

Lemma getValue_pending key t c :
  invalidated t = false -> values t !! key = Some c ->
  getValue key t = (Ok (after c), t).
Proof.
  intros Hv Hc. unfold merkledb.getValue, isInvalid. now rewrite Hv, Hc.
Qed.

(** An error of the parent trie is handed on as it is, whatever happened
    to the view in the meantime. *)
Lemma getValue_parent_error key t err b :
  invalidated t = false -> values t !! key = None ->
  tv_getValue parentTrie key = (Err err, b) ->
  fst (getValue key t) = Err err.
Proof.
  intros Hv Hc Hp. unfold merkledb.getValue, isInvalid, callParent.
  now rewrite Hv, Hc, Hp.
Qed.

(** C4 (as amended).  [getValue] fails with [ErrInvalid] on a view that
    is invalidated at entry; otherwise it returns the recorded after-value
    of a key with a pending change; otherwise it asks the parent trie: an
    error of the parent call is returned as it is, whether or not the view
    was invalidated while the call was in flight, and when the parent
    returns a value [getValue] fails with [ErrInvalid] if the view was
    invalidated while the call was in flight and returns the parent's
    value if not. *)
Theorem getValue_spec key t :
  (invalidated t = true -> getValue key t = (Err ErrInvalid, t))
  /\ (invalidated t = false ->
      forall c, values t !! key = Some c -> getValue key t = (Ok (after c), t))
  /\ (invalidated t = false -> values t !! key = None ->
      forall err b, tv_getValue parentTrie key = (Err err, b) ->
                    getValue key t
                    = (Err err, if b then invalidate_self t else t))
  /\ (invalidated t = false -> values t !! key = None ->
      forall v, tv_getValue parentTrie key = (Ok v, false) ->
                getValue key t = (Ok v, t))
  /\ (invalidated t = false -> values t !! key = None ->
      forall v, tv_getValue parentTrie key = (Ok v, true) ->
                getValue key t = (Err ErrInvalid, invalidate_self t)).
Proof.
  split; [apply getValue_invalid |].
  split; [intros Hv c Hc; now apply getValue_pending |].
  split.
  { intros Hv Hc err b Hp. unfold merkledb.getValue, isInvalid, callParent.
    rewrite Hv, Hc, Hp. reflexivity. }
  split; intros Hv Hc v Hp;
    unfold merkledb.getValue, isInvalid, callParent;
    rewrite Hv, Hc, Hp; simpl; [now rewrite Hv | reflexivity].
Qed.

(** ** Mutations after the node IDs were calculated *)

(** C8.  Once [nodesAlreadyCalculated] is set, [recordValueChange],
    [insert], [remove] and [compressNodePath] fail with
    [ErrNodesAlreadyCalculated] and leave the view as it is. *)
Theorem mutation_after_calculation_fails t :
  nodesAlreadyCalculated t = true ->
  (forall key value,
      recordValueChange key value t = (Err ErrNodesAlreadyCalculated, t))
  /\ (forall key, insert key t = (Err ErrNodesAlreadyCalculated, t))
  /\ (forall key, remove key t = (Err ErrNodesAlreadyCalculated, t))
  /\ (forall parent parentKey node nodeKey,
         compressNodePath parent parentKey node nodeKey t
         = (Err ErrNodesAlreadyCalculated, t)).
Proof.
  intros H. repeat split; intros;
    unfold merkledb.recordValueChange, merkledb.insert, merkledb.remove,
      merkledb.compressNodePath; now rewrite H.
Qed.

(** [calculateNodeIDs] sets the flag on every path that passes the first
    validity check. *)
Lemma calculateNodeIDs_sets_flag order t :
  calculateNodesOnce t = false -> invalidated t = false ->
  nodesAlreadyCalculated (snd (calculateNodeIDs order t)) = true.
Proof.
  intros Honce Hv. unfold merkledb.calculateNodeIDs, isInvalid.
  rewrite Honce. simpl. rewrite Hv.
  now destruct (calculateNodeIDs_body _ _ _ _ _).
Qed.

(** ** GetRangeProof: argument errors *)

(** C7 (as amended).  [GetRangeProof] fails with [ErrStartAfterEnd] when
    both bounds are given and [start > end_], whatever [maxLength] is; when
    that check passes and [maxLength <= 0] it fails with the error that
    wraps [ErrInvalidMaxLength].  In both cases the view is untouched. *)
Theorem GetRangeProof_argument_errors order start end_ maxLength t :
  (forall s e, start = Some s -> end_ = Some e -> bytes_Compare s e = 1%Z ->
               GetRangeProof order start end_ maxLength t = (Err ErrStartAfterEnd, t))
  /\ (startAfterEnd start end_ = false -> (maxLength <= 0)%Z ->
      GetRangeProof order start end_ maxLength t
      = (Err (ErrInvalidMaxLength_but_was maxLength), t)
      /\ errors_Is (ErrInvalidMaxLength_but_was maxLength) ErrInvalidMaxLength = true).
Proof.
  split.
  - intros s e -> -> Hcmp. unfold merkledb.GetRangeProof, startAfterEnd.
    now rewrite Hcmp.
  - intros Hse Hmax. unfold merkledb.GetRangeProof. rewrite Hse.
    destruct (Z.leb_spec maxLength 0); [now split | lia].
Qed.

(** ** remove of an absent key *)

Lemma getChildren_no_node key t :
  invalidated t = false -> has_no_node parentTrie key t ->
  (exists err, getChildren key t = (Err err, t)
               /\ errors_Is err database_ErrNotFound = true)
  \/ getChildren key t = (Ok (Detached None), t).
Proof.
  intros Hv [Hdel | [Hcc [(err & Hp & His) | Hp]]];
    unfold merkledb.getChildren, merkledb.getChildrenInternal, isInvalid,
      bind, callParent, ret;
    rewrite Hv.
  - rewrite Hdel. left. now exists database_ErrNotFound.
  - rewrite Hcc, Hp. simpl. left. now exists err.
  - rewrite Hcc, Hp. simpl. rewrite Hv. now right.
Qed.

(** C6 (as amended).  On a valid view whose node IDs were not calculated
    yet, [remove] of a key that has no node returns nil and leaves the
    view, hence its recorded node changes, as it is; doing it again
    changes nothing either. *)
Theorem remove_absent_key key t :
  nodesAlreadyCalculated t = false ->
  invalidated t = false ->
  has_no_node parentTrie key t ->
  remove key t = (Ok tt, t)
  /\ (run remove key in remove key) t = (Ok tt, t).
Proof.
  intros Hcalc Hv Hno.
  assert (Hrm : remove key t = (Ok tt, t)).
  { unfold merkledb.remove. rewrite Hcalc.
    destruct (getChildren_no_node key t Hv Hno) as [(err & -> & ->) | ->];
      reflexivity. }
  split; [exact Hrm |]. unfold bind. now rewrite Hrm.
Qed.

(** ** The bounds on loops and recursion are never met *)

Lemma tokens_of_mul n : (0 < tokenSize)%Z -> tokens_of tokenSize (tokenSize * Z.of_nat n) = n.
Proof.
  intros Hts. unfold tokens_of.
  rewrite Z.mul_comm, Z.div_mul by lia. apply Nat2Z.id.
Qed.

Lemma Key_length_ltb (k1 k2 : Key) :
  (0 < tokenSize)%Z ->
  (Key_length tokenSize k1 <? Key_length tokenSize k2)%Z = (length k1 <? length k2)%nat.
Proof.
  intros Hts. unfold Key_length.
  destruct (Nat.ltb_spec (length k1) (length k2));
    destruct (Z.ltb_spec (tokenSize * Z.of_nat (length k1))
                         (tokenSize * Z.of_nat (length k2))); nia || reflexivity.
Qed.

(** [getLengthOfCommonPrefix] leaves its loop before the rounds are used
    up: more rounds give the same result. *)
Lemma commonPrefixLoop_rounds (first second : Key) secondOffset :
  (0 < tokenSize)%Z ->
  forall rounds extra commonIndex,
    (Key_length tokenSize first <= commonIndex + tokenSize * Z.of_nat rounds)%Z ->
    commonPrefixLoop tokenSize (rounds + extra) first second secondOffset commonIndex
    = commonPrefixLoop tokenSize rounds first second secondOffset commonIndex.
Proof.
  intros Hts. induction rounds as [| rounds IH]; intros extra commonIndex Hlen.
  - cbn [Nat.add commonPrefixLoop]. destruct extra; [reflexivity |].
    cbn [commonPrefixLoop].
    destruct (Z.ltb_spec commonIndex (Key_length tokenSize first)); [lia | reflexivity].
  - cbn [Nat.add commonPrefixLoop]. destruct (_ && _); [| reflexivity].
    apply IH. lia.
Qed.

(** [visitPathToKey] leaves its loop before the rounds are used up. *)
Lemma visitPathLoop_rounds {A} (visitNode : Key -> mapRef -> A -> M A) key :
  (0 < tokenSize)%Z ->
  forall rounds extra currentKey currentChildren acc t,
    length key <= length currentKey + rounds ->
    visitPathLoop tokenSize parentTrie (rounds + extra) key visitNode
                  currentKey currentChildren acc t
    = visitPathLoop tokenSize parentTrie rounds key visitNode
                    currentKey currentChildren acc t.
Proof.
  intros Hts. induction rounds as [| rounds IH];
    intros extra currentKey r acc t Hlen.
  - cbn [Nat.add]. destruct extra; [reflexivity |]. cbn [visitPathLoop].
    rewrite (Key_length_ltb _ _ Hts).
    destruct (Nat.ltb_spec (length currentKey) (length key)); [lia | reflexivity].
  - cbn [Nat.add visitPathLoop]. rewrite (Key_length_ltb _ _ Hts).
    destruct (Nat.ltb_spec (length currentKey) (length key)) as [Hlt | Hge];
      [| reflexivity].
    destruct (children_lookup _ _) as [entry |]; [| reflexivity].
    destruct (negb _); [reflexivity |].
    unfold bind.
    destruct (merkledb.getChildrenInternal _ _ t) as [[r' | e] t1]; [| reflexivity].
    destruct (visitNode _ r' acc t1) as [[acc' | e] t2]; [| reflexivity].
    apply IH. unfold Key_Take, Key_length.
    replace (tokenSize * Z.of_nat (length currentKey) + tokenSize
             + tokenSize * Z.of_nat (length (compressedKey entry)))%Z
      with (tokenSize * Z.of_nat (length currentKey + 1 + length (compressedKey entry)))%Z
      by lia.
    rewrite (tokens_of_mul _ Hts), length_take. lia.
Qed.

Lemma getLengthOfCommonPrefix_rounds (first second : Key) secondOffset extra :
  (0 < tokenSize)%Z ->
  commonPrefixLoop tokenSize (length first + extra) first second secondOffset 0
  = getLengthOfCommonPrefix tokenSize first second secondOffset.
Proof.
  intros Hts. apply commonPrefixLoop_rounds; [exact Hts |].
  unfold Key_length. lia.
Qed.

Lemma visitPathToKey_rounds {A} (visitNode : Key -> mapRef -> A -> M A) key
      extra currentChildren acc t :
  (0 < tokenSize)%Z ->
  visitPathLoop tokenSize parentTrie (length key + extra) key visitNode
                emptyKey currentChildren acc t
  = visitPathLoop tokenSize parentTrie (length key) key visitNode
                  emptyKey currentChildren acc t.
Proof. intros Hts. apply visitPathLoop_rounds; [exact Hts | simpl; lia]. Qed.

Lemma same_keys_refl t : same_keys t t.
Proof. split; [intros key; reflexivity | reflexivity]. Qed.

Lemma same_keys_trans t1 t2 t3 : same_keys t1 t2 -> same_keys t2 t3 -> same_keys t1 t3.
Proof.
  intros [K1 V1] [K2 V2]. split; [| congruence].
  intros key. rewrite K2. apply K1.
Qed.

Lemma same_keys_callParent {A} (call : result A * bool) t :
  same_keys t (snd (callParent call t)).
Proof.
  unfold callParent. cbn [snd].
  destruct (snd call); (split; [intros key; reflexivity | reflexivity]).
Qed.

Lemma same_keys_getChildren key t : same_keys t (snd (getChildren key t)).
Proof.
  unfold merkledb.getChildren. destruct (isInvalid t); [apply same_keys_refl |].
  assert (H : same_keys t (snd (getChildrenInternal key t))).
  { unfold merkledb.getChildrenInternal.
    destruct (childrenChanges t !! key) as [[m |] |]; try apply same_keys_refl.
    unfold bind.
    pose proof (same_keys_callParent (tv_getChildren parentTrie key) t) as H.
    now destruct (callParent _ t) as [[n | e] t']. }
  destruct (merkledb.getChildrenInternal _ _ t) as [[n | e] t']; cbn [snd] in *;
    [now destruct (isInvalid t') | exact H].
Qed.

Lemma same_keys_write_child_id key r index id t :
  same_keys t (snd (write_child_id key r index id t)).
Proof.
  destruct r as [k | m]; [| apply same_keys_refl].
  split; [| reflexivity]. intros key'. cbn.
  rewrite lookup_alter. destruct (decide (key = key')) as [-> | Hne]; [| reflexivity].
  apply fmap_is_Some.
Qed.

Lemma same_keys_foldM {A B} (f : B -> A -> M B) (l : list A) :
  (forall b a t, same_keys t (snd (f b a t))) ->
  forall b t, same_keys t (snd (foldM f l b t)).
Proof.
  intros Hf. induction l as [| a l IH]; intros b t; cbn [foldM].
  - apply same_keys_refl.
  - unfold bind. specialize (Hf b a t).
    destruct (f b a t) as [[b' | e] t1]; cbn [snd] in *; [| exact Hf].
    eapply same_keys_trans; [exact Hf | apply IH].
Qed.

Lemma same_keys_updateChild helper key r children ic t :
  (forall k v t', same_keys t' (snd (helper k v t'))) ->
  same_keys t (snd (updateChild helper key r children ic t)).
Proof.
  intros Hh. destruct ic as [childIndex child]. unfold updateChild.
  destruct (_ || _); [apply same_keys_refl |].
  unfold bind.
  match goal with
  | |- context [helper ?k ?v t] =>
      specialize (Hh k v t); destruct (helper k v t) as [[id | e] t2]
  end; cbn [snd] in *; [| exact Hh].
  eapply same_keys_trans; [exact Hh |].
  pose proof (same_keys_write_child_id key r childIndex id t2) as H3.
  now destruct (write_child_id key r childIndex id t2) as [[[] | e] t3].
Qed.

Lemma same_keys_calculateNodeIDsHelper depth :
  forall key value t,
    same_keys t (snd (calculateNodeIDsHelper parentTrie calculateID depth key value t)).
Proof.
  induction depth as [| depth IH]; intros key value t; cbn [calculateNodeIDsHelper].
  - apply same_keys_refl.
  - unfold bind at 1. pose proof (same_keys_getChildren key t) as H1.
    destruct (merkledb.getChildren _ _ t) as [[r | e] t1]; cbn [snd] in *; [| exact H1].
    eapply same_keys_trans; [exact H1 |]. unfold bind at 1.
    match goal with
    | |- context [foldM ?f ?l ?b t1] =>
        assert (H2 : same_keys t1 (snd (foldM f l b t1)));
        [| destruct (foldM f l b t1) as [[children | e] t2]; exact H2]
    end.
    apply same_keys_foldM. intros children ic t'. now apply same_keys_updateChild.
Qed.

Lemma bind_ext {A B} (m : M A) (k1 k2 : A -> M B) t :
  (forall a t', m t = (Ok a, t') -> k1 a t' = k2 a t') ->
  bind m k1 t = bind m k2 t.
Proof.
  intros H. unfold bind. destruct (m t) as [[a | e] t']; [now apply H | reflexivity].
Qed.

Lemma bind_ext_l {A B} (m1 m2 : M A) (k : A -> M B) t :
  m1 t = m2 t -> bind m1 k t = bind m2 k t.
Proof. intros H. unfold bind. now rewrite H. Qed.

Lemma foldM_ext {A B} (I : trieView -> Prop) (f1 f2 : B -> A -> M B) (l : list A) :
  (forall b a t, I t -> f1 b a t = f2 b a t /\ I (snd (f2 b a t))) ->
  forall b t, I t -> foldM f1 l b t = foldM f2 l b t.
Proof.
  intros Hf. induction l as [| a l IH]; intros b t HI; cbn [foldM]; [reflexivity |].
  unfold bind. destruct (Hf b a t HI) as [-> HI'].
  destruct (f2 b a t) as [[b' | e] t']; [now apply IH | reflexivity].
Qed.

Lemma length_Key_Extend (key : Key) index (compressed : Key) :
  length (Key_Extend key [ToToken index; compressed])
  = length key + 1 + length compressed.
Proof.
  unfold Key_Extend, ToToken. cbn [concat].
  rewrite ?length_app, ?app_nil_r. cbn [length]. rewrite ?length_app. cbn [length]. lia.
Qed.

(** [calculateNodeIDsHelper] does not use up its depth when every recorded
    key is shorter than the key it is called on plus the depth: more depth
    gives the same result. *)
Lemma calculateNodeIDsHelper_depth :
  forall depth extra key value t,
    0 < depth ->
    (forall k, recorded t k -> length k < length key + depth) ->
    calculateNodeIDsHelper parentTrie calculateID (depth + extra) key value t
    = calculateNodeIDsHelper parentTrie calculateID depth key value t.
Proof.
  induction depth as [| depth IH]; intros extra key value t Hpos Hbound; [lia |].
  cbn [Nat.add calculateNodeIDsHelper].
  apply bind_ext. intros r t1 Hget.
  assert (Hkeys1 : same_keys t t1).
  { pose proof (same_keys_getChildren key t) as H. now rewrite Hget in H. }
  unfold bind at 1 2.
  rewrite (foldM_ext (same_keys t1)
             (updateChild
                (calculateNodeIDsHelper parentTrie calculateID (depth + extra)) key r)
             (updateChild
                (calculateNodeIDsHelper parentTrie calculateID depth) key r));
    [reflexivity | | apply same_keys_refl].
  intros children [childIndex child] t' Hkeys'. split.
  2: { eapply same_keys_trans; [exact Hkeys' |].
       apply same_keys_updateChild. intros k v t0.
       apply same_keys_calculateNodeIDsHelper. }
  unfold updateChild.
  set (childPath := Key_Extend key [ToToken childIndex; compressedKey child]).
  destruct (bool_decide (is_Some (childrenChanges t' !! childPath))) eqn:Hcc;
    destruct (bool_decide (is_Some (values t' !! childPath))) eqn:Hval;
    cbn [negb andb orb]; try reflexivity;
    (destruct (negb (bool_decide (child_id child = ids_Empty))); [reflexivity |]);
    (apply bind_ext_l, IH;
     [| intros k Hk];
     assert (Hrec : forall k, recorded t' k -> recorded t k)
       by (intros k0 [Hc | Hv]; [left; apply Hkeys1, Hkeys', Hc
                                | right; destruct Hkeys1 as [_ <-], Hkeys' as [_ <-];
                                  exact Hv]);
     assert (Hchild : recorded t' childPath)
       by (first [left; now apply bool_decide_eq_true in Hcc
                 | right; now apply bool_decide_eq_true in Hval]);
     pose proof (Hbound _ (Hrec _ Hchild)) as Hlen;
     unfold childPath in *; rewrite length_Key_Extend in *;
     [lia | pose proof (Hbound _ (Hrec _ Hk)); lia]).
Qed.

Lemma longest_ge (keys : list Key) k : k ∈ keys -> length k <= longest keys.
Proof.
  induction keys as [| k' keys IH]; intros Hin; [now apply elem_of_nil in Hin |].
  cbn [longest fold_right]. apply elem_of_cons in Hin as [-> | Hin]; [lia |].
  specialize (IH Hin). unfold longest in IH. lia.
Qed.

Lemma is_Some_key_listed {V} (m : gmap Key V) k :
  is_Some (m !! k) -> k ∈ map fst (map_to_list m).
Proof.
  intros [v Hv]. apply list_elem_of_In, in_map_iff. exists (k, v).
  split; [reflexivity |]. now apply list_elem_of_In, elem_of_map_to_list.
Qed.

(** The depth [calculateNodeIDs] hands to the helper is never used up. *)
Lemma helperDepth_enough value t extra :
  calculateNodeIDsHelper parentTrie calculateID (helperDepth t + extra) emptyKey value t
  = calculateNodeIDsHelper parentTrie calculateID (helperDepth t) emptyKey value t.
Proof.
  apply calculateNodeIDsHelper_depth; [unfold helperDepth; lia |].
  intros k [Hc | Hv]; unfold helperDepth; cbn [emptyKey length Nat.add].
  - pose proof (longest_ge _ _ (is_Some_key_listed _ _ Hc)). lia.
  - pose proof (longest_ge _ _ (is_Some_key_listed _ _ Hv)). lia.
Qed.

(** ** What editing the trie leaves alone *)

Lemma steps_refl t : steps t t.
Proof. unfold steps. repeat split; trivial. Qed.

Lemma steps_trans t1 t2 t3 : steps t1 t2 -> steps t2 t3 -> steps t1 t3.
Proof.
  intros (C1 & N1 & O1 & V1 & R1 & I1) (C2 & N2 & O2 & V2 & R2 & I2).
  repeat split; try congruence. intros H. apply I2, I1, H.
Qed.

Lemma steps_childrenChanges cc t : steps t (set_childrenChanges cc t).
Proof. unfold steps. simpl. repeat split; trivial. Qed.

Lemma steps_invalidate_self t : steps t (invalidate_self t).
Proof. unfold steps. simpl. repeat split; trivial. Qed.

Lemma bind_ok {A B} (m : M A) (k : A -> M B) t a t' :
  m t = (Ok a, t') -> bind m k t = k a t'.
Proof. intros H. unfold bind. now rewrite H. Qed.

Lemma bind_err {A B} (m : M A) (k : A -> M B) t e t' :
  m t = (Err e, t') -> bind m k t = (Err e, t').
Proof. intros H. unfold bind. now rewrite H. Qed.

Lemma frames_ret {A} (a : A) : frames (ret a).
Proof. intros t. apply steps_refl. Qed.

Lemma frames_bind {A B} (m : M A) (k : A -> M B) :
  frames m -> (forall a, frames (k a)) -> frames (bind m k).
Proof.
  intros Hm Hk t. unfold bind. specialize (Hm t).
  destruct (m t) as [[a | e] t']; simpl in *.
  - eapply steps_trans; [exact Hm | apply Hk].
  - exact Hm.
Qed.

Lemma frames_foldM {A B} (f : B -> A -> M B) (l : list A) :
  (forall b a, frames (f b a)) -> forall b, frames (foldM f l b).
Proof.
  intros Hf. induction l as [| a l IH]; intros b; simpl.
  - apply frames_ret.
  - apply frames_bind; [apply Hf | exact IH].
Qed.

Lemma frames_when b (m : M unit) : frames m -> frames (when b m).
Proof. destruct b; simpl; [trivial | intros _; apply frames_ret]. Qed.

Lemma frames_callParent {A} (call : result A * bool) : frames (callParent call).
Proof.
  intros t. unfold callParent. simpl.
  destruct (snd call); [apply steps_invalidate_self | apply steps_refl].
Qed.

Lemma frames_store key m : frames (store key m).
Proof. intros t. apply steps_childrenChanges. Qed.

Lemma frames_getValue key : frames (getValue key).
Proof.
  intros t. unfold merkledb.getValue.
  destruct (isInvalid t); [apply steps_refl |].
  destruct (values t !! key); [apply steps_refl |].
  pose proof (frames_callParent (tv_getValue parentTrie key) t) as H.
  destruct (callParent _ t) as [[v | e] t']; simpl in *; [| exact H].
  now destruct (isInvalid t').
Qed.

Lemma frames_getChildrenInternal key : frames (getChildrenInternal key).
Proof.
  intros t. unfold merkledb.getChildrenInternal.
  destruct (childrenChanges t !! key) as [[m |] |]; try apply steps_refl.
  apply frames_bind; [apply frames_callParent | intros; apply frames_ret].
Qed.

Lemma frames_getChildren key : frames (getChildren key).
Proof.
  intros t. unfold merkledb.getChildren.
  destruct (isInvalid t); [apply steps_refl |].
  pose proof (frames_getChildrenInternal key t) as H.
  destruct (merkledb.getChildrenInternal _ _ t) as [[n | e] t']; simpl in *; [| exact H].
  now destruct (isInvalid t').
Qed.

Lemma frames_recordNewNode key : frames (recordNewNode key).
Proof.
  apply frames_bind; [apply frames_store | intros; apply frames_ret].
Qed.

Lemma frames_recordChildRemoved key childKey :
  frames (recordChildRemoved tokenSize key childKey).
Proof.
  intros t. unfold recordChildRemoved.
  destruct (childrenChanges t !! key); [apply frames_store | apply steps_refl].
Qed.

Lemma frames_recordNodeDeleted key : frames (recordNodeDeleted key).
Proof. apply frames_store. Qed.

Lemma frames_recordChildEntry key childIndex entry :
  frames (recordChildEntry key childIndex entry).
Proof.
  intros t. unfold recordChildEntry.
  destruct (childrenChanges t !! key) as [[m |] |]; apply frames_store.
Qed.

Lemma frames_recordPendingChildChange key childKey :
  frames (recordPendingChildChange tokenSize key childKey).
Proof. apply frames_recordChildEntry. Qed.

Lemma frames_recordChildChange key childKey id :
  frames (recordChildChange tokenSize key childKey id).
Proof. apply frames_recordChildEntry. Qed.

Lemma frames_visitPathLoop {A} (visitNode : Key -> mapRef -> A -> M A) key :
  (forall k r a, frames (visitNode k r a)) ->
  forall rounds currentKey currentChildren acc,
    frames (visitPathLoop tokenSize parentTrie rounds key visitNode
                          currentKey currentChildren acc).
Proof.
  intros Hv. induction rounds as [| rounds IH]; intros currentKey r acc t;
    cbn [visitPathLoop];
    destruct (_ <? _)%Z; try apply steps_refl.
  destruct (children_lookup _ _) as [entry |]; [| apply steps_refl].
  destruct (negb _); [apply steps_refl |].
  apply frames_bind; [apply frames_getChildrenInternal |].
  intros r'. apply frames_bind; [apply Hv |]. intros acc'. apply IH.
Qed.

Lemma frames_visitPathToKey {A} (visitNode : Key -> mapRef -> A -> M A) key acc :
  (forall k r a, frames (visitNode k r a)) ->
  frames (visitPathToKey tokenSize parentTrie key visitNode acc).
Proof.
  intros Hv t. unfold visitPathToKey.
  apply frames_bind; [apply Hv |]. intros acc'.
  now apply frames_visitPathLoop.
Qed.

Lemma frames_insert key : frames (insert key).
Proof.
  intros t. unfold merkledb.insert.
  destruct (nodesAlreadyCalculated t); [apply steps_refl |].
  apply frames_bind.
  - apply frames_visitPathToKey. intros k r v. unfold insert_visit.
    apply frames_bind; [| intros; apply frames_ret].
    destruct (iv_previousKey v);
      [apply frames_recordPendingChildChange | apply frames_ret].
  - intros v. destruct (bool_decide _); [apply frames_ret |].
    intros t'. destruct (children_lookup _ _) as [entry |].
    + destruct (_ <=? _)%Z; [apply steps_refl |].
      apply frames_bind; [apply frames_recordChildChange |]. intros _.
      apply frames_bind;
        [apply frames_when, frames_recordChildChange |]. intros _.
      apply frames_bind; [apply frames_recordChildEntry |]. intros _.
      apply frames_recordNewNode.
    + apply frames_bind; [apply frames_recordChildChange |]. intros _.
      apply frames_recordNewNode.
Qed.

Lemma frames_compressNodePath parent parentKey node nodeKey :
  frames (compressNodePath parent parentKey node nodeKey).
Proof.
  intros t. unfold merkledb.compressNodePath.
  destruct (nodesAlreadyCalculated t); [apply steps_refl |].
  destruct (_ || _); [apply steps_refl |].
  pose proof (frames_getValue nodeKey t) as H.
  destruct (merkledb.getValue _ _ t) as [[[v |] | e] t']; simpl in *; try exact H.
  eapply steps_trans; [exact H |].
  apply frames_bind; [apply frames_recordNodeDeleted |]. intros _.
  destruct (children_entries _) as [| [index entry] l];
    [apply frames_ret | apply frames_recordChildChange].
Qed.

Lemma frames_remove key : frames (remove key).
Proof.
  intros t. unfold merkledb.remove.
  destruct (nodesAlreadyCalculated t); [apply steps_refl |].
  pose proof (frames_getChildren key t) as H.
  destruct (merkledb.getChildren _ _ t) as [[keyNode | e] t']; simpl in *.
  2: { now destruct (errors_Is _ _). }
  destruct (is_nil _ _); [exact H |].
  eapply steps_trans; [exact H |].
  apply frames_bind.
  - apply frames_visitPathToKey. intros k r v t1. unfold remove_visit.
    apply frames_bind; [| intros; apply frames_ret].
    apply frames_when, frames_recordPendingChildChange.
  - intros v t1. destruct (negb _); [apply frames_compressNodePath |].
    apply frames_bind; [apply frames_recordNodeDeleted |]. intros _ t2.
    destruct (negb _); [| apply steps_refl].
    apply frames_bind; [apply frames_recordChildRemoved |]. intros _.
    apply frames_compressNodePath.
Qed.

Lemma frames_write_child_id key r index id : frames (write_child_id key r index id).
Proof.
  destruct r; simpl; [| apply frames_ret].
  intros t. apply steps_childrenChanges.
Qed.

Lemma frames_updateChild helper key r children ic :
  (forall k v, frames (helper k v)) ->
  frames (updateChild helper key r children ic).
Proof.
  intros Hh. destruct ic as [childIndex child]. intros t. unfold updateChild.
  destruct (_ || _); [apply steps_refl |].
  apply frames_bind; [apply Hh |]. intros id.
  apply frames_bind; [apply frames_write_child_id | intros; apply frames_ret].
Qed.

Lemma frames_calculateNodeIDsHelper depth :
  forall key value,
    frames (calculateNodeIDsHelper parentTrie calculateID depth key value).
Proof.
  induction depth as [| depth IH]; intros key value; cbn [calculateNodeIDsHelper].
  - apply frames_ret.
  - apply frames_bind; [apply frames_getChildren |]. intros r t.
    apply frames_bind; [| intros; apply frames_ret].
    apply frames_foldM. intros children ic. now apply frames_updateChild.
Qed.

(** The loop of [calculateNodeIDs] over the recorded value changes. *)
Lemma frames_apply_changes order :
  frames (foldM (fun (_ : unit) (key : Key) =>
                   fun t =>
                     match values t !! key with
                     | Some change =>
                         match after change with
                         | None => remove key t
                         | Some _ => (run insert key in ret tt) t
                         end
                     | None => (Ok tt, t)
                     end) order tt).
Proof.
  apply frames_foldM. intros _ key t.
  destruct (values t !! key) as [c |]; [| apply steps_refl].
  destruct (after c).
  - apply frames_bind; [apply frames_insert | intros; apply frames_ret].
  - apply frames_remove.
Qed.

(** ** calculateNodeIDs runs once *)

Lemma calculateNodeIDs_body_once order t :
  calculateNodesOnce (snd (calculateNodeIDs_body tokenSize parentTrie calculateID order t))
  = calculateNodesOnce t.
Proof.
  unfold calculateNodeIDs_body, bind.
  pose proof (frames_apply_changes order t) as H1.
  destruct (foldM _ order tt t) as [[[] | e] t1]; cbn [snd] in *; [| apply H1].
  destruct H1 as (_ & _ & <- & _).
  pose proof (frames_getValue emptyKey t1) as H2.
  destruct (merkledb.getValue _ _ t1) as [[val | e] t2]; cbn [snd] in *;
    [| apply H2].
  destruct H2 as (_ & _ & <- & _).
  pose proof (frames_calculateNodeIDsHelper (helperDepth t2) emptyKey val t2) as H3.
  destruct (calculateNodeIDsHelper _ _ _ _ _ t2) as [[id | e] t3]; cbn [snd] in *;
    destruct H3 as (_ & _ & <- & _); [destruct (isInvalid t3) |]; reflexivity.
Qed.

Lemma calculateNodeIDs_done order t :
  calculateNodesOnce (snd (calculateNodeIDs order t)) = true.
Proof.
  unfold merkledb.calculateNodeIDs.
  destruct (calculateNodesOnce t) eqn:Honce; [exact Honce |].
  destruct (isInvalid _); [reflexivity |].
  pose proof (calculateNodeIDs_body_once order (set_calculateNodesOnce true t)) as H.
  now destruct (calculateNodeIDs_body _ _ _ _ _).
Qed.

Lemma calculateNodeIDs_again order t :
  calculateNodesOnce t = true -> calculateNodeIDs order t = (Ok tt, t).
Proof. intros H. unfold merkledb.calculateNodeIDs. now rewrite H. Qed.

(** C9.  When an invocation of [calculateNodeIDs] returns an error, every
    later invocation on the view returns nil and leaves the view as it is,
    so that [GetMerkleRoot] then hands out whatever [rootID] holds; when
    the error was that of a view found invalidated at entry, the root ID
    and the recorded node changes are those from before the first
    invocation. *)
Theorem calculateNodeIDs_error_not_sticky order t err t1 :
  calculateNodeIDs order t = (Err err, t1) ->
  (forall order',
      calculateNodeIDs order' t1 = (Ok tt, t1)
      /\ GetMerkleRoot order' t1 = (Ok (rootID t1), t1))
  /\ (invalidated t = true ->
      err = ErrInvalid
      /\ nodesAlreadyCalculated t1 = nodesAlreadyCalculated t
      /\ rootID t1 = rootID t
      /\ childrenChanges t1 = childrenChanges t).
Proof.
  intros Hfirst.
  assert (Hdone : calculateNodesOnce t1 = true).
  { pose proof (calculateNodeIDs_done order t) as H. now rewrite Hfirst in H. }
  split.
  - intros order'. split; [now apply calculateNodeIDs_again |].
    unfold merkledb.GetMerkleRoot, bind.
    now rewrite (calculateNodeIDs_again order' t1 Hdone).
  - intros Hinv. unfold merkledb.calculateNodeIDs, isInvalid in Hfirst.
    destruct (calculateNodesOnce t); [discriminate |].
    simpl in Hfirst. rewrite Hinv in Hfirst.
    injection Hfirst as <- <-. now simpl.
Qed.

(** ** Recorded value changes *)

Lemma recordValueChange_ok key value t t' :
  recordValueChange key value t = (Ok tt, t') ->
  exists b,
    values t' = <[key := {| before := b; after := value |}]> (values t)
    /\ match values t !! key with
       | Some c => b = before c
       | None => fst (tv_getValue parentTrie key) = Ok b
       end.
Proof.
  unfold merkledb.recordValueChange.
  destruct (nodesAlreadyCalculated t); [discriminate |].
  destruct (values t !! key) as [c |].
  - intros [= <-]. now exists (before c).
  - unfold bind, callParent, modify.
    destruct (tv_getValue parentTrie key) as [[b | e] flag]; [| discriminate].
    intros [= <-]. exists b. now destruct flag.
Qed.

Lemma recordValueChanges_lookup ops :
  forall t t', recordValueChanges parentTrie ops t = (Ok tt, t') ->
  forall key,
    match lastValue ops key with
    | Some v =>
        exists b,
          values t' !! key = Some {| before := b; after := v |}
          /\ match values t !! key with
             | Some c => b = before c
             | None => fst (tv_getValue parentTrie key) = Ok b
             end
    | None => values t' !! key = values t !! key
    end.
Proof.
  induction ops as [| [k v] ops IH]; intros t t' Hrun key.
  - injection Hrun as <-. reflexivity.
  - cbn [recordValueChanges foldM fst snd] in Hrun. unfold bind in Hrun.
    destruct (merkledb.recordValueChange _ k v t) as [[[] | e] t1] eqn:Hstep;
      [| discriminate].
    apply recordValueChange_ok in Hstep as (bk & Hvalues & Hbk).
    specialize (IH t1 t' Hrun key). cbn [lastValue].
    destruct (lastValue ops key) as [v' |].
    + destruct IH as (b & Hlookup & Hb). exists b. split; [exact Hlookup |].
      rewrite Hvalues in Hb. destruct (decide (k = key)) as [-> | Hne].
      * rewrite lookup_insert_eq in Hb. simpl in Hb. now subst b.
      * now rewrite lookup_insert_ne in Hb.
    + rewrite IH, Hvalues. destruct (decide (k = key)) as [-> | Hne].
      * exists bk. now rewrite lookup_insert_eq.
      * now rewrite lookup_insert_ne.
Qed.

(** C10.  After a sequence of [recordValueChange] calls that returned
    nil, the record of a key that was named in the sequence holds the value
    of the most recent call as [after]; its [before] is the one recorded
    before the sequence if there was one, and otherwise the value the
    parent trie has for the key.  Hence two sequences from the same view
    that agree on the most recent value of every key leave the same
    recorded values. *)
Theorem recordValueChange_last_wins ops1 ops2 t t1 t2 :
  recordValueChanges parentTrie ops1 t = (Ok tt, t1) ->
  recordValueChanges parentTrie ops2 t = (Ok tt, t2) ->
  (forall key v,
      lastValue ops1 key = Some v ->
      exists c,
        values t1 !! key = Some c
        /\ after c = v
        /\ match values t !! key with
           | Some c0 => before c = before c0
           | None => fst (tv_getValue parentTrie key) = Ok (before c)
           end)
  /\ (forall key, lastValue ops1 key = None -> values t1 !! key = values t !! key)
  /\ ((forall key, lastValue ops1 key = lastValue ops2 key) ->
      values t1 = values t2).
Proof.
  intros H1 H2. split; [| split].
  - intros key v Hlast.
    pose proof (recordValueChanges_lookup ops1 t t1 H1 key) as H.
    rewrite Hlast in H. destruct H as (b & Hlookup & Hb).
    eexists. split; [exact Hlookup |]. split; [reflexivity |]. exact Hb.
  - intros key Hlast.
    pose proof (recordValueChanges_lookup ops1 t t1 H1 key) as H.
    now rewrite Hlast in H.
  - intros Hsame. apply map_eq. intros key.
    pose proof (recordValueChanges_lookup ops1 t t1 H1 key) as Ha.
    pose proof (recordValueChanges_lookup ops2 t t2 H2 key) as Hb.
    rewrite <- Hsame in Hb.
    destruct (lastValue ops1 key) as [v |]; [| congruence].
    destruct Ha as (b1 & -> & Hb1), Hb as (b2 & -> & Hb2).
    destruct (values t !! key); [congruence |].
    rewrite Hb1 in Hb2. now injection Hb2 as ->.
Qed.

(** ** Range proofs *)

Lemma ascending_app_l (l1 l2 : list (list N)) :
  ascending (l1 ++ l2) -> ascending l1.
Proof.
  induction l1 as [| k l1 IH]; [easy |].
  cbn [app ascending]. intros [Hk Hrest]. split; [| now apply IH].
  destruct l1; [easy | exact Hk].
Qed.

(** The loop takes a prefix of what the iterator yields, stops at
    [maxLength] pairs and before the first key after [end_]. *)
Lemma collectKeyValues_spec end_ maxLength entries :
  forall itErr acc keyValues err,
    collectKeyValues entries itErr end_ maxLength acc = (keyValues, err) ->
    exists taken rest,
      entries = taken ++ rest
      /\ keyValues = acc ++ taken
      /\ (taken <> [] -> (Z.of_nat (length keyValues) <= maxLength)%Z)
      /\ Forall (fun kv => match end_ with
                           | Some e => (bytes_Compare (kv_Key kv) e <= 0)%Z
                           | None => True
                           end) taken.
Proof.
  assert (Hstop : forall (acc : list KeyValue) entries,
             exists taken rest : list KeyValue,
               entries = taken ++ rest
               /\ acc = acc ++ taken
               /\ (taken <> [] -> (Z.of_nat (length acc) <= maxLength)%Z)
               /\ Forall (fun kv => match end_ with
                                    | Some e => (bytes_Compare (kv_Key kv) e <= 0)%Z
                                    | None => True
                                    end) taken).
  { intros acc0 es. exists [], es.
    split; [reflexivity |]. split; [now rewrite app_nil_r |].
    split; [congruence | constructor]. }
  induction entries as [| kv entries IH]; intros itErr acc keyValues err Hrun;
    cbn [collectKeyValues] in Hrun.
  - injection Hrun as <- <-. apply Hstop.
  - destruct (Z.ltb_spec (Z.of_nat (length acc)) maxLength) as [Hlen | Hlen];
      cbn [andb] in Hrun; [| injection Hrun as <- <-; apply Hstop].
    destruct (match end_ with Some e => _ | None => true end) eqn:Hend;
      [| injection Hrun as <- <-; apply Hstop].
    apply IH in Hrun as (taken & rest & Hentries & HkeyValues & Hmax & Hall).
    exists (kv :: taken), rest.
    split; [now rewrite Hentries |].
    split; [now rewrite HkeyValues, <- app_assoc |]. split.
    + intros _. destruct taken as [| kv' taken].
      * rewrite HkeyValues, app_nil_r, length_app. simpl. lia.
      * apply Hmax. discriminate.
    + constructor; [| exact Hall]. destruct end_; [lia | exact I].
Qed.

Lemma visitPathLoop_inv {A} (P : A -> Prop) (visitNode : Key -> mapRef -> A -> M A) key :
  (forall k r a t a' t', visitNode k r a t = (Ok a', t') -> P a') ->
  forall rounds currentKey currentChildren acc t a' t',
    P acc ->
    visitPathLoop tokenSize parentTrie rounds key visitNode
                  currentKey currentChildren acc t = (Ok a', t') ->
    P a'.
Proof.
  intros Hv. induction rounds as [| rounds IH];
    intros currentKey r acc t a' t' Hacc Hrun; cbn [visitPathLoop] in Hrun;
    destruct (_ <? _)%Z; try (injection Hrun as <- <-; exact Hacc).
  destruct (children_lookup _ _) as [entry |];
    [| injection Hrun as <- <-; exact Hacc].
  destruct (negb _); [injection Hrun as <- <-; exact Hacc |].
  unfold bind in Hrun.
  destruct (merkledb.getChildrenInternal _ _ t) as [[r' | e] t1]; [| discriminate].
  destruct (visitNode _ r' acc t1) as [[acc' | e] t2] eqn:Hvisit; [| discriminate].
  eapply IH; [| exact Hrun]. eapply Hv, Hvisit.
Qed.

(** A proof path always starts with the root. *)
Lemma getProof_path_nonempty key t pf t' :
  getProof key t = (Ok pf, t') -> Proof_Path pf <> [].
Proof.
  unfold merkledb.getProof, visitPathToKey, bind. cbv zeta.
  assert (Hvisit : forall k r a t0 a' t0',
             getProof_visit parentTrie sha256 k r a t0 = (Ok a', t0') ->
             pv_Path a' <> []).
  { intros k r a t0 a' t0'. unfold getProof_visit, bind.
    destruct (merkledb.getValue _ k t0) as [[v | e] t1]; [| discriminate].
    intros [= <- <-]. simpl. now destruct (pv_Path a). }
  destruct (getProof_visit _ _ emptyKey _ _ t) as [[v0 | e] t0] eqn:H0;
    [| discriminate].
  apply Hvisit in H0.
  destruct (visitPathLoop _ _ _ _ _ _ _ v0 t0) as [[v | e] t1] eqn:Hloop;
    [| discriminate].
  apply (visitPathLoop_inv (fun a => pv_Path a <> []) _ _ Hvisit) in Hloop;
    [| exact H0].
  destruct (bool_decide _); [intros [= <- <-]; exact Hloop |].
  destruct (children_lookup _ _) as [child |];
    [| intros [= <- <-]; exact Hloop].
  destruct (merkledb.getChildren _ _ t1) as [[cc | e] t2]; [| discriminate].
  destruct (merkledb.getValue _ _ t2) as [[cv | e] t3]; [| discriminate].
  destruct (isInvalid t3); [discriminate |].
  intros [= <- <-]. simpl. now destruct (pv_Path v).
Qed.

Lemma last_is_empty {A} (l : list A) x : last l = Some x -> is_empty l = false.
Proof. now destruct l. Qed.

(** C3.  A range proof returned by [GetRangeProof] over an iterator that
    keeps its contract lists key-value pairs in strictly ascending key
    order, every key within [[start, end_]], at most [maxLength] of them;
    its [EndProof] is the path of the proof of the greatest listed key,
    and the path of the proof of [end_] when nothing is listed and [end_]
    is given.  Both proofs are those [getProof] builds on the view as
    [calculateNodeIDs] left it. *)
Theorem GetRangeProof_result order start end_ maxLength t rp t' :
  ordered_iterator NewIteratorWithStart ->
  GetRangeProof order start end_ maxLength t = (Ok rp, t') ->
  let t1 := snd (calculateNodeIDs order t) in
  startAfterEnd start end_ = false
  /\ (0 < maxLength)%Z
  /\ ascending (map kv_Key (KeyValues rp))
  /\ Forall (fun kv => in_range start end_ (kv_Key kv)) (KeyValues rp)
  /\ (Z.of_nat (length (KeyValues rp)) <= maxLength)%Z
  /\ (forall greatest,
         last (KeyValues rp) = Some greatest ->
         exists pf t2,
           getProof (kv_Key greatest) t1 = (Ok pf, t2)
           /\ EndProof rp = Proof_Path pf)
  /\ (KeyValues rp = [] ->
      forall e, end_ = Some e ->
                exists pf t2,
                  getProof e t1 = (Ok pf, t2) /\ EndProof rp = Proof_Path pf).
Proof.
  intros Hit Hrun t1. subst t1. unfold merkledb.GetRangeProof in Hrun.
  destruct (startAfterEnd start end_) eqn:Hse; [discriminate |].
  destruct (Z.leb_spec maxLength 0) as [Hmax | Hmax]; [discriminate |].
  unfold bind in Hrun.
  destruct (merkledb.calculateNodeIDs _ _ _ order t) as [[[] | e] t1];
    [| discriminate].
  cbn [snd]. specialize (Hit t1 (default [] start)).
  destruct (NewIteratorWithStart t1 (default [] start)) as [entries itErr].
  cbn [fst] in Hit. destruct Hit as [Hasc Hlow].
  destruct (collectKeyValues entries itErr end_ maxLength [])
    as [keyValues [err |]] eqn:Hcol; [discriminate |].
  apply collectKeyValues_spec in Hcol as (taken & rest & -> & -> & Hlen & Hend).
  cbn [app] in *.
  match type of Hrun with
  | match ?m t1 with _ => _ end = _ =>
      destruct (m t1) as [[endProof | e] t2] eqn:HendProof; [| discriminate]
  end.
  match type of Hrun with
  | match ?m t2 with _ => _ end = _ =>
      destruct (m t2) as [[startProof | e] t3] eqn:HstartProof; [| discriminate]
  end.
  match type of Hrun with
  | match ?m t3 with _ => _ end = _ =>
      destruct (m t3) as [[endProof' | e] t4] eqn:Hroot; [| discriminate]
  end.
  destruct (isInvalid t4); [discriminate |].
  injection Hrun as <- <-. cbn [KeyValues EndProof].
  split; [reflexivity |]. split; [exact Hmax |].
  split; [rewrite map_app in Hasc; now apply ascending_app_l in Hasc |].
  split.
  { apply Forall_app in Hlow as [Hlow _].
    rewrite Forall_forall in *. intros kv Hin. split.
    - destruct start as [s |]; [apply (Hlow kv Hin) | exact I].
    - specialize (Hend kv Hin). exact Hend. }
  split.
  { destruct taken as [| kv taken]; [simpl; lia | apply Hlen; discriminate]. }
  split.
  - intros greatest Hlast. rewrite Hlast in HendProof.
    rewrite (last_is_empty _ _ Hlast), !andb_false_r in Hroot.
    injection Hroot as <- <-. unfold bind in HendProof.
    destruct (merkledb.getProof _ _ _ (kv_Key greatest) t1) as [[pf | e] t5];
      [| discriminate].
    injection HendProof as <- <-. now exists pf, t5.
  - intros -> e ->. cbn [last] in HendProof. unfold bind in HendProof.
    destruct (merkledb.getProof _ _ _ e t1) as [[pf | err] t5] eqn:Hpf;
      [| discriminate].
    injection HendProof as <- <-. exists pf, t5. split; [reflexivity |].
    apply getProof_path_nonempty in Hpf.
    destruct (Proof_Path pf) eqn:Hpath; [congruence |].
    rewrite andb_false_r in Hroot. cbn [andb] in Hroot.
    now injection Hroot as <- <-.
Qed.

(** ** invalidate *)

Lemma reachable_rank rank h a b :
  ranked rank h -> reachable h a b -> rank b <= rank a.
Proof.
  intros Hr. induction 1 as [a | a t c b Ha Hc _ IH]; [lia |].
  destruct (Hr a t c Ha Hc) as [Hlt _]. lia.
Qed.

Lemma tracks_refl h : tracks h h.
Proof.
  intros b t Hb. exists t. split; [exact Hb |].
  split; [now destruct t |]. split; [trivial | now left].
Qed.

Lemma dead_insert_flag g a ta x :
  g !! a = Some ta ->
  dead g x -> dead (<[a := set_validity true (childViews ta) ta]> g) x.
Proof.
  intros Ha (tx & Hx & Hinv & Hcv). destruct (decide (a = x)) as [-> | Hne].
  - rewrite Ha in Hx. injection Hx as ->.
    eexists. rewrite lookup_insert_eq. split; [reflexivity |]. now simpl.
  - exists tx. now rewrite lookup_insert_ne.
Qed.

Lemma dead_alter_clear g a x :
  dead g x -> dead (alter (fun t' => set_validity (invalidated t') [] t') a g) x.
Proof.
  intros (tx & Hx & Hinv & Hcv). destruct (decide (a = x)) as [-> | Hne].
  - eexists. rewrite lookup_alter_eq, Hx. split; [reflexivity |]. now simpl.
  - exists tx. now rewrite lookup_alter_ne.
Qed.

(** Replacing the validity fields of one view keeps the heap on track as
    long as the dead stay dead and the view obeys the invariant. *)
Lemma tracks_update h g g' a :
  tracks h g ->
  (forall x, dead g x -> dead g' x) ->
  (forall b, b <> a -> g' !! b = g !! b) ->
  (forall t, h !! a = Some t ->
             exists t',
               g' !! a = Some t'
               /\ t' = set_validity (invalidated t') (childViews t') t
               /\ (invalidated t = true -> invalidated t' = true)
               /\ (childViews t' = childViews t
                   \/ (childViews t' = [] /\ forall x, reachable h a x -> dead g' x))) ->
  tracks h g'.
Proof.
  intros Htr Hmono Hsame Ha b t Hb. destruct (decide (b = a)) as [-> | Hne].
  - now apply Ha.
  - destruct (Htr b t Hb) as (t' & Hg & Heq & Hflag & Hcv).
    exists t'. rewrite (Hsame b Hne). split; [exact Hg |].
    split; [exact Heq |]. split; [exact Hflag |].
    destruct Hcv as [Hcv | [Hcv Hdead]]; [now left | right].
    split; [exact Hcv |]. intros x Hx. apply Hmono, Hdead, Hx.
Qed.

(** The loop over the children, given what the recursive call does. *)
Lemma invalidate_each_sound h (inv : nat -> heap -> option heap) :
  forall children : list nat,
    (forall c g, c ∈ children -> tracks h g ->
                 exists g',
                   inv c g = Some g'
                   /\ tracks h g'
                   /\ (forall x, reachable h c x -> dead g' x)
                   /\ (forall x, dead g x -> dead g' x)
                   /\ (forall x, ~ reachable h c x -> g' !! x = g !! x)) ->
    forall g, tracks h g ->
              exists g',
                invalidate_each inv children g = Some g'
                /\ tracks h g'
                /\ (forall c x, c ∈ children -> reachable h c x -> dead g' x)
                /\ (forall x, dead g x -> dead g' x)
                /\ (forall x, (forall c, c ∈ children -> ~ reachable h c x) ->
                              g' !! x = g !! x).
Proof.
  induction children as [| c children IH]; intros Hinv g Htr; cbn [invalidate_each].
  - exists g. split; [reflexivity |]. split; [exact Htr |].
    split; [intros c x Hc; now apply elem_of_nil in Hc |]. now split.
  - destruct (Hinv c g (list_elem_of_here _ _) Htr)
      as (g1 & -> & Htr1 & Hdead1 & Hmono1 & Hsame1).
    destruct (IH (fun c' g' Hc' => Hinv c' g' (list_elem_of_further _ _ _ Hc')) g1 Htr1)
      as (g2 & -> & Htr2 & Hdead2 & Hmono2 & Hsame2).
    exists g2. split; [reflexivity |]. split; [exact Htr2 |]. split; [| split].
    + intros c' x Hc' Hx. apply elem_of_cons in Hc' as [-> | Hc'].
      * apply Hmono2, Hdead1, Hx.
      * now apply (Hdead2 c').
    + intros x Hx. apply Hmono2, Hmono1, Hx.
    + intros x Hx. rewrite Hsame2, Hsame1; [reflexivity | |].
      * apply Hx, list_elem_of_here.
      * intros c' Hc'. apply Hx, list_elem_of_further, Hc'.
Qed.

(** [invalidate] returns on a forest of views, and kills everything that
    was reachable. *)
Lemma invalidate_sound rank h :
  ranked rank h ->
  forall depth a g,
    tracks h g -> rank a < depth -> is_Some (h !! a) ->
    exists g',
      invalidate depth a g = Some g'
      /\ tracks h g'
      /\ (forall x, reachable h a x -> dead g' x)
      /\ (forall x, dead g x -> dead g' x)
      /\ (forall x, ~ reachable h a x -> g' !! x = g !! x).
Proof.
  intros Hranked. induction depth as [| depth IH]; intros a g Htr Hrank [ta Hha];
    [lia |].
  destruct (Htr a ta Hha) as (ta' & Hga & Heq & Hflag & Hcv).
  cbn [invalidate]. rewrite Hga.
  set (g1 := <[a := set_validity true (childViews ta') ta']> g).
  assert (Hmono1 : forall x, dead g x -> dead g1 x)
    by (intros x; now apply dead_insert_flag).
  assert (Htr1 : tracks h g1).
  { apply (tracks_update h g g1 a Htr Hmono1).
    - intros b Hb. unfold g1. now rewrite lookup_insert_ne.
    - intros t Ht. rewrite Hha in Ht. injection Ht as <-.
      eexists. unfold g1. rewrite lookup_insert_eq. split; [reflexivity |].
      cbn. split; [rewrite Heq; reflexivity |]. split; [trivial |].
      destruct Hcv as [Hcv | [Hcv Hdead]]; [now left | right].
      split; [exact Hcv |]. intros x Hx. apply Hmono1, Hdead, Hx. }
  assert (Hchildren : forall c, c ∈ childViews ta' -> c ∈ childViews ta).
  { intros c Hc. destruct Hcv as [<- | [Hnil _]]; [exact Hc |].
    rewrite Hnil in Hc. now apply elem_of_nil in Hc. }
  destruct (invalidate_each_sound h (invalidate depth) (childViews ta')) with (g := g1)
    as (g2 & -> & Htr2 & Hdead2 & Hmono2 & Hsame2); [| exact Htr1 |].
  { intros c g0 Hc Htr0. apply Hchildren in Hc.
    destruct (Hranked a ta c Hha Hc) as [Hlt Hsome].
    apply IH; [exact Htr0 | lia | exact Hsome]. }
  assert (Hga2 : g2 !! a = Some (set_validity true (childViews ta') ta')).
  { rewrite Hsame2; [unfold g1; apply lookup_insert_eq |].
    intros c Hc Hreach. apply Hchildren in Hc.
    destruct (Hranked a ta c Hha Hc) as [Hlt _].
    apply (reachable_rank rank h c a Hranked) in Hreach. lia. }
  set (g3 := alter (fun t' => set_validity (invalidated t') [] t') a g2).
  assert (Hmono3 : forall x, dead g2 x -> dead g3 x)
    by (intros x; apply dead_alter_clear).
  assert (Hga3 : g3 !! a = Some (set_validity true [] ta')).
  { unfold g3. now rewrite lookup_alter_eq, Hga2. }
  assert (Hdead3 : forall x, reachable h a x -> dead g3 x).
  { intros x Hx. inversion Hx as [a0 | a0 t c b Ha0 Hc Hreach]; subst.
    - eexists. split; [exact Hga3 |]. now simpl.
    - rewrite Hha in Ha0. injection Ha0 as <-.
      destruct Hcv as [Hcv | [_ Hdead]].
      + apply Hmono3, (Hdead2 c); [now rewrite Hcv | exact Hreach].
      + apply Hmono3, Hmono2, Hmono1, Hdead, Hx. }
  exists g3. split; [reflexivity |]. split; [| split; [exact Hdead3 | split]].
  - apply (tracks_update h g2 g3 a Htr2 Hmono3).
    + intros b Hb. unfold g3. now rewrite lookup_alter_ne.
    + intros t Ht. rewrite Hha in Ht. injection Ht as <-.
      eexists. split; [exact Hga3 |]. cbn.
      split; [rewrite Heq; reflexivity |]. split; [trivial |]. now right.
  - intros x Hx. apply Hmono3, Hmono2, Hmono1, Hx.
  - intros x Hx. assert (x <> a) by (intros ->; apply Hx, reach_here).
    unfold g3. rewrite lookup_alter_ne by congruence.
    rewrite Hsame2.
    + unfold g1. now rewrite lookup_insert_ne by congruence.
    + intros c Hc Hreach. apply Hx.
      exact (reach_child h a ta c x Hha (Hchildren c Hc) Hreach).
Qed.

(** ** Operations on an invalidated view *)

Lemma getChildren_invalid key t :
  invalidated t = true -> getChildren key t = (Err ErrInvalid, t).
Proof. intros H. unfold merkledb.getChildren, isInvalid. now rewrite H. Qed.

Lemma getProof_invalid {B} key (k : Proof -> M B) t :
  invalidated t = true -> bind (getProof key) k t = (Err ErrInvalid, t).
Proof.
  intros H. unfold merkledb.getProof, visitPathToKey, getProof_visit, bind.
  cbv zeta. now rewrite (getValue_invalid _ t H).
Qed.

Lemma calculateNodeIDs_invalid order t :
  invalidated t = true ->
  calculateNodeIDs order t = (Ok tt, t)
  \/ calculateNodeIDs order t = (Err ErrInvalid, set_calculateNodesOnce true t).
Proof.
  intros H. unfold merkledb.calculateNodeIDs, isInvalid.
  destruct (calculateNodesOnce t); [now left | right].
  simpl. now rewrite H.
Qed.

Lemma GetProof_invalid order key t :
  invalidated t = true ->
  fst (GetProof order key t) = Err ErrInvalid
  /\ invalidated (snd (GetProof order key t)) = true.
Proof.
  intros H. unfold merkledb.GetProof, bind.
  destruct (calculateNodeIDs_invalid order t H) as [-> | ->]; [| now split].
  pose proof (getProof_invalid key ret t H) as Hp. unfold bind in Hp.
  destruct (merkledb.getProof _ _ _ key t) as [[pf | e] t1].
  - discriminate.
  - injection Hp as -> ->. now split.
Qed.

Lemma collectKeyValues_error end_ maxLength entries :
  forall itErr acc keyValues err,
    collectKeyValues entries itErr end_ maxLength acc = (keyValues, Some err) ->
    itErr = Some err.
Proof.
  induction entries as [| kv entries IH]; intros itErr acc keyValues err;
    cbn [collectKeyValues].
  - now intros [= _ ->].
  - destruct (_ && _); [apply IH | discriminate].
Qed.

Lemma last_None_nil {A} (l : list A) : last l = None -> l = [].
Proof.
  destruct l as [| x l]; [reflexivity |].
  intros H. apply (f_equal is_Some) in H. exfalso.
  assert (Hs : is_Some (last (x :: l))) by (rewrite last_is_Some; discriminate).
  rewrite H in Hs. now destruct Hs.
Qed.

Lemma GetRangeProof_invalid order start end_ maxLength t :
  invalidated t = true ->
  startAfterEnd start end_ = false -> (0 < maxLength)%Z ->
  (fst (GetRangeProof order start end_ maxLength t) = Err ErrInvalid
   \/ exists err,
       snd (NewIteratorWithStart (snd (calculateNodeIDs order t)) (default [] start))
       = Some err
       /\ fst (GetRangeProof order start end_ maxLength t) = Err err)
  /\ invalidated (snd (GetRangeProof order start end_ maxLength t)) = true.
Proof.
  intros H Hse Hmax. unfold merkledb.GetRangeProof. rewrite Hse.
  destruct (Z.leb_spec maxLength 0) as [Hle | _]; [lia |].
  destruct (calculateNodeIDs_invalid order t H) as [Hcalc | Hcalc]; rewrite Hcalc;
    [rewrite (bind_ok _ _ _ _ _ Hcalc) | rewrite (bind_err _ _ _ _ _ Hcalc)];
    [| now split; [left |]].
  cbn [snd].
  destruct (NewIteratorWithStart t (default [] start)) as [entries itErr].
  destruct (collectKeyValues entries itErr end_ maxLength [])
    as [keyValues [err |]] eqn:Hcol.
  { apply collectKeyValues_error in Hcol as ->.
    split; [right; now exists err | exact H]. }
  destruct (last keyValues) as [greatest |] eqn:Hlast.
  { rewrite (bind_err _ _ _ _ _ (getProof_invalid _ _ t H)). now split; [left |]. }
  apply last_None_nil in Hlast as ->.
  destruct end_ as [e |].
  { rewrite (bind_err _ _ _ _ _ (getProof_invalid _ _ t H)). now split; [left |]. }
  rewrite (bind_ok (ret []) _ t [] t eq_refl).
  destruct start as [s |].
  { rewrite (bind_err _ _ _ _ _ (getProof_invalid _ _ t H)). now split; [left |]. }
  rewrite (bind_ok (ret []) _ t [] t eq_refl). cbn [is_empty andb].
  rewrite (bind_err _ _ _ _ _ (getProof_invalid _ _ t H)). now split; [left |].
Qed.

Lemma NewView_invalid parent_NewView order a changes (h : heap) t :
  h !! a = Some t -> invalidated t = true ->
  NewView tokenSize calculateID parentTrie parent_NewView order a changes h
  = Some (Err ErrInvalid, h).
Proof.
  intros Ha H. unfold NewView, isInvalid. now rewrite Ha, H.
Qed.


End Facts.

(** ** The order of the recorded changes *)

(** C1.  The views [newTrieView] builds over an empty database from the
    puts of [a := [1]] and [ab := [2]], in either order, are the same view;
    on it [GetMerkleRoot] depends on the order in which [calculateNodeIDs]
    meets the two keys.  Inserting ["a"] before ["ab"]
    yields the root of the trie in which the node of ["a"] has the child
    that leads to ["ab"].  Inserting ["ab"] first, the insert of ["a"]
    splits the edge to ["ab"] at a branch node whose key is ["a"] itself
    and then records that node anew, without children: the root is that of a
    trie holding ["a"] alone.  Both hold for every hash; with a hash that
    tells the two nodes apart the two root IDs differ, over the empty
    database and over a database that holds another key. *)
Theorem GetMerkleRoot_depends_on_order :
  forall calculateID,
    let edge (compressed : Key) (id : ID) : nodeChildren :=
      Some {[ 6%N := {| compressedKey := compressed; child_id := id; hasValue := false |} ]} in
    let leaf_ab := calculateID key_ab (Some ∅) (Some [2%N]) in
    let a_then_ab := GetMerkleRoot 4 emptyDB calculateID [key_a; key_ab] view_a_ab in
    let ab_then_a := GetMerkleRoot 4 emptyDB calculateID [key_ab; key_a] view_a_ab in
    newTrieView 4 emptyDB changes_a_ab = Ok view_a_ab
    /\ newTrieView 4 emptyDB changes_ab_a = Ok view_a_ab
    /\ range_order view_a_ab [key_a; key_ab]
    /\ range_order view_a_ab [key_ab; key_a]
    /\ fst a_then_ab
       = Ok (calculateID emptyKey
               (edge [1%N] (calculateID key_a (edge [2%N] leaf_ab) (Some [1%N]))) None)
    /\ fst ab_then_a
       = Ok (calculateID emptyKey
               (edge [1%N] (calculateID key_a (Some ∅) (Some [1%N]))) None)
    /\ childrenChanges (snd a_then_ab) !! key_a = Some (edge [2%N] leaf_ab)
    /\ childrenChanges (snd ab_then_a) !! key_a = Some (Some ∅)
    /\ fst (GetMerkleRoot 4 emptyDB sample_calculateID [key_a; key_ab] view_a_ab)
       <> fst (GetMerkleRoot 4 emptyDB sample_calculateID [key_ab; key_a] view_a_ab)
    /\ newTrieView 4 dbWithZ changes_a_ab = Ok view_a_ab_over_z
    /\ fst (GetMerkleRoot 4 dbWithZ sample_calculateID [key_a; key_ab] view_a_ab_over_z)
       <> fst (GetMerkleRoot 4 dbWithZ sample_calculateID [key_ab; key_a] view_a_ab_over_z).
Proof.
  intros calculateID edge leaf_ab a_then_ab ab_then_a.
  split; [vm_compute; reflexivity |].
  split; [vm_compute; reflexivity |].
  assert (Hkeys : map fst (map_to_list (values view_a_ab)) = [key_ab; key_a])
    by (vm_compute; reflexivity).
  split; [unfold range_order; rewrite Hkeys; apply perm_swap |].
  split; [unfold range_order; rewrite Hkeys; reflexivity |].
  split; [vm_compute; reflexivity |].
  split; [vm_compute; reflexivity |].
  split; [vm_compute; reflexivity |].
  split; [vm_compute; reflexivity |].
  split; [vm_compute; discriminate |].
  split; [vm_compute; reflexivity |].
  vm_compute. discriminate.
Qed.

(** ** Where the specification is worded too strongly *)


(** C4, as worded, fails: the view is valid at entry and invalidated by
    the time the parent call returns, yet [getValue] hands on the error of
    the parent, not [ErrInvalid]. *)
Lemma getValue_hands_on_parent_error :
  invalidated freshView = false
  /\ values freshView !! key_a = None
  /\ tv_getValue closingDB key_a = (Err database_ErrClosed, true)
  /\ getValue closingDB key_a freshView = (Err database_ErrClosed, invalidate_self freshView)
  /\ invalidated (invalidate_self freshView) = true
  /\ errors_Is database_ErrClosed ErrInvalid = false.
Proof. now vm_compute. Qed.

(** C6, as worded, fails: the view is valid and the key has no node, yet
    [remove] fails because the node IDs of the view were calculated. *)
Lemma remove_absent_key_after_calculation :
  invalidated calculatedView = false
  /\ has_no_node emptyDB key_a calculatedView
  /\ remove 4 emptyDB key_a calculatedView = (Err ErrNodesAlreadyCalculated, calculatedView).
Proof.
  split; [reflexivity |]. split; [| reflexivity].
  right. split; [now vm_compute |]. left. now exists database_ErrNotFound.
Qed.

(** C7, as worded, fails: with [start > end_] and [maxLength = 0] the
    error is [ErrStartAfterEnd], which does not wrap [ErrInvalidMaxLength]. *)
Lemma start_after_end_goes_first :
  (0 <= 0)%Z
  /\ GetRangeProof 4 emptyDB sample_calculateID sample_sha256 sampleIterator
                   [] (Some [2%N]) (Some [1%N]) 0 freshView
     = (Err ErrStartAfterEnd, freshView)
  /\ errors_Is ErrStartAfterEnd ErrInvalidMaxLength = false.
Proof. split; [lia | now vm_compute]. Qed.

(** ** The theorems at work on the samples *)

Lemma sample_heap_ranked : ranked sample_rank sample_heap.
Proof.
  intros a t c Ha Hc. unfold sample_heap in *.
  destruct (decide (a = 0)) as [-> | Ha0].
  - rewrite lookup_insert_eq in Ha. injection Ha as <-.
    apply list_elem_of_singleton in Hc as ->.
    split; [simpl; lia | eexists; reflexivity].
  - rewrite lookup_insert_ne in Ha by congruence.
    destruct (decide (a = 1)) as [-> | Ha1].
    + rewrite lookup_insert_eq in Ha. injection Ha as <-.
      now apply elem_of_nil in Hc.
    + now rewrite lookup_insert_ne, lookup_empty in Ha by congruence.
Defined.

Lemma sampleIterator_ordered : ordered_iterator sampleIterator.
Proof.
  intros t start. unfold sampleIterator, sample_pairs. cbn [fst List.filter kv_Key].
  destruct (Z.leb_spec (bytes_Compare start [97%N]) 0) as [H1 | H1];
    destruct (Z.leb_spec (bytes_Compare start [97%N; 98%N]) 0) as [H2 | H2];
    cbn [map kv_Key ascending]; (split; [now repeat split |]);
    repeat constructor; assumption.
Defined.


Lemma GetRangeProof_result_witness :
  exists rp t',
    GetRangeProof 4 emptyDB sample_calculateID sample_sha256 sampleIterator
                  [key_a; key_ab] None (Some [97%N; 98%N]) 10 view_a_ab
    = (Ok rp, t')
    /\ ascending (map kv_Key (KeyValues rp))
    /\ Forall (fun kv => in_range None (Some [97%N; 98%N]) (kv_Key kv)) (KeyValues rp)
    /\ (Z.of_nat (length (KeyValues rp)) <= 10)%Z.
Proof.
  destruct (GetRangeProof 4 emptyDB sample_calculateID sample_sha256 sampleIterator
              [key_a; key_ab] None (Some [97%N; 98%N]) 10 view_a_ab)
    as [[rp | e] t'] eqn:Hrun.
  - exists rp, t'. split; [reflexivity |].
    destruct (GetRangeProof_result 4 emptyDB sample_calculateID sample_sha256
                sampleIterator _ _ _ _ _ _ _ sampleIterator_ordered Hrun)
      as (_ & _ & Hasc & Hrange & Hlen & _).
    now repeat split.
  - vm_compute in Hrun. discriminate.
Defined.

Lemma getValue_spec_witness :
  getValue emptyDB key_a invalidView = (Err ErrInvalid, invalidView)
  /\ getValue emptyDB key_a view_a_ab = (Ok (Some [1%N]), view_a_ab)
  /\ getValue closingDB key_a freshView
     = (Err database_ErrClosed, invalidate_self freshView)
  /\ getValue emptyDB key_a freshView = (Ok None, freshView)
  /\ getValue racingDB key_a freshView = (Err ErrInvalid, invalidate_self freshView).
Proof.
  split; [| split; [| split; [| split]]].
  - now apply (proj1 (getValue_spec emptyDB key_a invalidView)).
  - now apply (proj1 (proj2 (getValue_spec emptyDB key_a view_a_ab)) eq_refl
                 {| before := None; after := Some [1%N] |}).
  - exact (proj1 (proj2 (proj2 (getValue_spec closingDB key_a freshView)))
             eq_refl eq_refl database_ErrClosed true eq_refl).
  - exact (proj1 (proj2 (proj2 (proj2 (getValue_spec emptyDB key_a freshView))))
             eq_refl eq_refl None eq_refl).
  - exact (proj2 (proj2 (proj2 (proj2 (getValue_spec racingDB key_a freshView))))
             eq_refl eq_refl None eq_refl).
Defined.

Lemma remove_absent_key_witness :
  remove 4 emptyDB key_a freshView = (Ok tt, freshView)
  /\ (run remove 4 emptyDB key_a in remove 4 emptyDB key_a) freshView = (Ok tt, freshView).
Proof.
  apply remove_absent_key; [reflexivity | reflexivity |].
  right. split; [now vm_compute |]. left. now exists database_ErrNotFound.
Defined.

Lemma GetRangeProof_argument_errors_witness :
  GetRangeProof 4 emptyDB sample_calculateID sample_sha256 sampleIterator
                [] (Some [2%N]) (Some [1%N]) 5 freshView
  = (Err ErrStartAfterEnd, freshView)
  /\ GetRangeProof 4 emptyDB sample_calculateID sample_sha256 sampleIterator
                   [] (Some [1%N]) (Some [2%N]) 0 freshView
     = (Err (ErrInvalidMaxLength_but_was 0), freshView).
Proof.
  split.
  - now apply (proj1 (GetRangeProof_argument_errors 4 emptyDB sample_calculateID
                        sample_sha256 sampleIterator [] (Some [2%N]) (Some [1%N])
                        5 freshView) [2%N] [1%N]).
  - apply (proj2 (GetRangeProof_argument_errors 4 emptyDB sample_calculateID
                    sample_sha256 sampleIterator [] (Some [1%N]) (Some [2%N])
                    0 freshView)); [reflexivity | lia].
Defined.

Lemma mutation_after_calculation_fails_witness :
  recordValueChange emptyDB key_a (Some [1%N]) calculatedView
  = (Err ErrNodesAlreadyCalculated, calculatedView)
  /\ insert 4 emptyDB key_a calculatedView = (Err ErrNodesAlreadyCalculated, calculatedView)
  /\ remove 4 emptyDB key_a calculatedView = (Err ErrNodesAlreadyCalculated, calculatedView).
Proof.
  destruct (mutation_after_calculation_fails 4 emptyDB calculatedView eq_refl)
    as (Hrecord & Hinsert & Hremove & _).
  split; [apply Hrecord | split; [apply Hinsert | apply Hremove]].
Defined.

Lemma calculateNodeIDs_error_not_sticky_witness :
  let t1 := set_calculateNodesOnce true invalidView in
  calculateNodeIDs 4 emptyDB sample_calculateID [key_a] invalidView = (Err ErrInvalid, t1)
  /\ calculateNodeIDs 4 emptyDB sample_calculateID [key_a] t1 = (Ok tt, t1)
  /\ GetMerkleRoot 4 emptyDB sample_calculateID [key_a] t1 = (Ok ids_Empty, t1).
Proof.
  intros t1.
  assert (Hfirst : calculateNodeIDs 4 emptyDB sample_calculateID [key_a] invalidView
                   = (Err ErrInvalid, t1)) by reflexivity.
  split; [exact Hfirst |].
  exact (proj1 (calculateNodeIDs_error_not_sticky 4 emptyDB sample_calculateID
                  [key_a] invalidView ErrInvalid t1 Hfirst) [key_a]).
Defined.

Lemma recordValueChange_last_wins_witness :
  let ops1 := [(key_a, Some [1%N]); (key_ab, None); (key_a, Some [3%N])] in
  let ops2 := [(key_a, Some [3%N]); (key_ab, None)] in
  values (snd (recordValueChanges emptyDB ops1 freshView)) !! key_a
  = Some {| before := None; after := Some [3%N] |}
  /\ values (snd (recordValueChanges emptyDB ops1 freshView))
     = values (snd (recordValueChanges emptyDB ops2 freshView)).
Proof.
  intros ops1 ops2.
  destruct (recordValueChange_last_wins emptyDB ops1 ops2 freshView
              (snd (recordValueChanges emptyDB ops1 freshView))
              (snd (recordValueChanges emptyDB ops2 freshView)))
    as (Hlast & _ & Hsame); [now vm_compute | now vm_compute |].
  split.
  - destruct (Hlast key_a (Some [3%N]) eq_refl) as (c & -> & Hafter & Hbefore).
    destruct c as [b a]. simpl in *. subst a.
    vm_compute in Hbefore. now injection Hbefore as <-.
  - apply Hsame. intros key. unfold ops1, ops2. cbn [lastValue].
    destruct (decide (key_ab = key)) as [Hab | Hab],
      (decide (key_a = key)) as [Ha | Ha]; try reflexivity.
    rewrite <- Hab in Ha. vm_compute in Ha. discriminate.
Defined.

(** ** Edits along the path to a key *)

Section Walk.

Set Default Proof Using "Type".

Variable tokenSize : Z.
Variable parentTrie : TrieView.

(** The key an edit works towards, and a relation on the states of the
    view that a concurrent [invalidate] and a write to the node of a prefix
    of that key respect. *)
Variable key : Key.
Variable R : trieView -> trieView -> Prop.
Hypothesis R_refl : forall t, R t t.
Hypothesis R_trans : forall t1 t2 t3, R t1 t2 -> R t2 t3 -> R t1 t3.
Hypothesis R_invalidate : forall t, R t (invalidate_self t).
Hypothesis R_store :
  forall (k : Key) m t, k `prefix_of` key ->
                R t (set_childrenChanges (<[k := m]> (childrenChanges t)) t).

Lemma edits_ret {A} (a : A) : edits R (ret a).
Proof using R_refl. intros t. apply R_refl. Qed.

Lemma edits_bind {A B} (m : M A) (k : A -> M B) :
  edits R m -> (forall a, edits R (k a)) -> edits R (bind m k).
Proof using R_trans.
  intros Hm Hk t. unfold bind. specialize (Hm t).
  destruct (m t) as [[a | e] t']; [| exact Hm].
  eapply R_trans; [exact Hm | apply Hk].
Qed.

Lemma edits_when b (m : M unit) : edits R m -> edits R (when b m).
Proof using R_refl. intros Hm. destruct b; [exact Hm | apply edits_ret]. Qed.

Lemma edits_callParent {A} (call : result A * bool) : edits R (callParent call).
Proof using R_refl R_invalidate.
  intros t. unfold callParent. cbn [snd].
  destruct (snd call); [apply R_invalidate | apply R_refl].
Qed.

Lemma edits_getValue (k : Key) : edits R (getValue parentTrie k).
Proof using R_refl R_invalidate.
  intros t. unfold getValue. destruct (isInvalid t); [apply R_refl |].
  destruct (values t !! k); [apply R_refl |].
  pose proof (edits_callParent (tv_getValue parentTrie k) t) as H.
  destruct (callParent _ t) as [[v | e] t']; cbn [snd] in *; [| exact H].
  destruct (isInvalid t'); exact H.
Qed.

Lemma edits_getChildrenInternal (k : Key) : edits R (getChildrenInternal parentTrie k).
Proof using R_refl R_trans R_invalidate.
  intros t. unfold getChildrenInternal.
  destruct (childrenChanges t !! k) as [[m |] |]; try apply R_refl.
  apply edits_bind; [apply edits_callParent | intros; apply edits_ret].
Qed.

Lemma edits_getChildren (k : Key) : edits R (getChildren parentTrie k).
Proof using R_refl R_trans R_invalidate.
  intros t. unfold getChildren. destruct (isInvalid t); [apply R_refl |].
  pose proof (edits_getChildrenInternal k t) as H.
  destruct (getChildrenInternal _ _ t) as [[n | e] t']; cbn [snd] in *; [| exact H].
  destruct (isInvalid t'); exact H.
Qed.

Lemma edits_store (k : Key) m : k `prefix_of` key -> edits R (store k m).
Proof using R_store. intros Hk t. apply R_store. exact Hk. Qed.

Lemma edits_recordNewNode (k : Key) : k `prefix_of` key -> edits R (recordNewNode k).
Proof using R_refl R_trans R_store.
  intros Hk. apply edits_bind; [apply edits_store; exact Hk | intros; apply edits_ret].
Qed.

Lemma edits_recordChildRemoved (k : Key) childKey :
  k `prefix_of` key -> edits R (recordChildRemoved tokenSize k childKey).
Proof using R_refl R_store.
  intros Hk t. unfold recordChildRemoved.
  destruct (childrenChanges t !! k); [apply edits_store; exact Hk | apply R_refl].
Qed.

Lemma edits_recordNodeDeleted (k : Key) : k `prefix_of` key -> edits R (recordNodeDeleted k).
Proof using R_store. intros Hk. apply edits_store. exact Hk. Qed.

Lemma edits_recordChildEntry (k : Key) childIndex entry :
  k `prefix_of` key -> edits R (recordChildEntry k childIndex entry).
Proof using R_store.
  intros Hk t. unfold recordChildEntry.
  destruct (childrenChanges t !! k) as [[m |] |]; apply edits_store; exact Hk.
Qed.

Lemma edits_recordPendingChildChange (k : Key) childKey :
  k `prefix_of` key -> edits R (recordPendingChildChange tokenSize k childKey).
Proof using R_store. intros Hk. apply edits_recordChildEntry. exact Hk. Qed.

Lemma edits_recordChildChange (k : Key) childKey id :
  k `prefix_of` key -> edits R (recordChildChange tokenSize k childKey id).
Proof using R_store. intros Hk. apply edits_recordChildEntry. exact Hk. Qed.

Lemma Key_Take_prefix (k : Key) bits : Key_Take tokenSize k bits `prefix_of` k.
Proof. unfold Key_Take. apply prefix_take. Qed.

(** The walk of [visitPathToKey]: every key it visits is a prefix of the
    target, strictly longer than the one before. *)
Lemma visitPathLoop_walk {A} (I : Key -> A -> Prop)
      (visitNode : Key -> mapRef -> A -> M A) :
  (forall (k0 k : Key) r a t,
      I k0 a -> k `prefix_of` key ->
      ((0 < tokenSize)%Z -> length k0 < length k) ->
      R t (snd (visitNode k r a t))
      /\ forall a' t', visitNode k r a t = (Ok a', t') -> I k a') ->
  forall rounds currentKey currentChildren acc t,
    I currentKey acc ->
    R t (snd (visitPathLoop tokenSize parentTrie rounds key visitNode
                            currentKey currentChildren acc t))
    /\ forall a' t',
         visitPathLoop tokenSize parentTrie rounds key visitNode
                       currentKey currentChildren acc t = (Ok a', t') ->
         exists k', I k' a'.
Proof using R_refl R_trans R_invalidate.
  intros Hvisit.
  assert (Hstop : forall currentKey (acc : A) t,
             I currentKey acc ->
             R t (snd (Ok acc, t))
             /\ forall a' t', (Ok acc, t) = (Ok a', t') -> exists k', I k' a').
  { intros currentKey acc t HI. split; [apply R_refl |].
    intros a' t' [= <- <-]. eauto. }
  induction rounds as [| rounds IH]; intros currentKey r acc t HI;
    cbn [visitPathLoop].
  - destruct (_ <? _)%Z; eapply Hstop; exact HI.
  - destruct (Z.ltb_spec (Key_length tokenSize currentKey) (Key_length tokenSize key))
      as [Hlt | Hge]; [| eapply Hstop; exact HI].
    destruct (children_lookup _ _) as [entry |]; [| eapply Hstop; exact HI].
    destruct (negb _); [eapply Hstop; exact HI |].
    set (currentKey' := Key_Take tokenSize key _).
    unfold bind.
    pose proof (edits_getChildrenInternal currentKey' t) as Hget.
    destruct (getChildrenInternal parentTrie currentKey' t) as [[r' | e] t1];
      cbn [snd] in Hget; [| split; [exact Hget | discriminate]].
    assert (Hlen : (0 < tokenSize)%Z -> length currentKey < length currentKey').
    { intros Hts. subst currentKey'. unfold Key_Take, Key_length in *.
      replace (tokenSize * Z.of_nat (length currentKey) + tokenSize
               + tokenSize * Z.of_nat (length (compressedKey entry)))%Z
        with (tokenSize * Z.of_nat (length currentKey + 1 + length (compressedKey entry)))%Z
        by lia.
      rewrite (tokens_of_mul _ _ Hts), length_take. nia. }
    destruct (Hvisit currentKey currentKey' r' acc t1 HI (Key_Take_prefix _ _) Hlen)
      as [Hstep Hnext].
    destruct (visitNode currentKey' r' acc t1) as [[acc' | e] t2];
      cbn [snd] in Hstep.
    2: { split; [eapply R_trans; eassumption | discriminate]. }
    destruct (IH currentKey' r' acc' t2 (Hnext _ _ eq_refl)) as [Hrest Hres].
    split; [| exact Hres].
    eapply R_trans; [exact Hget |]. eapply R_trans; [exact Hstep | exact Hrest].
Qed.

Lemma visitPathToKey_walk {A} (I : Key -> A -> Prop)
      (visitNode : Key -> mapRef -> A -> M A) acc :
  (forall r t,
      R t (snd (visitNode emptyKey r acc t))
      /\ forall a' t', visitNode emptyKey r acc t = (Ok a', t') -> I emptyKey a') ->
  (forall (k0 k : Key) r a t,
      I k0 a -> k `prefix_of` key ->
      ((0 < tokenSize)%Z -> length k0 < length k) ->
      R t (snd (visitNode k r a t))
      /\ forall a' t', visitNode k r a t = (Ok a', t') -> I k a') ->
  forall t,
    R t (snd (visitPathToKey tokenSize parentTrie key visitNode acc t))
    /\ forall a' t',
         visitPathToKey tokenSize parentTrie key visitNode acc t = (Ok a', t') ->
         exists k', I k' a'.
Proof using R_refl R_trans R_invalidate.
  intros Hroot Hvisit t. unfold visitPathToKey, bind.
  destruct (Hroot (load emptyKey t) t) as [Hstep Hnext].
  destruct (visitNode emptyKey (load emptyKey t) acc t) as [[acc' | e] t1];
    cbn [snd] in Hstep; [| split; [exact Hstep | discriminate]].
  destruct (visitPathLoop_walk I visitNode Hvisit (length key) emptyKey
                               (load emptyKey t) acc' t1 (Hnext _ _ eq_refl))
    as [Hrest Hres].
  split; [eapply R_trans; eassumption | exact Hres].
Qed.


Lemma edits_insert : edits R (insert tokenSize parentTrie key).
Proof using R_refl R_trans R_invalidate R_store.
  intros t. unfold insert.
  destruct (nodesAlreadyCalculated t); [apply R_refl |].
  unfold bind at 1.
  set (I := fun (k : Key) (v : insertVars) =>
              k `prefix_of` key /\ iv_closestKey v = k /\ iv_previousKey v = Some k).
  destruct (visitPathToKey_walk I (insert_visit tokenSize)
              {| iv_closestChildren := Detached None;
                 iv_closestKey := emptyKey;
                 iv_previousKey := None |}) with (t := t) as [Hwalk Hres].
  { intros r t0. unfold insert_visit, bind, ret. cbn.
    split; [apply R_refl |]. intros a' t' [= <- <-].
    split; [apply prefix_nil | split; reflexivity]. }
  { intros k0 k r a t0 (Hk0 & Hclosest & Hprev) Hk _.
    unfold insert_visit. rewrite Hprev. unfold bind, ret.
    pose proof (edits_recordPendingChildChange k0 k Hk0 t0) as Hrec.
    destruct (recordPendingChildChange tokenSize k0 k t0) as [[[] | e] t1];
      cbn [snd] in *.
    - split; [exact Hrec |]. intros a' t' [= <- <-].
      split; [exact Hk | split; reflexivity].
    - split; [exact Hrec | discriminate]. }
  destruct (visitPathToKey _ _ _ _ _ t) as [[v | e] t1]; cbn [snd] in Hwalk;
    [| exact Hwalk].
  destruct (Hres v t1 eq_refl) as (k' & Hk' & Hclosest & _).
  eapply R_trans; [exact Hwalk |]. rewrite Hclosest.
  destruct (bool_decide _); [apply R_refl |].
  destruct (children_lookup _ _) as [entry |].
  - destruct (_ <=? _)%Z; [apply R_refl |].
    apply edits_bind; [apply edits_recordChildChange; exact Hk' |]. intros _.
    apply edits_bind;
      [apply edits_when, edits_recordChildChange, Key_Take_prefix |]. intros _.
    apply edits_bind; [apply edits_recordChildEntry, Key_Take_prefix |]. intros _.
    apply edits_recordNewNode. reflexivity.
  - apply edits_bind; [apply edits_recordChildChange; exact Hk' |]. intros _.
    apply edits_recordNewNode. reflexivity.
Qed.

Lemma edits_compressNodePath parent (parentKey : Key) node (nodeKey : Key) :
  parentKey `prefix_of` key -> nodeKey `prefix_of` key ->
  edits R (compressNodePath tokenSize parentTrie parent parentKey node nodeKey).
Proof using R_refl R_trans R_invalidate R_store.
  intros Hparent Hnode t. unfold compressNodePath.
  destruct (nodesAlreadyCalculated t); [apply R_refl |].
  destruct (_ || _); [apply R_refl |].
  pose proof (edits_getValue nodeKey t) as H.
  destruct (getValue _ _ t) as [[[v |] | e] t']; cbn [snd] in *; try exact H.
  eapply R_trans; [exact H |].
  apply edits_bind; [apply edits_recordNodeDeleted; exact Hnode |]. intros _.
  destruct (children_entries _) as [| [index entry] l];
    [apply edits_ret | apply edits_recordChildChange; exact Hparent].
Qed.

Lemma edits_remove : edits R (remove tokenSize parentTrie key).
Proof using R_refl R_trans R_invalidate R_store.
  intros t. unfold remove.
  destruct (nodesAlreadyCalculated t); [apply R_refl |].
  pose proof (edits_getChildren key t) as H.
  destruct (getChildren _ _ t) as [[keyNode | e] t']; cbn [snd] in *.
  2: { destruct (errors_Is _ _); exact H. }
  destruct (is_nil _ _); [exact H |].
  eapply R_trans; [exact H |]. clear H.
  unfold bind at 1.
  set (I := fun (k : Key) (v : removeVars) =>
              rv_nodeToDeleteKey v `prefix_of` key
              /\ rv_parentKey v `prefix_of` key
              /\ rv_grandParentKey v `prefix_of` key).
  assert (Hvisit : forall (k : Key) r a t0,
             k `prefix_of` key ->
             rv_nodeToDeleteKey a `prefix_of` key ->
             rv_parentKey a `prefix_of` key ->
             R t0 (snd (remove_visit tokenSize k r a t0))
             /\ forall a' t1, remove_visit tokenSize k r a t0 = (Ok a', t1) -> I k a').
  { intros k r a t0 Hk Hnode Hparent. unfold remove_visit, bind, ret.
    cbn [rv_parent rv_parentKey rv_nodeToDeleteKey].
    pose proof (edits_when (negb (is_nil (rv_nodeToDelete a) t0))
                  (recordPendingChildChange tokenSize (rv_nodeToDeleteKey a) k)
                  (edits_recordPendingChildChange _ _ Hnode) t0) as Hrec.
    destruct (when _ _ t0) as [[[] | e] t1]; cbn [snd] in *.
    - split; [exact Hrec |]. intros a' t2 [= <- <-]. unfold I. cbn.
      split; [exact Hk | split; assumption].
    - split; [exact Hrec | discriminate]. }
  destruct (visitPathToKey_walk I (remove_visit tokenSize)
              {| rv_grandParentKey := emptyKey;
                 rv_parentKey := emptyKey;
                 rv_nodeToDeleteKey := emptyKey;
                 rv_grandParent := Detached None;
                 rv_parent := Detached None;
                 rv_nodeToDelete := Detached None |}) with (t := t') as [Hwalk Hres].
  { intros r t0. apply Hvisit; apply prefix_nil. }
  { intros k0 k r a t0 (Hnode & Hparent & _) Hk _. now apply Hvisit. }
  destruct (visitPathToKey _ _ _ _ _ t') as [[v | e] t1]; cbn [snd] in Hwalk;
    [| exact Hwalk].
  destruct (Hres v t1 eq_refl) as (k' & Hnode & Hparent & Hgrand).
  eapply R_trans; [exact Hwalk |].
  destruct (negb _); [now apply edits_compressNodePath |].
  apply edits_bind; [apply edits_recordNodeDeleted; exact Hnode |]. intros _ t2.
  destruct (negb _); [| apply R_refl].
  apply edits_bind; [apply edits_recordChildRemoved; exact Hparent |]. intros _.
  now apply edits_compressNodePath.
Qed.

End Walk.

(** ** What [calculateNodeIDs] may change *)

Section Coarse.

Set Default Proof Using "Type".

Variable tokenSize : Z.
Variable parentTrie : TrieView.
Variable calculateID : Key -> nodeChildren -> Maybe (list N) -> ID.

(** A relation on the states of the view that every write of
    [calculateNodeIDs] respects. *)
Variable R : trieView -> trieView -> Prop.
Hypothesis R_refl : forall t, R t t.
Hypothesis R_trans : forall t1 t2 t3, R t1 t2 -> R t2 t3 -> R t1 t3.
Hypothesis R_invalidate : forall t, R t (invalidate_self t).
Hypothesis R_childrenChanges : forall cc t, R t (set_childrenChanges cc t).
Hypothesis R_rootID : forall r t, R t (set_rootID r t).
Hypothesis R_flags :
  forall b t, R t (set_calculateNodesOnce b t) /\ R t (set_nodesAlreadyCalculated b t).

Lemma edits_foldM {A B} (f : B -> A -> M B) (l : list A) :
  (forall b a, edits R (f b a)) -> forall b, edits R (foldM f l b).
Proof using R_refl R_trans.
  intros Hf. induction l as [| a l IH]; intros b; cbn [foldM].
  - apply edits_ret. exact R_refl.
  - apply edits_bind; [exact R_trans | apply Hf | exact IH].
Qed.

Lemma edits_write_child_id key r index id : edits R (write_child_id key r index id).
Proof using R_refl R_childrenChanges.
  destruct r; cbn [write_child_id]; [| apply edits_ret; exact R_refl].
  intros t. apply R_childrenChanges.
Qed.

Lemma edits_updateChild helper key r children ic :
  (forall k v, edits R (helper k v)) ->
  edits R (updateChild helper key r children ic).
Proof using R_refl R_trans R_childrenChanges.
  intros Hh. destruct ic as [childIndex child]. intros t. unfold updateChild.
  destruct (_ || _); [apply R_refl |].
  apply edits_bind; [exact R_trans | apply Hh |]. intros id.
  apply edits_bind; [exact R_trans | apply edits_write_child_id |].
  intros. apply edits_ret. exact R_refl.
Qed.

Lemma edits_calculateNodeIDsHelper depth :
  forall key value,
    edits R (calculateNodeIDsHelper parentTrie calculateID depth key value).
Proof using R_refl R_trans R_invalidate R_childrenChanges.
  induction depth as [| depth IH]; intros key value; cbn [calculateNodeIDsHelper].
  - apply edits_ret. exact R_refl.
  - apply edits_bind; [exact R_trans | now apply edits_getChildren |]. intros r t.
    apply edits_bind; [exact R_trans | | intros; apply edits_ret; exact R_refl].
    apply edits_foldM. intros children ic. now apply edits_updateChild.
Qed.

Lemma edits_calculateNodeIDs_body order :
  edits R (calculateNodeIDs_body tokenSize parentTrie calculateID order).
Proof using R_refl R_trans R_invalidate R_childrenChanges R_rootID.
  unfold calculateNodeIDs_body.
  apply edits_bind; [exact R_trans | |].
  - apply edits_foldM. intros _ key t.
    destruct (values t !! key) as [c |]; [| apply R_refl].
    destruct (after c).
    + apply edits_bind; [exact R_trans | | intros; apply edits_ret; exact R_refl].
      apply edits_insert; auto.
    + apply edits_remove; auto.
  - intros _. apply edits_bind; [exact R_trans | now apply edits_getValue |].
    intros val t.
    pose proof (edits_calculateNodeIDsHelper (helperDepth t) emptyKey val t) as H.
    destruct (calculateNodeIDsHelper _ _ _ _ _ t) as [[id | e] t']; cbn [snd] in *.
    + destruct (isInvalid t'); cbn [snd];
        (eapply R_trans; [exact H | apply R_rootID]).
    + eapply R_trans; [exact H | apply R_rootID].
Qed.

Lemma edits_calculateNodeIDs order :
  edits R (calculateNodeIDs tokenSize parentTrie calculateID order).
Proof using R_refl R_trans R_invalidate R_childrenChanges R_rootID R_flags.
  intros t. unfold calculateNodeIDs.
  destruct (calculateNodesOnce t); [apply R_refl |].
  destruct (isInvalid _); [apply (proj1 (R_flags true t)) |].
  pose proof (edits_calculateNodeIDs_body order (set_calculateNodesOnce true t)) as H.
  destruct (calculateNodeIDs_body _ _ _ _ _) as [r t']. cbn [snd] in *.
  eapply R_trans; [apply (proj1 (R_flags true t)) |].
  eapply R_trans; [exact H | apply (proj2 (R_flags true t'))].
Qed.

End Coarse.


(** ** Reading the changes of a view *)

Section ViewValues.

Set Default Proof Using "Type".

Variable tokenSize : Z.
Variable parentTrie : TrieView.

Local Abbreviation getValue := (getValue parentTrie).
Local Abbreviation recordValueChange := (recordValueChange parentTrie).

(** [newTrieView], [GetValue], [GetValues] *)
Lemma foldM_map {A B C} (g : A -> C) (f : B -> C -> M B) (l : list A) :
  forall b t, foldM (fun b a => f b (g a)) l b t = foldM f (map g l) b t.
Proof.
  induction l as [| a l IH]; intros b t; [reflexivity |].
  cbn [foldM map]. unfold bind. destruct (f b (g a) t) as [[b' | e] t']; [| reflexivity].
  apply IH.
Qed.

Lemma foldM_app {A B} (f : B -> A -> M B) (l1 l2 : list A) :
  forall b t, foldM f (l1 ++ l2) b t = (let* b' := foldM f l1 b in foldM f l2 b') t.
Proof.
  induction l1 as [| a l1 IH]; intros b t; [reflexivity |].
  cbn [foldM app]. unfold bind in *. destruct (f b a t) as [[b' | e] t']; [| reflexivity].
  apply IH.
Qed.

Lemma recordValueChange_keeps key value t :
  let t' := snd (recordValueChange key value t) in
  childrenChanges t' = childrenChanges t
  /\ committed t' = committed t
  /\ nodesAlreadyCalculated t' = nodesAlreadyCalculated t
  /\ calculateNodesOnce t' = calculateNodesOnce t
  /\ rootID t' = rootID t
  /\ (childViews t = [] -> childViews t' = []).
Proof.
  unfold merkledb.recordValueChange.
  destruct (nodesAlreadyCalculated t) eqn:Hnac; [cbn; repeat split; auto |].
  destruct (values t !! key); [cbn; repeat split; auto |].
  unfold bind, callParent, modify. cbn [fst snd].
  destruct (fst (tv_getValue parentTrie key));
    destruct (snd (tv_getValue parentTrie key)); cbn; repeat split; auto.
Qed.

Lemma recordValueChanges_keeps ops :
  forall t,
    let t' := snd (recordValueChanges parentTrie ops t) in
    childrenChanges t' = childrenChanges t
    /\ committed t' = committed t
    /\ nodesAlreadyCalculated t' = nodesAlreadyCalculated t
    /\ calculateNodesOnce t' = calculateNodesOnce t
    /\ rootID t' = rootID t
    /\ (childViews t = [] -> childViews t' = []).
Proof.
  unfold recordValueChanges.
  induction ops as [| [k v] ops IH]; intros t; [cbn; repeat split; auto |].
  cbn [foldM fst snd]. unfold bind.
  pose proof (recordValueChange_keeps k v t) as H.
  destruct (merkledb.recordValueChange parentTrie k v t) as [[[] | e] t1];
    cbn [snd] in *; [| exact H].
  specialize (IH t1). cbn zeta in IH.
  destruct H as (H1 & H2 & H3 & H4 & H5 & H6).
  destruct IH as (I1 & I2 & I3 & I4 & I5 & I6).
  repeat split; try congruence. auto.
Qed.

Lemma newTrieView_record changes v :
  newTrieView tokenSize parentTrie changes = Ok v ->
  exists rootChildren,
    fst (tv_getChildren parentTrie emptyKey) = Ok rootChildren
    /\ recordValueChanges parentTrie (changes_ops tokenSize changes)
         {| committed := false; nodesAlreadyCalculated := false;
            calculateNodesOnce := false; invalidated := false; childViews := [];
            values := ∅; rootID := ids_Empty;
            childrenChanges := {[ emptyKey := rootChildren ]} |}
       = (Ok tt, v).
Proof.
  unfold newTrieView. intros Hnew.
  destruct (fst (tv_getChildren parentTrie emptyKey)) as [rootChildren | e];
    [| destruct (errors_Is _ _); discriminate].
  exists rootChildren. split; [reflexivity |].
  unfold recordValueChanges, changes_ops.
  rewrite foldM_app. unfold bind in *.
  rewrite <- foldM_map. cbn [fst snd].
  destruct (foldM _ (BatchOps changes) tt _) as [[[] | e] t1]; [| discriminate].
  rewrite <- foldM_map. cbn [fst snd].
  destruct (foldM _ (MapOps changes) tt t1) as [[[] | e] t2]; [| discriminate].
  congruence.
Qed.

Lemma getValueCopy_getValue key t :
  getValueCopy parentTrie key t = getValue key t.
Proof.
  unfold getValueCopy, bind, ret.
  destruct (merkledb.getValue parentTrie key t) as [[v | e] t']; reflexivity.
Qed.

Lemma GetValue_getValue key t :
  GetValue tokenSize parentTrie key t
  = match getValue (ToKey tokenSize key) t with
    | (Ok (Some v), t') => (Ok v, t')
    | (Ok None, t') => (Err database_ErrNotFound, t')
    | (Err e, t') => (Err e, t')
    end.
Proof.
  unfold GetValue, bind. rewrite getValueCopy_getValue.
  destruct (merkledb.getValue parentTrie _ t) as [[[v |] | e] t']; reflexivity.
Qed.

Lemma newTrieView_shape changes v :
  newTrieView tokenSize parentTrie changes = Ok v ->
  (exists rootChildren,
      fst (tv_getChildren parentTrie emptyKey) = Ok rootChildren
      /\ childrenChanges v = {[ emptyKey := rootChildren ]})
  /\ committed v = false /\ nodesAlreadyCalculated v = false
  /\ calculateNodesOnce v = false /\ childViews v = [].
Proof.
  intros Hnew.
  destruct (newTrieView_record changes v Hnew) as (rootChildren & Hroot & Hrec).
  match type of Hrec with
  | recordValueChanges _ _ ?t0 = _ =>
      pose proof (recordValueChanges_keeps (changes_ops tokenSize changes) t0) as Hkeeps
  end.
  cbn zeta in Hkeeps. rewrite Hrec in Hkeeps.
  cbn [snd childrenChanges committed nodesAlreadyCalculated calculateNodesOnce
       rootID childViews] in Hkeeps.
  destruct Hkeeps as (Hcc & Hcommitted & Hnac & Honce & _ & Hchildren).
  split; [exists rootChildren; auto |].
  split; [exact Hcommitted |]. split; [exact Hnac |]. split; [exact Honce |].
  apply Hchildren. reflexivity.
Qed.

(** X4.  The view [newTrieView] builds holds the root children of its
    parent trie as its only node change, is neither committed nor
    calculated and tracks no children.  Unless it was invalidated while it
    was built, it reads its own changes: [GetValue] of a key returns the
    value of the last operation on that key (the batch operations come
    before the map operations), fails with [database.ErrNotFound] when that
    operation deletes the key, and asks the parent trie when no operation
    names the key. *)
Theorem newTrieView_reads_changes changes v :
  newTrieView tokenSize parentTrie changes = Ok v ->
  (exists rootChildren,
      fst (tv_getChildren parentTrie emptyKey) = Ok rootChildren
      /\ childrenChanges v = {[ emptyKey := rootChildren ]})
  /\ committed v = false /\ nodesAlreadyCalculated v = false
  /\ calculateNodesOnce v = false /\ childViews v = []
  /\ (invalidated v = false ->
      forall key,
        match lastValue (changes_ops tokenSize changes) (ToKey tokenSize key) with
        | Some (Some value) =>
            GetValue tokenSize parentTrie key v = (Ok value, v)
        | Some None =>
            GetValue tokenSize parentTrie key v = (Err database_ErrNotFound, v)
        | None =>
            values v !! ToKey tokenSize key = None
            /\ fst (GetValue tokenSize parentTrie key v)
               = match tv_getValue parentTrie (ToKey tokenSize key) with
                 | (Ok (Some value), false) => Ok value
                 | (Ok None, false) => Err database_ErrNotFound
                 | (Ok _, true) => Err ErrInvalid
                 | (Err err, _) => Err err
                 end
        end).
Proof.
  intros Hnew.
  destruct (newTrieView_shape changes v Hnew)
    as (Hroot & Hcommitted & Hnac & Honce & Hchildren).
  destruct (newTrieView_record changes v Hnew) as (rootChildren & _ & Hrec).
  split; [exact Hroot |].
  split; [exact Hcommitted |]. split; [exact Hnac |]. split; [exact Honce |].
  split; [exact Hchildren |].
  intros Hvalid key.
  pose proof (recordValueChanges_lookup parentTrie _ _ _ Hrec (ToKey tokenSize key))
    as Hlookup.
  destruct (lastValue _ _) as [[value |] |].
  - destruct Hlookup as (b & Hb & _).
    rewrite GetValue_getValue.
    rewrite (getValue_pending parentTrie _ _ _ Hvalid Hb). reflexivity.
  - destruct Hlookup as (b & Hb & _).
    rewrite GetValue_getValue.
    rewrite (getValue_pending parentTrie _ _ _ Hvalid Hb). reflexivity.
  - cbn [values] in Hlookup. rewrite lookup_empty in Hlookup.
    split; [exact Hlookup |].
    rewrite GetValue_getValue. unfold merkledb.getValue, isInvalid.
    rewrite Hvalid, Hlookup. unfold callParent.
    destruct (tv_getValue parentTrie (ToKey tokenSize key)) as [[[value |] | err] []];
      cbn; rewrite ?Hvalid; reflexivity.
Qed.

Lemma getValue_quiet key t :
  quiet parentTrie -> snd (getValue key t) = t.
Proof.
  intros Hquiet. unfold merkledb.getValue.
  destruct (isInvalid t) eqn:Hinv; [reflexivity |].
  destruct (values t !! key); [reflexivity |].
  unfold callParent. destruct (Hquiet key) as [-> _]. cbn [fst snd].
  destruct (fst (tv_getValue parentTrie key)); [| reflexivity].
  rewrite Hinv. reflexivity.
Qed.

(** X5.  Over a parent trie that answers without the view being
    invalidated in the meantime, [GetValues] leaves the view as it is and
    fills the slot of each key with what [GetValue] returns for that key:
    the value and a nil error, or a nil value and the error. *)
Theorem GetValues_GetValue keys t :
  quiet parentTrie ->
  GetValues tokenSize parentTrie keys t
  = (map (fun key => match fst (GetValue tokenSize parentTrie key t) with
                     | Ok value => Some value
                     | Err _ => None
                     end) keys,
     map (fun key => match fst (GetValue tokenSize parentTrie key t) with
                     | Ok _ => None
                     | Err err => Some err
                     end) keys,
     t).
Proof.
  intros Hquiet. induction keys as [| key keys IH]; [reflexivity |].
  cbn [GetValues map]. rewrite getValueCopy_getValue, GetValue_getValue.
  pose proof (getValue_quiet (ToKey tokenSize key) t Hquiet) as Hsame.
  destruct (merkledb.getValue parentTrie (ToKey tokenSize key) t) as [[[value |] | e] t1];
    cbn [snd] in Hsame; subst t1; rewrite IH; reflexivity.
Qed.

End ViewValues.

(** ** More on the methods of a view *)

Section More.

Set Default Proof Using "Type".

Variable tokenSize : Z.
Variable parentTrie : TrieView.
Variable calculateID : Key -> nodeChildren -> Maybe (list N) -> ID.
Variable sha256 : list N -> list N.
Variable NewIteratorWithStart : trieView -> list N -> list KeyValue * option error.

Local Abbreviation getValue := (getValue parentTrie).
Local Abbreviation getChildren := (getChildren parentTrie).
Local Abbreviation getChildrenInternal := (getChildrenInternal parentTrie).
Local Abbreviation recordValueChange := (recordValueChange parentTrie).
Local Abbreviation insert := (insert tokenSize parentTrie).
Local Abbreviation remove := (remove tokenSize parentTrie).
Local Abbreviation compressNodePath := (compressNodePath tokenSize parentTrie).
Local Abbreviation calculateNodeIDs := (calculateNodeIDs tokenSize parentTrie calculateID).
Local Abbreviation GetMerkleRoot := (GetMerkleRoot tokenSize parentTrie calculateID).
Local Abbreviation getProof := (getProof tokenSize parentTrie sha256).
Local Abbreviation GetProof := (GetProof tokenSize parentTrie calculateID sha256).
Local Abbreviation GetRangeProof :=
  (GetRangeProof tokenSize parentTrie calculateID sha256 NewIteratorWithStart).
Local Abbreviation visitPathToKey := (visitPathToKey tokenSize parentTrie).

Lemma untouched_off_path_refl key t : untouched_off_path key t t.
Proof. intros k _. reflexivity. Qed.

Lemma untouched_off_path_trans key t1 t2 t3 :
  untouched_off_path key t1 t2 -> untouched_off_path key t2 t3 ->
  untouched_off_path key t1 t3.
Proof. intros H12 H23 k Hk. rewrite (H23 k Hk). apply H12. exact Hk. Qed.

Lemma untouched_off_path_store key (k : Key) m t :
  k `prefix_of` key ->
  untouched_off_path key t (set_childrenChanges (<[k := m]> (childrenChanges t)) t).
Proof.
  intros Hk k' Hk'. cbn. apply lookup_insert_ne. intros ->. contradiction.
Qed.

(** X6.  [insert] writes only to nodes on the path to its key: the node
    changes recorded for a key that is not a prefix of the inserted key are
    what they were, whatever [insert] returns; the recorded values, the
    root ID and the flags are what they were, and the view can only have
    become invalid. *)
Theorem insert_touches_path_only key t :
  untouched_off_path key t (snd (insert key t))
  /\ steps t (snd (insert key t)).
Proof.
  split; [| apply frames_insert].
  apply (edits_insert tokenSize parentTrie key (untouched_off_path key)).
  - apply untouched_off_path_refl.
  - apply untouched_off_path_trans.
  - intros t0 k _. reflexivity.
  - intros k m t0. apply untouched_off_path_store.
Qed.

(** X7.  [remove] writes only to nodes on the path to its key, and only
    to node changes, in the same sense as [insert]. *)
Theorem remove_touches_path_only key t :
  untouched_off_path key t (snd (remove key t))
  /\ steps t (snd (remove key t)).
Proof.
  split; [| apply frames_remove].
  apply (edits_remove tokenSize parentTrie key (untouched_off_path key)).
  - apply untouched_off_path_refl.
  - apply untouched_off_path_trans.
  - intros t0 k _. reflexivity.
  - intros k m t0. apply untouched_off_path_store.
Qed.

Lemma lengthening_snoc (l : list Key) (k0 k : Key) :
  lengthening (l ++ [k0]) -> length k0 < length k ->
  lengthening ((l ++ [k0]) ++ [k]).
Proof.
  intros Hl Hlt. induction l as [| x l IH].
  - cbn. auto.
  - cbn [app lengthening] in *. destruct Hl as [Hx Hl].
    split; [| apply IH; exact Hl].
    destruct l; exact Hx.
Qed.

Lemma traced_step {A} (visitNode : Key -> mapRef -> A -> M A) k r acc tr t :
  traced visitNode k r (acc, tr) t
  = match visitNode k r acc t with
    | (Ok a', t') => (Ok (a', tr ++ [k]), t')
    | (Err e, t') => (Err e, t')
    end.
Proof. reflexivity. Qed.

(** Running the traced walk is running the walk. *)
Lemma traced_visitPathLoop {A} (visitNode : Key -> mapRef -> A -> M A) key :
  forall rounds currentKey currentChildren acc tr t,
    match visitPathLoop tokenSize parentTrie rounds key visitNode
                        currentKey currentChildren acc t with
    | (Ok a, t') =>
        exists tr',
          visitPathLoop tokenSize parentTrie rounds key (traced visitNode)
                        currentKey currentChildren (acc, tr) t = (Ok (a, tr'), t')
    | (Err e, t') =>
        visitPathLoop tokenSize parentTrie rounds key (traced visitNode)
                      currentKey currentChildren (acc, tr) t = (Err e, t')
    end.
Proof.
  induction rounds as [| rounds IH]; intros currentKey r acc tr t;
    cbn [visitPathLoop].
  - destruct (_ <? _)%Z; eauto.
  - destruct (_ <? _)%Z; [| eauto].
    destruct (children_lookup _ _) as [entry |]; [| eauto].
    destruct (negb _); [eauto |].
    unfold bind.
    destruct (merkledb.getChildrenInternal _ _ t) as [[r' | e] t1]; [| reflexivity].
    rewrite !traced_step.
    destruct (visitNode _ r' acc t1) as [[acc' | e] t2]; [| reflexivity].
    apply IH.
Qed.

(** X8.  [visitPathToKey] calls the visitor on the root first and then on
    prefixes of the key, each strictly longer than the one before: listing
    the keys of the calls changes neither the result nor the view, and the
    list starts with the empty key, holds prefixes of the key only and
    grows in length. *)
Theorem visitPathToKey_visits {A} (visitNode : Key -> mapRef -> A -> M A) key acc t :
  (0 < tokenSize)%Z ->
  match visitPathToKey key visitNode acc t with
  | (Ok a, t') =>
      exists rest,
        visitPathToKey key (traced visitNode) (acc, []) t
        = (Ok (a, emptyKey :: rest), t')
        /\ Forall (fun k : Key => k `prefix_of` key) (emptyKey :: rest)
        /\ lengthening (emptyKey :: rest)
  | (Err e, t') =>
      visitPathToKey key (traced visitNode) (acc, []) t = (Err e, t')
  end.
Proof.
  intros Hts.
  set (I := fun (k : Key) (a : A * list Key) =>
              exists init,
                snd a = init ++ [k]
                /\ (exists rest, snd a = emptyKey :: rest)
                /\ Forall (fun k : Key => k `prefix_of` key) (snd a)
                /\ lengthening (snd a)).
  destruct (visitPathToKey_walk tokenSize parentTrie key (fun _ _ => True)
              (fun _ => Logic.I) (fun _ _ _ _ _ => Logic.I) (fun _ => Logic.I)
              I (traced visitNode) (acc, []))
    with (t := t) as [_ Hres].
  { intros r t0. split; [exact Logic.I |]. intros a' t'.
    unfold traced, bind, ret. cbn [fst snd].
    destruct (visitNode emptyKey r acc t0) as [[a1 | e] t1]; [| discriminate].
    intros [= <- <-]. exists []. cbn.
    split; [reflexivity |]. split; [eauto |].
    split; [| auto]. constructor; [apply prefix_nil | constructor]. }
  { intros k0 k r a t0 (init & Hinit & (rest & Hrest) & Hall & Hlen) Hk Hlt.
    split; [exact Logic.I |]. intros a' t'.
    unfold traced, bind, ret.
    destruct (visitNode k r (fst a) t0) as [[a1 | e] t1]; [| discriminate].
    intros [= <- <-]. exists (snd a). cbn [snd].
    split; [reflexivity |]. split; [| split].
    - rewrite Hrest. cbn. eauto.
    - apply Forall_app. split; [exact Hall |]. constructor; [exact Hk | constructor].
    - rewrite Hinit. apply lengthening_snoc; [rewrite <- Hinit; exact Hlen |].
      apply Hlt. exact Hts. }
  unfold merkledb.visitPathToKey in *. unfold bind in *.
  rewrite ?traced_step. setoid_rewrite traced_step in Hres.
  destruct (visitNode emptyKey (load emptyKey t) acc t) as [[acc' | e] t1];
    [| reflexivity].
  pose proof (traced_visitPathLoop visitNode key (length key) emptyKey
                (load emptyKey t) acc' ([] ++ [emptyKey]) t1) as Hsim.
  destruct (visitPathLoop _ _ _ _ visitNode _ _ acc' t1) as [[a | e] t2];
    [| exact Hsim].
  destruct Hsim as [tr' Htr'].
  destruct (Hres _ _ Htr') as (k' & init & _ & (rest & Hrest) & Hall & Hlen).
  cbn [snd] in *. subst tr'. exists rest. auto.
Qed.

(** [getLengthOfCommonPrefix] *)
Lemma commonPrefixLoop_spec (first second : Key) (o : nat) :
  (0 < tokenSize)%Z ->
  forall rounds i,
    i <= length first ->
    take i first = take i (drop o second) ->
    length first <= i + rounds ->
    exists n,
      commonPrefixLoop tokenSize rounds first second
                       (tokenSize * Z.of_nat o) (tokenSize * Z.of_nat i)
      = (tokenSize * Z.of_nat n)%Z
      /\ i <= n <= length first
      /\ take n first = take n (drop o second)
      /\ (n = length first \/ length second <= n + o
          \/ first !! n <> second !! (n + o)).
Proof.
  intros Hts. unfold Key in *.
  induction rounds as [| rounds IH]; intros i Hi Htake Hrounds.
  - exists i. cbn [commonPrefixLoop].
    split; [reflexivity |]. split; [lia |]. split; [exact Htake |]. left. lia.
  - cbn [commonPrefixLoop]. unfold Key_length, Key_Token.
    replace (tokenSize * Z.of_nat i + tokenSize * Z.of_nat o)%Z
      with (tokenSize * Z.of_nat (i + o))%Z by lia.
    rewrite !(tokens_of_mul _ _ Hts).
    destruct (Z.ltb_spec (tokenSize * Z.of_nat i) (tokenSize * Z.of_nat (length first)))
      as [Hlt1 | Hge1]; cbn [andb].
    2: { exists i. split; [reflexivity |]. split; [lia |]. split; [exact Htake |].
         left. nia. }
    destruct (Z.ltb_spec (tokenSize * Z.of_nat (i + o))
                         (tokenSize * Z.of_nat (length second)))
      as [Hlt2 | Hge2]; cbn [andb].
    2: { exists i. split; [reflexivity |]. split; [lia |]. split; [exact Htake |].
         right. left. nia. }
    assert (Hi1 : i < length first) by nia.
    assert (Hi2 : i + o < length second) by nia.
    destruct (lookup_lt_is_Some_2 first i Hi1) as [x Hx].
    destruct (lookup_lt_is_Some_2 second (i + o) Hi2) as [y Hy].
    rewrite (nth_lookup_Some _ _ _ _ Hx), (nth_lookup_Some _ _ _ _ Hy).
    destruct (N.eqb_spec x y) as [-> | Hne].
    + replace (tokenSize * Z.of_nat i + tokenSize)%Z
        with (tokenSize * Z.of_nat (S i))%Z by lia.
      destruct (IH (S i)) as (n & Hn & Hrange & Htaken & Hmax).
      * lia.
      * rewrite (take_S_r _ _ _ Hx).
        rewrite (take_S_r (drop o second) i y)
          by (rewrite lookup_drop, Nat.add_comm; exact Hy).
        rewrite Htake. reflexivity.
      * lia.
      * exists n. split; [exact Hn |]. split; [lia |]. split; assumption.
    + exists i. split; [reflexivity |]. split; [lia |]. split; [exact Htake |].
      right. right. rewrite Hx, Hy. congruence.
Qed.

(** X9.  [getLengthOfCommonPrefix] returns the length in bits of the
    longest common prefix of [first] and of [second] from the offset on:
    the tokens before that length agree, and at that length [first] ends,
    or [second] ends, or the two tokens differ. *)
Theorem getLengthOfCommonPrefix_common (first second : Key) (o : nat) :
  (0 < tokenSize)%Z ->
  exists n,
    getLengthOfCommonPrefix tokenSize first second (tokenSize * Z.of_nat o)
    = (tokenSize * Z.of_nat n)%Z
    /\ n <= length first
    /\ take n first = take n (drop o second)
    /\ (n = length first \/ length second <= n + o
        \/ first !! n <> second !! (n + o)).
Proof.
  intros Hts. unfold getLengthOfCommonPrefix.
  destruct (commonPrefixLoop_spec first second o Hts (length first) 0)
    as (n & Hn & Hrange & Htake & Hmax); try lia; [reflexivity |].
  exists n. rewrite Z.mul_0_r in Hn.
  split; [exact Hn |]. split; [lia |]. split; assumption.
Qed.

(** [calculateNodeIDs] and [GetMerkleRoot] *)
Lemma calculateNodeIDs_body_keeps order t :
  let t' := snd (calculateNodeIDs_body tokenSize parentTrie calculateID order t) in
  values t' = values t /\ committed t' = committed t
  /\ (invalidated t = true -> invalidated t' = true).
Proof.
  unfold calculateNodeIDs_body, bind.
  pose proof (frames_apply_changes tokenSize parentTrie order t) as H1.
  destruct (foldM _ order tt t) as [[[] | e] t1]; cbn [snd] in *.
  2: { destruct H1 as (Hc & _ & _ & Hv & _ & Hi). auto. }
  pose proof (frames_getValue parentTrie emptyKey t1) as H2.
  pose proof (steps_trans _ _ _ H1 H2) as H12. clear H1 H2.
  destruct (merkledb.getValue _ _ t1) as [[val | e] t2]; cbn [snd] in *.
  2: { destruct H12 as (Hc & _ & _ & Hv & _ & Hi). auto. }
  pose proof (frames_calculateNodeIDsHelper parentTrie calculateID
                (helperDepth t2) emptyKey val t2) as H3.
  pose proof (steps_trans _ _ _ H12 H3) as H. clear H12 H3.
  destruct (calculateNodeIDsHelper _ _ _ _ _ t2) as [[id | e] t3]; cbn [snd] in *;
    destruct H as (Hc & _ & _ & Hv & _ & Hi);
    [destruct (isInvalid t3) |]; cbn; auto.
Qed.

Lemma calculateNodeIDs_keeps order t :
  let t' := snd (calculateNodeIDs order t) in
  values t' = values t /\ committed t' = committed t
  /\ (invalidated t = true -> invalidated t' = true).
Proof.
  unfold merkledb.calculateNodeIDs.
  destruct (calculateNodesOnce t); [cbn; auto |].
  destruct (isInvalid _) eqn:Hinv; [cbn; auto |].
  pose proof (calculateNodeIDs_body_keeps order (set_calculateNodesOnce true t)) as H.
  destruct (calculateNodeIDs_body _ _ _ _ _) as [r t']. exact H.
Qed.

(** X10.  Once [GetMerkleRoot] has returned a root, every later call
    returns that root and leaves the view as it is, in whatever order the
    later call would range over the changes.  The call changed neither the
    recorded values nor [committed]; when it was the first to calculate the
    node IDs the view was valid, and the view is sealed afterwards:
    [recordValueChange] fails with [ErrNodesAlreadyCalculated]. *)
Theorem GetMerkleRoot_stable order t root t1 :
  GetMerkleRoot order t = (Ok root, t1) ->
  (forall order', GetMerkleRoot order' t1 = (Ok root, t1))
  /\ rootID t1 = root
  /\ values t1 = values t
  /\ committed t1 = committed t
  /\ (calculateNodesOnce t = false ->
      invalidated t = false
      /\ nodesAlreadyCalculated t1 = true
      /\ forall key value,
           recordValueChange key value t1 = (Err ErrNodesAlreadyCalculated, t1)).
Proof.
  intros Hroot. unfold merkledb.GetMerkleRoot, bind in Hroot.
  pose proof (calculateNodeIDs_done tokenSize parentTrie calculateID order t) as Hdone.
  pose proof (calculateNodeIDs_keeps order t) as (Hvalues & Hcommitted & _).
  destruct (merkledb.calculateNodeIDs _ _ _ order t) as [[[] | e] t'] eqn:Hcalc;
    [| discriminate].
  injection Hroot as <- <-. cbn [snd] in *.
  split; [| split; [reflexivity | split; [exact Hvalues | split; [exact Hcommitted |]]]].
  - intros order'. unfold merkledb.GetMerkleRoot, bind.
    rewrite (calculateNodeIDs_again _ _ _ order' t' Hdone). reflexivity.
  - intros Honce.
    assert (Hvalid : invalidated t = false).
    { unfold merkledb.calculateNodeIDs in Hcalc. rewrite Honce in Hcalc.
      unfold isInvalid in Hcalc. cbn [invalidated set_calculateNodesOnce] in Hcalc.
      destruct (invalidated t); [discriminate | reflexivity]. }
    assert (Hsealed : nodesAlreadyCalculated t' = true).
    { pose proof (calculateNodeIDs_sets_flag tokenSize parentTrie calculateID
                    order t Honce Hvalid) as H.
      rewrite Hcalc in H. exact H. }
    split; [exact Hvalid | split; [exact Hsealed |]].
    intros key value. unfold merkledb.recordValueChange. rewrite Hsealed. reflexivity.
Qed.

(** [recordValueChange] and [getValue] *)
(** X11.  A view reads what it recorded: after a [recordValueChange] that
    left the view valid, [getValue] of that key returns the recorded value
    without changing the view, and [getValue] of every other key returns
    what it returned before. *)
Theorem getValue_after_recordValueChange key value t t' :
  recordValueChange key value t = (Ok tt, t') ->
  invalidated t' = false ->
  getValue key t' = (Ok value, t')
  /\ forall key', key' <> key -> fst (getValue key' t') = fst (getValue key' t).
Proof.
  intros Hrec Hvalid.
  destruct (recordValueChange_ok parentTrie key value t t' Hrec) as (b & Hvalues & _).
  assert (Hvalid0 : invalidated t = false).
  { pose proof Hrec as H. unfold merkledb.recordValueChange in H.
    destruct (nodesAlreadyCalculated t); [discriminate |].
    destruct (values t !! key).
    - injection H as <-. exact Hvalid.
    - unfold bind, callParent, modify in H. cbn [fst snd] in H.
      destruct (fst (tv_getValue parentTrie key)); [| discriminate].
      injection H as <-. cbn in Hvalid.
      destruct (snd (tv_getValue parentTrie key)); [discriminate | exact Hvalid]. }
  split.
  - unfold merkledb.getValue, isInvalid. rewrite Hvalid, Hvalues.
    rewrite lookup_insert_eq. reflexivity.
  - intros key' Hne. unfold merkledb.getValue, isInvalid.
    rewrite Hvalid, Hvalid0, Hvalues.
    rewrite lookup_insert_ne by congruence.
    destruct (values t !! key'); [reflexivity |].
    unfold callParent. cbn [fst snd].
    destruct (fst (tv_getValue parentTrie key')); [| reflexivity].
    destruct (snd (tv_getValue parentTrie key')); cbn; rewrite ?Hvalid, ?Hvalid0;
      reflexivity.
Qed.

(** [getProof] and [GetRangeProof] *)
Lemma getProof_rootKey t :
  getProof rootKey t
  = match getValue emptyKey t with
    | (Ok value, t1) =>
        (Ok {| Proof_Key := emptyKey;
               Proof_Value := value;
               Proof_Path := [asProofNode sha256 emptyKey
                                          (deref t1 (load emptyKey t)) value] |},
         t1)
    | (Err err, t1) => (Err err, t1)
    end.
Proof.
  unfold merkledb.getProof, merkledb.visitPathToKey, bind. cbv zeta.
  change (ToKey tokenSize rootKey) with emptyKey.
  unfold getProof_visit at 1. unfold bind.
  destruct (merkledb.getValue parentTrie emptyKey t) as [[value | err] t1];
    [| reflexivity].
  cbn [length emptyKey visitPathLoop]. rewrite Z.ltb_irrefl.
  cbn [pv_closestKey]. rewrite bool_decide_eq_true_2 by reflexivity.
  reflexivity.
Qed.

(** X12.  With neither bound given and an iterator that yields nothing,
    [GetRangeProof] returns the root proof: no key-value pairs, no start
    proof, and as end proof the single proof node of the root with the
    children and the value the view has for it. *)
Theorem GetRangeProof_empty_range order maxLength t t1 value t2 :
  (0 < maxLength)%Z ->
  calculateNodeIDs order t = (Ok tt, t1) ->
  NewIteratorWithStart t1 [] = ([], None) ->
  getValue emptyKey t1 = (Ok value, t2) ->
  GetRangeProof order None None maxLength t
  = (Ok {| StartProof := [];
           EndProof := [asProofNode sha256 emptyKey (deref t2 (load emptyKey t1)) value];
           KeyValues := [] |}, t2).
Proof.
  intros Hmax Hcalc Hit Hvalue. unfold merkledb.GetRangeProof.
  cbn [startAfterEnd]. destruct (Z.leb_spec maxLength 0) as [Hle | _]; [lia |].
  rewrite (bind_ok _ _ _ _ _ Hcalc). cbn [default]. rewrite Hit.
  cbn [collectKeyValues last]. unfold bind at 1 2 3. unfold ret at 1 2.
  cbn [is_empty andb]. unfold bind. rewrite getProof_rootKey, Hvalue. unfold ret.
  cbn [Proof_Path].
  assert (Hvalid : isInvalid t2 = false).
  { unfold merkledb.getValue in Hvalue. unfold isInvalid in *.
    destruct (invalidated t1) eqn:Hinv1; [discriminate |].
    destruct (values t1 !! emptyKey).
    - injection Hvalue as _ <-. exact Hinv1.
    - destruct (callParent _ t1) as [[v | e] t']; [| discriminate].
      destruct (invalidated t') eqn:Hinv'; [discriminate |].
      injection Hvalue as _ <-. exact Hinv'. }
  rewrite Hvalid. reflexivity.
Qed.

Lemma collectKeyValues_maximal end_ maxLength entries :
  forall itErr acc keyValues err,
    collectKeyValues entries itErr end_ maxLength acc = (keyValues, err) ->
    exists taken rest,
      entries = taken ++ rest
      /\ keyValues = acc ++ taken
      /\ ((rest = [] /\ err = itErr)
          \/ (err = None
              /\ exists kv rest',
                   rest = kv :: rest'
                   /\ ((maxLength <= Z.of_nat (length keyValues))%Z
                       \/ exists e, end_ = Some e
                                    /\ bytes_Compare (kv_Key kv) e = 1%Z))).
Proof.
  induction entries as [| kv entries IH]; intros itErr acc keyValues err Hcol;
    cbn [collectKeyValues] in Hcol.
  - injection Hcol as <- <-. exists [], []. rewrite !app_nil_r.
    split; [reflexivity |]. split; [reflexivity |]. left. split; reflexivity.
  - destruct (Z.ltb_spec (Z.of_nat (length acc)) maxLength) as [Hlt | Hge];
      cbn [andb] in Hcol.
    + destruct (match end_ with
                | Some e => (bytes_Compare (kv_Key kv) e <=? 0)%Z
                | None => true
                end) eqn:Hend.
      * apply IH in Hcol as (taken & rest & -> & -> & Hrest).
        exists (kv :: taken), rest. rewrite <- app_assoc.
        split; [reflexivity |]. split; [reflexivity |].
        rewrite <- app_assoc in Hrest. exact Hrest.
      * injection Hcol as <- <-. exists [], (kv :: entries). rewrite app_nil_r.
        split; [reflexivity |]. split; [reflexivity |]. right.
        split; [reflexivity |]. exists kv, entries. split; [reflexivity |]. right.
        destruct end_ as [e |]; [| discriminate]. exists e. split; [reflexivity |].
        destruct (Z.leb_spec (bytes_Compare (kv_Key kv) e) 0); [discriminate |].
        destruct (pebble_facts.bytes_Compare_range (kv_Key kv) e) as [E | [E | E]]; lia.
    + injection Hcol as <- <-. exists [], (kv :: entries). rewrite app_nil_r.
      split; [reflexivity |]. split; [reflexivity |]. right.
      split; [reflexivity |]. exists kv, entries. split; [reflexivity |]. left. lia.
Qed.

Lemma stripCommon_spec (startProof : list ProofNode) :
  forall endProof,
  exists n,
    stripCommon startProof endProof = drop n startProof
    /\ n <= length startProof /\ n <= length endProof
    /\ map pn_Key (take n startProof) = map pn_Key (take n endProof)
    /\ (n = length startProof \/ n = length endProof
        \/ pn_Key <$> startProof !! n <> pn_Key <$> endProof !! n).
Proof.
  induction startProof as [| s startProof IH]; intros endProof.
  - exists 0. cbn [length]. split; [destruct endProof; reflexivity |].
    split; [lia |]. split; [lia |]. split; [reflexivity |]. left. reflexivity.
  - destruct endProof as [| e endProof].
    + exists 0. cbn [length]. split; [reflexivity |].
      split; [lia |]. split; [lia |]. split; [reflexivity |]. right. left. reflexivity.
    + cbn [stripCommon].
      destruct (bool_decide_reflect (pn_Key s = pn_Key e)) as [Heq | Hne].
      * destruct (IH endProof) as (n & Hn & Hs & He & Hkeys & Hmax).
        exists (S n). cbn [drop take map length].
        split; [exact Hn |]. split; [lia |]. split; [lia |].
        split; [congruence |].
        destruct Hmax as [-> | [-> | Hdiff]]; auto.
      * exists 0. cbn [length]. split; [reflexivity |].
        split; [lia |]. split; [lia |]. split; [reflexivity |].
        right. right. cbn. congruence.
Qed.

(** X13.  The key-value pairs of a range proof are the longest run the
    iterator allows: they are the pairs the iterator yields from its start,
    up to the end of the iterator (which then holds no error), or up to
    [maxLength] pairs, or up to the first key after [end_].  The start
    proof is empty without a start key.  With a start key the end proof is
    the one [endProofStep] builds on the view as [calculateNodeIDs] left
    it, the start proof is built by [getProof] of the start key on the
    view as the end proof left it, which is also the view [GetRangeProof]
    ends in, and [StartProof] is the path of that proof without its longest
    run of leading nodes whose keys are the keys of the end proof at the
    same places. *)
Theorem GetRangeProof_takes_all order start end_ maxLength t rp t' :
  GetRangeProof order start end_ maxLength t = (Ok rp, t') ->
  let t1 := snd (calculateNodeIDs order t) in
  let it := NewIteratorWithStart t1 (default [] start) in
  (exists rest,
      fst it = KeyValues rp ++ rest
      /\ ((rest = [] /\ snd it = None)
          \/ exists kv rest',
               rest = kv :: rest'
               /\ (Z.of_nat (length (KeyValues rp)) = maxLength
                   \/ exists e, end_ = Some e
                                /\ bytes_Compare (kv_Key kv) e = 1%Z)))
  /\ (start = None -> StartProof rp = [])
  /\ (forall s, start = Some s ->
        exists t2 pf n,
          endProofStep tokenSize parentTrie sha256 (KeyValues rp) end_ t1
          = (Ok (EndProof rp), t2)
          /\ getProof s t2 = (Ok pf, t')
          /\ StartProof rp = drop n (Proof_Path pf)
          /\ n <= length (Proof_Path pf) /\ n <= length (EndProof rp)
          /\ map pn_Key (take n (Proof_Path pf)) = map pn_Key (take n (EndProof rp))
          /\ (n = length (Proof_Path pf) \/ n = length (EndProof rp)
              \/ pn_Key <$> Proof_Path pf !! n <> pn_Key <$> EndProof rp !! n)).
Proof.
  intros Hrun t1 it. subst it t1. unfold merkledb.GetRangeProof in Hrun.
  destruct (startAfterEnd start end_) eqn:Hse; [discriminate |].
  destruct (Z.leb_spec maxLength 0) as [Hmax | Hmax]; [discriminate |].
  unfold bind in Hrun.
  destruct (merkledb.calculateNodeIDs _ _ _ order t) as [[[] | e] t1];
    [| discriminate].
  cbn [snd].
  destruct (NewIteratorWithStart t1 (default [] start)) as [entries itErr].
  cbn [fst snd].
  destruct (collectKeyValues entries itErr end_ maxLength [])
    as [keyValues [err |]] eqn:Hcol; [discriminate |].
  pose proof (collectKeyValues_spec _ _ _ _ _ _ _ Hcol)
    as (taken0 & rest0 & Hentries0 & HkeyValues0 & Hlen & _).
  apply collectKeyValues_maximal in Hcol as (taken & rest & -> & -> & Hrest).
  cbn [app] in *. subst taken0.
  match type of Hrun with
  | match ?m t1 with _ => _ end = _ =>
      destruct (m t1) as [[endProof | e] t2] eqn:HendProof; [| discriminate]
  end.
  match type of Hrun with
  | match ?m t2 with _ => _ end = _ =>
      destruct (m t2) as [[startProof | e] t3] eqn:HstartProof; [| discriminate]
  end.
  match type of Hrun with
  | match ?m t3 with _ => _ end = _ =>
      destruct (m t3) as [[endProof' | e] t4] eqn:Hroot; [| discriminate]
  end.
  destruct (isInvalid t4); [discriminate |].
  injection Hrun as <- <-. cbn [KeyValues EndProof StartProof].
  split; [| split].
  - exists rest. split; [reflexivity |].
    destruct Hrest as [[-> ->] | (_ & kv & rest' & -> & Hstop)]; [left; auto |].
    right. exists kv, rest'. split; [reflexivity |].
    destruct Hstop as [Hfull | Hend]; [left | right; exact Hend].
    destruct taken as [| kv0 taken]; [cbn in Hfull; lia |].
    assert ((Z.of_nat (length (kv0 :: taken)) <= maxLength)%Z)
      by (apply Hlen; discriminate).
    lia.
  - intros ->. injection HstartProof as <- _. reflexivity.
  - intros s ->. unfold bind in HstartProof.
    destruct (merkledb.getProof _ _ _ s t2) as [[pf | e] t5] eqn:Hpf; [| discriminate].
    injection HstartProof as <- <-.
    pose proof (getProof_path_nonempty _ _ _ _ _ _ _ Hpf) as Hnonempty.
    destruct (stripCommon_spec (Proof_Path pf) endProof)
      as (n & Hn & Hs & He & Hkeys & Hmaximal).
    assert (HendProof' : endProof' = endProof /\ t4 = t5).
    { destruct (is_empty (stripCommon (Proof_Path pf) endProof)) eqn:Hs1;
        [| cbn [andb] in Hroot; injection Hroot as <- <-; split; reflexivity].
      destruct (is_empty endProof) eqn:He1;
        [| cbn [andb] in Hroot; injection Hroot as <- <-; split; reflexivity].
      destruct endProof; [| discriminate]. exfalso.
      destruct (Proof_Path pf); [congruence | discriminate]. }
    destruct HendProof' as [-> ->].
    exists t2, pf, n.
    split; [exact HendProof |]. split; [exact Hpf |]. auto 10.
Qed.

(** X14.  The path of a proof starts at the root and descends: the key
    of the first node is the empty key, each node has a strictly longer key
    than the one before, and every node but the last has a key that is a
    prefix of the key of the proof.  When the proof holds a value, the last
    node is the node of the key and carries the digest of that value. *)
Theorem getProof_path_shape key t pf t' :
  (0 < tokenSize)%Z ->
  getProof key t = (Ok pf, t') ->
  Proof_Key pf = ToKey tokenSize key
  /\ (exists rest, map pn_Key (Proof_Path pf) = emptyKey :: rest)
  /\ lengthening (map pn_Key (Proof_Path pf))
  /\ (forall i n, S i < length (Proof_Path pf) -> Proof_Path pf !! i = Some n ->
                  pn_Key n `prefix_of` Proof_Key pf)
  /\ (forall value, Proof_Value pf = Some value ->
        exists n, last (Proof_Path pf) = Some n
                  /\ pn_Key n = Proof_Key pf
                  /\ pn_ValueOrHash n = Some (valueDigest sha256 value)).
Proof.
  intros Hts Hrun. unfold merkledb.getProof in Hrun. cbv zeta in Hrun.
  set (proofKey := ToKey tokenSize key) in *.
  set (I := fun (k : Key) (v : proofVars) =>
              pv_closestKey v = k
              /\ (exists init, map pn_Key (pv_Path v) = init ++ [k])
              /\ (exists rest, map pn_Key (pv_Path v) = emptyKey :: rest)
              /\ Forall (fun k : Key => k `prefix_of` proofKey) (map pn_Key (pv_Path v))
              /\ lengthening (map pn_Key (pv_Path v))
              /\ exists n, last (pv_Path v) = Some n
                           /\ pn_Key n = k
                           /\ pn_ValueOrHash n
                              = valueDigest sha256 <$> pv_closestValue v).
  destruct (visitPathToKey_walk tokenSize parentTrie proofKey (fun _ _ => True)
              (fun _ => Logic.I) (fun _ _ _ _ _ => Logic.I) (fun _ => Logic.I)
              I (getProof_visit parentTrie sha256)
              {| pv_closestKey := emptyKey;
                 pv_closestChildren := Detached None;
                 pv_closestValue := None;
                 pv_Path := [] |}) with (t := t) as [_ Hres].
  { intros r t0. split; [exact Logic.I |]. intros a' t1.
    unfold getProof_visit, bind.
    destruct (merkledb.getValue parentTrie emptyKey t0) as [[value | e] t2];
      [| discriminate].
    intros [= <- <-]. unfold I. cbn.
    split; [reflexivity |]. split; [exists []; reflexivity |].
    split; [eauto |]. split; [constructor; [apply prefix_nil | constructor] |].
    split; [auto |]. eexists. split; [reflexivity |]. split; reflexivity. }
  { intros k0 k r a t0 (Hclosest & (init & Hinit) & (rest & Hrest) & Hall & Hlen & _)
           Hk Hlt.
    split; [exact Logic.I |]. intros a' t1.
    unfold getProof_visit, bind.
    destruct (merkledb.getValue parentTrie k t0) as [[value | e] t2];
      [| discriminate].
    intros [= <- <-]. unfold I. cbn [pv_closestKey pv_Path pv_closestValue].
    rewrite map_app. cbn [map asProofNode pn_Key].
    split; [reflexivity |]. split; [eauto |].
    split; [rewrite Hrest; cbn; eauto |].
    split; [apply Forall_app; split; [exact Hall | constructor; [exact Hk | constructor]] |].
    split.
    - rewrite Hinit. apply lengthening_snoc; [rewrite <- Hinit; exact Hlen |].
      apply Hlt. exact Hts.
    - eexists. split; [apply last_snoc |]. split; reflexivity. }
  unfold bind in Hrun.
  destruct (merkledb.visitPathToKey _ _ proofKey _ _ t) as [[v | e] t1] eqn:Hwalk;
    [| discriminate].
  destruct (Hres v t1 eq_refl)
    as (k' & Hclosest & (init & Hinit) & Hhead & Hall & Hlen & n & Hlast & Hn & Hdigest).
  assert (Hprefixes : forall i m, pv_Path v !! i = Some m -> pn_Key m `prefix_of` proofKey).
  { intros i m Hm. rewrite Forall_forall in Hall. apply Hall.
    apply list_elem_of_In, in_map, list_elem_of_In. eapply list_elem_of_lookup_2, Hm. }
  destruct (bool_decide_reflect (pv_closestKey v = proofKey)) as [Hexact | Hother].
  - injection Hrun as <- <-. cbn [Proof_Key Proof_Value Proof_Path].
    split; [reflexivity |]. split; [exact Hhead |]. split; [exact Hlen |].
    split; [intros i m _; apply Hprefixes |].
    intros value Hvalue. exists n. rewrite Hvalue in Hdigest.
    split; [exact Hlast |]. split; [congruence | exact Hdigest].
  - destruct (children_lookup _ _) as [child |].
    + unfold bind in Hrun.
      destruct (merkledb.getChildren _ _ t1) as [[cc | e] t2]; [| discriminate].
      destruct (merkledb.getValue _ _ t2) as [[cv | e] t3]; [| discriminate].
      destruct (isInvalid t3); [discriminate |].
      injection Hrun as <- <-. cbn [Proof_Key Proof_Value Proof_Path].
      split; [reflexivity |].
      rewrite map_app. cbn [map asProofNode pn_Key].
      split; [destruct Hhead as [rest ->]; cbn; eauto |].
      split.
      { rewrite Hinit. apply lengthening_snoc; [rewrite <- Hinit; exact Hlen |].
        rewrite Hclosest. rewrite length_Key_Extend. lia. }
      split; [| discriminate].
      intros i m Hi Hm. rewrite length_app in Hi. cbn [length] in Hi.
      rewrite lookup_app_l in Hm by lia. eapply Hprefixes, Hm.
    + injection Hrun as <- <-. cbn [Proof_Key Proof_Value Proof_Path].
      split; [reflexivity |]. split; [exact Hhead |]. split; [exact Hlen |].
      split; [intros i m _; apply Hprefixes | discriminate].
Qed.

(** [invalidate] *)
Lemma reachable_allocated rank (h : heap) a b :
  ranked rank h -> is_Some (h !! a) -> reachable h a b -> is_Some (h !! b).
Proof.
  intros Hranked Ha Hreach. induction Hreach as [a | a t c b Hha Hc _ IH];
    [exact Ha |].
  apply IH. apply (Hranked a t c Hha Hc).
Qed.

(** X15.  [invalidate] writes the validity fields only: it allocates no
    view, and in each view the recorded values and node changes, the root
    ID, [committed] and the two calculation flags are what they were; no
    flag [invalidated] is cleared and no child registry grows. *)
Theorem invalidate_writes_validity_only rank (h : heap) a depth :
  ranked rank h -> is_Some (h !! a) -> rank a < depth ->
  exists h',
    invalidate depth a h = Some h'
    /\ (forall b, h !! b = None -> h' !! b = None)
    /\ (forall b t,
          h !! b = Some t ->
          exists t',
            h' !! b = Some t'
            /\ values t' = values t
            /\ childrenChanges t' = childrenChanges t
            /\ rootID t' = rootID t
            /\ committed t' = committed t
            /\ nodesAlreadyCalculated t' = nodesAlreadyCalculated t
            /\ calculateNodesOnce t' = calculateNodesOnce t
            /\ (invalidated t = true -> invalidated t' = true)
            /\ (childViews t' = childViews t \/ childViews t' = [])).
Proof.
  intros Hranked Ha Hdepth.
  destruct (invalidate_sound rank h Hranked depth a h (tracks_refl h) Hdepth Ha)
    as (h' & Hrun & Htracks & _ & _ & Hout).
  exists h'. split; [exact Hrun |]. split.
  - intros b Hb. rewrite Hout; [exact Hb |].
    intros Hreach. apply (reachable_allocated rank h a b Hranked Ha) in Hreach.
    rewrite Hb in Hreach. destruct Hreach as [x Hx]. discriminate.
  - intros b t Hb. destruct (Htracks b t Hb) as (t' & Hb' & Heq & Hflag & Hchildren).
    exists t'. split; [exact Hb' |].
    rewrite Heq. cbn. repeat split; try reflexivity.
    + rewrite Heq in Hflag. exact Hflag.
    + rewrite Heq in Hchildren. cbn in Hchildren.
      destruct Hchildren as [Hc | [Hc _]]; auto.
Qed.

(** Recording a child *)
Lemma Key_Token_middle (key : Key) token rest :
  (0 < tokenSize)%Z ->
  Key_Token tokenSize (key ++ token :: rest) (Key_length tokenSize key) = token.
Proof.
  intros Hts. unfold Key_Token, Key_length. rewrite (tokens_of_mul _ _ Hts).
  apply nth_middle.
Qed.

Lemma Key_Skip_middle (key : Key) token rest :
  (0 < tokenSize)%Z ->
  Key_Skip tokenSize (key ++ token :: rest) (Key_length tokenSize key + tokenSize) = rest.
Proof.
  intros Hts. unfold Key_Skip, Key_length.
  replace (tokenSize * Z.of_nat (length key) + tokenSize)%Z
    with (tokenSize * Z.of_nat (S (length key)))%Z by lia.
  rewrite (tokens_of_mul _ _ Hts).
  change (key ++ token :: rest) with (key ++ [token] ++ rest).
  rewrite app_assoc. rewrite drop_app_length'; [reflexivity |].
  rewrite length_app. cbn. lia.
Qed.

(** X16.  [recordChildChange] of a child key that extends the key of the
    node records the edge that leads to that child: under the token that
    follows the key of the node, with the rest of the child key as the
    compressed key, so that extending the key of the node by the entry gives
    the child key back.  The other entries of the node are those the view
    had recorded for it (none when it had recorded no map), and no other
    node changes.  [recordChildRemoved] of the same child key then deletes
    that entry and nothing else. *)
Theorem recordChildChange_round_trip (key : Key) token (rest : Key) id t :
  (0 < tokenSize)%Z ->
  let childKey := key ++ token :: rest in
  let entry := {| compressedKey := rest; child_id := id; hasValue := false |} in
  let t1 := snd (recordChildChange tokenSize key childKey id t) in
  let t2 := snd (recordChildRemoved tokenSize key childKey t1) in
  Key_Extend key [ToToken token; compressedKey entry] = childKey
  /\ (forall k : Key, k <> key ->
        childrenChanges t1 !! k = childrenChanges t !! k
        /\ childrenChanges t2 !! k = childrenChanges t !! k)
  /\ exists m,
       childrenChanges t1 !! key = Some (Some m)
       /\ m !! token = Some entry
       /\ (forall i, i <> token ->
             m !! i = children_lookup (default None (childrenChanges t !! key)) i)
       /\ childrenChanges t2 !! key = Some (Some (delete token m)).
Proof.
  intros Hts childKey entry t1 t2.
  assert (Ht1 : childrenChanges t1
                = <[key := Some (<[token := entry]>
                                   (default ∅ (default None (childrenChanges t !! key))))]>
                    (childrenChanges t)).
  { subst t1. unfold recordChildChange, recordChildEntry. subst childKey.
    rewrite (Key_Token_middle _ _ _ Hts), (Key_Skip_middle _ _ _ Hts).
    destruct (childrenChanges t !! key) as [[existing |] |]; cbn;
      rewrite ?insert_empty; reflexivity. }
  assert (Ht2 : childrenChanges t2
                = <[key := Some (delete token
                                   (<[token := entry]>
                                      (default ∅ (default None (childrenChanges t !! key)))))]>
                    (childrenChanges t1)).
  { subst t2. unfold recordChildRemoved. subst childKey.
    rewrite (Key_Token_middle _ _ _ Hts).
    rewrite Ht1 at 1. rewrite lookup_insert_eq. reflexivity. }
  split; [| split].
  - unfold Key_Extend, ToToken. subst childKey entry. cbn. rewrite app_nil_r. reflexivity.
  - intros k Hk. rewrite Ht2, Ht1.
    rewrite !lookup_insert_ne by congruence. split; reflexivity.
  - exists (<[token := entry]> (default ∅ (default None (childrenChanges t !! key)))).
    split; [rewrite Ht1; apply lookup_insert_eq |].
    split; [apply lookup_insert_eq |]. split.
    + intros i Hi. rewrite lookup_insert_ne by congruence.
      destruct (childrenChanges t !! key) as [[existing |] |]; reflexivity.
    + rewrite Ht2. apply lookup_insert_eq.
Qed.

(** [NewView] *)
Lemma keeps_registry_refl t : keeps_registry t t.
Proof. left. auto. Qed.

Lemma keeps_registry_trans t1 t2 t3 :
  keeps_registry t1 t2 -> keeps_registry t2 t3 -> keeps_registry t1 t3.
Proof.
  intros [[H1 H2] | [H1 H2]] [[H3 H4] | [H3 H4]]; unfold keeps_registry.
  - left. split; congruence.
  - right. auto.
  - right. split; congruence.
  - right. auto.
Qed.

Lemma calculateNodeIDs_keeps_registry order t :
  keeps_registry t (snd (calculateNodeIDs order t)).
Proof.
  apply (edits_calculateNodeIDs tokenSize parentTrie calculateID keeps_registry).
  - apply keeps_registry_refl.
  - apply keeps_registry_trans.
  - intros t0. right. auto.
  - intros cc t0. left. auto.
  - intros r t0. left. auto.
  - intros b t0. split; left; auto.
Qed.

Lemma recordValueChanges_quiet (parent : TrieView) ops :
  quiet parent ->
  forall t,
    invalidated (snd (recordValueChanges parent ops t)) = invalidated t.
Proof.
  intros Hquiet. unfold recordValueChanges.
  induction ops as [| [k v] ops IH]; intros t; [reflexivity |].
  cbn [foldM fst snd]. unfold bind.
  assert (Hstep : invalidated (snd (merkledb.recordValueChange parent k v t))
                  = invalidated t).
  { unfold merkledb.recordValueChange.
    destruct (nodesAlreadyCalculated t); [reflexivity |].
    destruct (values t !! k); [reflexivity |].
    unfold bind, callParent, modify. destruct (Hquiet k) as [-> _].
    destruct (fst (tv_getValue parent k)); reflexivity. }
  destruct (merkledb.recordValueChange parent k v t) as [[[] | e] t1];
    cbn [snd] in *; [| exact Hstep].
  rewrite IH. exact Hstep.
Qed.

Lemma view_as_TrieView_quiet t : quiet (view_as_TrieView parentTrie t).
Proof. intros key. split; reflexivity. Qed.

(** X17.  When [NewView] on an uncommitted view of a forest of views
    returns a view, that view sits at a fresh address, is the one
    [newTrieView] builds on the calculated parent, is valid and tracks no
    children; the parent is the calculated view with the new address added
    at the end of its registry, and every other view is as it was.  The
    heap is a forest again, and invalidating the parent invalidates the new
    view with it. *)
Theorem NewView_registers rank (h : heap) a ta parent_NewView order changes new h' :
  ranked rank h ->
  h !! a = Some ta -> committed ta = false ->
  NewView tokenSize calculateID parentTrie parent_NewView order a changes h
  = Some (Ok new, h') ->
  let t1 := snd (calculateNodeIDs order ta) in
  h !! new = None
  /\ (forall b, b <> a -> b <> new -> h' !! b = h !! b)
  /\ h' !! a = Some (set_validity false (childViews ta ++ [new]) t1)
  /\ (exists newView,
        h' !! new = Some newView
        /\ newTrieView tokenSize (view_as_TrieView parentTrie t1) changes = Ok newView
        /\ invalidated newView = false /\ childViews newView = []
        /\ committed newView = false)
  /\ ranked (fun x => if decide (x = new) then 0 else S (rank x)) h'
  /\ forall depth,
       S (rank a) < depth ->
       exists h'',
         invalidate depth a h' = Some h''
         /\ dead h'' a /\ dead h'' new
         /\ forall b, ~ reachable h' a b -> h'' !! b = h' !! b.
Proof.
  intros Hranked Ha Hcommitted Hrun t1.
  unfold NewView in Hrun. rewrite Ha in Hrun. injection Hrun as Hrun.
  unfold isInvalid in Hrun.
  destruct (invalidated ta) eqn:Hvalid; [discriminate |].
  rewrite Hcommitted in Hrun.
  pose proof (calculateNodeIDs_keeps_registry order ta) as Hkeeps.
  fold t1 in Hkeeps.
  destruct (merkledb.calculateNodeIDs _ _ _ order ta) as [[[] | e] t1'] eqn:Hcalc;
    [| discriminate].
  cbn [snd] in t1. subst t1.
  destruct (newTrieView tokenSize (view_as_TrieView parentTrie t1') changes)
    as [newView | e] eqn:Hnew; [| discriminate].
  destruct (invalidated t1') eqn:Hvalid1; [discriminate |].
  injection Hrun as <- <-.
  assert (Hchildren1 : childViews t1' = childViews ta).
  { destruct Hkeeps as [[_ Hc] | [Hi _]]; [exact Hc | congruence]. }
  rewrite Hchildren1.
  set (new := fresh (dom h)).
  assert (Hfresh : h !! new = None).
  { apply not_elem_of_dom. apply is_fresh. }
  assert (Hne : a <> new) by (intros Heq; rewrite Heq in Ha; congruence).
  set (ta' := set_validity false (childViews ta ++ [new]) t1').
  set (h' := <[new := newView]> (<[a := ta']> h)).
  assert (Hha' : h' !! a = Some ta').
  { subst h'. rewrite lookup_insert_ne by congruence. apply lookup_insert_eq. }
  assert (Hhnew : h' !! new = Some newView) by apply lookup_insert_eq.
  assert (Hother : forall b, b <> a -> b <> new -> h' !! b = h !! b).
  { intros b Hb1 Hb2. subst h'. rewrite !lookup_insert_ne by congruence. reflexivity. }
  destruct (newTrieView_shape _ _ _ _ Hnew)
    as (_ & HnewCommitted & _ & _ & HnewChildren).
  assert (HnewValid : invalidated newView = false).
  { destruct (newTrieView_record _ _ _ _ Hnew) as (rootChildren & _ & Hrec).
    match type of Hrec with
    | recordValueChanges _ _ ?t0 = _ =>
        pose proof (recordValueChanges_quiet _ (changes_ops tokenSize changes)
                      (view_as_TrieView_quiet t1') t0) as Hq
    end.
    rewrite Hrec in Hq. exact Hq. }
  set (rank' := fun x => if decide (x = new) then 0 else S (rank x)).
  assert (Hranked' : ranked rank' h').
  { intros b tb c Hb Hc. subst rank'. cbv beta.
    destruct (decide (b = new)) as [-> | Hbnew].
    { rewrite Hhnew in Hb. injection Hb as <-. rewrite HnewChildren in Hc.
      apply elem_of_nil in Hc. contradiction. }
    assert (Hc' : c = new \/ exists tb0, h !! b = Some tb0 /\ c ∈ childViews tb0).
    { destruct (decide (b = a)) as [-> | Hba].
      - rewrite Hha' in Hb. injection Hb as <-. cbn [ta' childViews set_validity] in Hc.
        apply elem_of_app in Hc as [Hc | Hc]; [right; eauto |].
        left. apply list_elem_of_singleton in Hc. exact Hc.
      - rewrite (Hother b Hba Hbnew) in Hb. right. eauto. }
    destruct Hc' as [-> | (tb0 & Hb0 & Hc0)].
    - rewrite decide_True by reflexivity. split; [lia | rewrite Hhnew; eauto].
    - destruct (Hranked b tb0 c Hb0 Hc0) as [Hlt [tc Htc]].
      assert (Hcnew : c <> new) by (intros ->; congruence).
      rewrite decide_False by exact Hcnew. split; [lia |].
      destruct (decide (c = a)) as [-> | Hca]; [rewrite Hha'; eauto |].
      rewrite (Hother c Hca Hcnew), Htc. eauto. }
  split; [exact Hfresh |]. split; [exact Hother |]. split; [exact Hha' |].
  split; [exists newView; auto 10 |]. split; [exact Hranked' |].
  intros depth Hdepth.
  destruct (invalidate_sound rank' h' Hranked' depth a h' (tracks_refl h'))
    as (h'' & Hinv & _ & Hdead & _ & Hout).
  { subst rank'. cbv beta. rewrite decide_False by exact Hne. exact Hdepth. }
  { rewrite Hha'. eauto. }
  exists h''. split; [exact Hinv |]. split; [apply Hdead; constructor |].
  split; [| exact Hout].
  apply Hdead. apply (reach_child h' a ta' new new Hha'); [| constructor].
  cbn [ta' childViews set_validity]. apply elem_of_app. right.
  apply list_elem_of_singleton. reflexivity.
Qed.

(** [compressNodePath] *)
Lemma getValue_childrenChanges key t :
  childrenChanges (snd (getValue key t)) = childrenChanges t.
Proof.
  unfold merkledb.getValue.
  destruct (isInvalid t); [reflexivity |].
  destruct (values t !! key); [reflexivity |].
  unfold callParent. cbn [fst snd].
  destruct (fst (tv_getValue parentTrie key));
    destruct (snd (tv_getValue parentTrie key)); cbn;
    try destruct (isInvalid t); reflexivity.
Qed.

(** X18.  [compressNodePath] on a node without a value that has exactly
    one child, below a parent with a map, merges the node into its edge:
    the node is recorded as deleted and the parent gets, under the token
    that led to the node, the edge to that child, whose compressed key is
    the rest of the key of the node followed by the index and the
    compressed key of the child, with the ID of the child as it was.  The
    edge leads to the key the child had, the other entries of the parent
    are those the view had recorded, and no other node changes. *)
Theorem compressNodePath_links_child parent (parentKey : Key) node token (rest : Key)
        index entry t t1 :
  (0 < tokenSize)%Z ->
  nodesAlreadyCalculated t = false ->
  is_nil parent t = false ->
  deref t node = Some {[ index := entry ]} ->
  let nodeKey := parentKey ++ token :: rest in
  getValue nodeKey t = (Ok None, t1) ->
  let merged := {| compressedKey := rest ++ index :: compressedKey entry;
                   child_id := child_id entry;
                   hasValue := false |} in
  let t' := snd (compressNodePath parent parentKey node nodeKey t) in
  fst (compressNodePath parent parentKey node nodeKey t) = Ok tt
  /\ Key_Extend parentKey [ToToken token; compressedKey merged]
     = Key_Extend nodeKey [ToToken index; compressedKey entry]
  /\ childrenChanges t' !! nodeKey = Some None
  /\ (exists m,
        childrenChanges t' !! parentKey = Some (Some m)
        /\ m !! token = Some merged
        /\ forall i, i <> token ->
             m !! i = children_lookup (default None (childrenChanges t !! parentKey)) i)
  /\ forall k : Key, k <> nodeKey -> k <> parentKey ->
       childrenChanges t' !! k = childrenChanges t !! k.
Proof.
  intros Hts Hnac Hparent Hnode nodeKey Hvalue merged t'.
  assert (Hne : parentKey <> nodeKey).
  { subst nodeKey. intros Heq. apply (f_equal length) in Heq.
    rewrite length_app in Heq. cbn in Heq. lia. }
  assert (Hcc1 : childrenChanges t1 = childrenChanges t).
  { pose proof (getValue_childrenChanges nodeKey t) as H.
    rewrite Hvalue in H. exact H. }
  assert (Hrun : compressNodePath parent parentKey node nodeKey t
                 = (Ok tt,
                    set_childrenChanges
                      (<[parentKey :=
                           Some (<[token := merged]>
                                   (default ∅ (default None (childrenChanges t !! parentKey))))]>
                         (<[nodeKey := None]> (childrenChanges t))) t1)).
  { unfold merkledb.compressNodePath. rewrite Hnac, Hparent, Hnode.
    cbn [children_len children_entries orb]. rewrite map_size_singleton.
    cbn [Nat.eqb negb]. rewrite Hvalue, map_to_list_singleton.
    unfold bind, recordNodeDeleted, store, modify.
    unfold recordChildChange, recordChildEntry.
    cbn [childrenChanges set_childrenChanges].
    rewrite lookup_insert_ne by congruence. rewrite Hcc1.
    replace (Key_Extend nodeKey [ToToken index; compressedKey entry])
      with (parentKey ++ token :: (rest ++ index :: compressedKey entry)).
    2: { unfold Key_Extend, ToToken. subst nodeKey. cbn.
         rewrite app_nil_r, <- app_assoc. reflexivity. }
    rewrite (Key_Token_middle _ _ _ Hts), (Key_Skip_middle _ _ _ Hts).
    destruct (childrenChanges t !! parentKey) as [[existing |] |];
      unfold store, modify; cbn; rewrite ?insert_empty; reflexivity. }
  subst t'. rewrite Hrun. cbn [fst snd childrenChanges set_childrenChanges].
  split; [reflexivity |]. split.
  { unfold Key_Extend, ToToken. subst nodeKey merged. cbn.
    rewrite !app_nil_r, <- app_assoc. reflexivity. }
  split.
  { rewrite lookup_insert_ne by congruence. apply lookup_insert_eq. }
  split.
  - eexists. split; [apply lookup_insert_eq |].
    split; [apply lookup_insert_eq |].
    intros i Hi. rewrite lookup_insert_ne by congruence.
    destruct (childrenChanges t !! parentKey) as [[existing |] |]; reflexivity.
  - intros k Hk1 Hk2. rewrite !lookup_insert_ne by congruence. reflexivity.
Qed.

End More.

(** ** [insert] and [remove] directly below the root *)

Section UnderRoot.

Set Default Proof Using "Type".

Variable tokenSize : Z.
Variable parentTrie : TrieView.

Local Abbreviation insert := (insert tokenSize parentTrie).

Local Abbreviation remove := (remove tokenSize parentTrie).

Lemma tokens_of_first : (0 < tokenSize)%Z -> tokens_of tokenSize (Key_length tokenSize emptyKey) = 0.
Proof.
  intros Hts. unfold Key_length. apply (tokens_of_mul _ 0 Hts).
Qed.

Lemma tokens_of_second :
  (0 < tokenSize)%Z -> tokens_of tokenSize (Key_length tokenSize emptyKey + tokenSize) = 1.
Proof.
  intros Hts. unfold Key_length. cbn [length emptyKey].
  replace (tokenSize * Z.of_nat 0 + tokenSize)%Z with (tokenSize * Z.of_nat 1)%Z by lia.
  apply (tokens_of_mul _ 1 Hts).
Qed.

(** The walk of [insert] stops at the root when the root has no edge
    that the key follows to its end. *)
Lemma insert_walk_stops_at_root (key : Key) m t :
  (0 < tokenSize)%Z ->
  childrenChanges t !! emptyKey = Some (Some m) ->
  match key with
  | [] => True
  | token :: rest =>
      match m !! token with
      | None => True
      | Some existing => ~ compressedKey existing `prefix_of` rest
      end
  end ->
  visitPathToKey tokenSize parentTrie key (insert_visit tokenSize)
    {| iv_closestChildren := Detached None;
       iv_closestKey := emptyKey;
       iv_previousKey := None |} t
  = (Ok {| iv_closestChildren := Stored emptyKey;
           iv_closestKey := emptyKey;
           iv_previousKey := Some emptyKey |}, t).
Proof.
  intros Hts Hroot Hstop. unfold visitPathToKey, load. rewrite Hroot.
  unfold bind at 1. unfold insert_visit at 1. unfold bind, ret.
  cbn [iv_previousKey].
  destruct key as [| token rest];
    [cbn [length visitPathLoop]; rewrite Z.ltb_irrefl; reflexivity |].
  cbn [length visitPathLoop].
  destruct (Z.ltb_spec (Key_length tokenSize emptyKey) (Key_length tokenSize (token :: rest)))
    as [_ | Hge]; [| reflexivity].
  unfold deref. rewrite Hroot.
  change (default None (Some (Some m))) with (Some m). cbn [children_lookup].
  unfold Key_Token at 1. rewrite (tokens_of_first Hts). cbn [nth].
  destruct (m !! token) as [existing |]; [| reflexivity].
  replace (iteratedHasPrefix tokenSize (token :: rest) (compressedKey existing)
             (Key_length tokenSize emptyKey + tokenSize)) with false; [reflexivity |].
  symmetry. unfold iteratedHasPrefix.
  destruct (_ <? _)%Z; [reflexivity |].
  rewrite (tokens_of_second Hts). cbn [drop].
  apply bool_decide_eq_false_2. intros Heq. apply Hstop.
  rewrite <- Heq. apply prefix_take.
Qed.

Lemma insert_leaf_run (token : N) (rest : Key) m t :
  (0 < tokenSize)%Z ->
  nodesAlreadyCalculated t = false ->
  childrenChanges t !! emptyKey = Some (Some m) ->
  m !! token = None ->
  let key : Key := token :: rest in
  insert key t
  = (Ok (Stored key),
     set_childrenChanges
       (<[key := Some ∅]>
          (<[emptyKey := Some (<[token := {| compressedKey := rest;
                                             child_id := ids_Empty;
                                             hasValue := false |}]> m)]>
             (childrenChanges t))) t).
Proof.
  intros Hts Hnac Hroot Htoken key. unfold merkledb.insert. rewrite Hnac.
  rewrite (bind_ok _ _ _ _ _ (insert_walk_stops_at_root key m t Hts Hroot
                                ltac:(subst key; cbn; rewrite Htoken; exact I))).
  cbn [iv_closestChildren iv_closestKey].
  rewrite bool_decide_eq_false_2 by discriminate.
  unfold deref. rewrite Hroot.
  change (default None (Some (Some m))) with (Some m). cbn [children_lookup].
  unfold Key_Token at 1. rewrite (tokens_of_first Hts). cbn [nth key]. rewrite Htoken.
  unfold bind, recordChildChange, recordChildEntry, recordNewNode, store, modify, bind, ret.
  rewrite Hroot.
  unfold Key_Token, Key_Skip. rewrite (tokens_of_first Hts), (tokens_of_second Hts).
  reflexivity.
Qed.


(** X23.  Inserting a key below a root that the view holds a map for and
    that has no child under the first token of the key adds a leaf: the
    root gets an edge under that token whose compressed key is the rest of
    the key and whose ID is empty, the key gets a node without children,
    and nothing else changes. *)
Theorem insert_leaf_under_root (token : N) (rest : Key) m t :
  (0 < tokenSize)%Z ->
  nodesAlreadyCalculated t = false ->
  childrenChanges t !! emptyKey = Some (Some m) ->
  m !! token = None ->
  let key : Key := token :: rest in
  insert key t
  = (Ok (Stored key),
     set_childrenChanges
       (<[key := Some ∅]>
          (<[emptyKey := Some (<[token := {| compressedKey := rest;
                                             child_id := ids_Empty;
                                             hasValue := false |}]> m)]>
             (childrenChanges t))) t).
Proof. apply insert_leaf_run. Qed.

Lemma getLengthOfCommonPrefix_diverge (pre common : Key) x (a : Key) y (b : Key) :
  (0 < tokenSize)%Z -> x <> y ->
  getLengthOfCommonPrefix tokenSize (common ++ x :: a) (pre ++ common ++ y :: b)
                          (tokenSize * Z.of_nat (length pre))
  = (tokenSize * Z.of_nat (length common))%Z.
Proof.
  intros Hts Hxy. unfold getLengthOfCommonPrefix.
  destruct (commonPrefixLoop_spec tokenSize (common ++ x :: a) (pre ++ common ++ y :: b)
              (length pre) Hts (length (common ++ x :: a)) 0)
    as (n & Hn & Hrange & Htake & Hmax); try lia; [reflexivity |].
  unfold Key in *.
  rewrite Z.mul_0_r in Hn. rewrite Hn. do 2 f_equal.
  rewrite drop_app_length in Htake.
  rewrite !length_app in Hmax. rewrite length_app in Hrange.
  cbn [length] in Hmax, Hrange.
  destruct (Nat.lt_trichotomy n (length common)) as [Hlt | [Heq | Hgt]];
    [| exact Heq |]; exfalso.
  - destruct Hmax as [Hmax | [Hmax | Hmax]]; [lia | lia |].
    apply Hmax.
    rewrite lookup_app_l by exact Hlt.
    rewrite lookup_app_r by lia.
    replace (n + length pre - length pre) with n by lia.
    rewrite lookup_app_l by exact Hlt. reflexivity.
  - apply Hxy.
    assert (Hx : take n (common ++ x :: a) !! length common = Some x).
    { rewrite lookup_take_lt by exact Hgt. apply list_lookup_middle. reflexivity. }
    assert (Hy : take n (common ++ y :: b) !! length common = Some y).
    { rewrite lookup_take_lt by exact Hgt. apply list_lookup_middle. reflexivity. }
    rewrite Htake in Hx. congruence.
Qed.

(** X24.  Inserting a key that leaves an edge of the root part way
    splits the edge at a branch node: the edge of the root now leads to the
    branch node, whose key is the first token followed by the tokens the key
    and the old edge share, with an empty ID; the branch node gets the old
    child under the token where the old edge goes on, with the ID it had,
    and the new key under the token where the key goes on, with an empty ID;
    the key gets a node without children. *)
Theorem insert_splits_edge_under_root (token : N) (common : Key) x (ckRest : Key)
        y (keyRest : Key) existing m t :
  (0 < tokenSize)%Z ->
  nodesAlreadyCalculated t = false ->
  childrenChanges t !! emptyKey = Some (Some m) ->
  m !! token = Some existing ->
  compressedKey existing = common ++ x :: ckRest ->
  x <> y ->
  let key : Key := token :: common ++ y :: keyRest in
  let branchKey : Key := token :: common in
  let branch :=
    <[x := {| compressedKey := ckRest; child_id := child_id existing; hasValue := false |}]>
      (<[y := {| compressedKey := keyRest; child_id := ids_Empty; hasValue := false |}]>
         (default ∅ (default None (childrenChanges t !! branchKey)))) in
  insert key t
  = (Ok (Stored key),
     set_childrenChanges
       (<[key := Some ∅]>
          (<[branchKey := Some branch]>
             (<[emptyKey := Some (<[token := {| compressedKey := common;
                                                child_id := ids_Empty;
                                                hasValue := false |}]> m)]>
                (childrenChanges t)))) t).
Proof.
  intros Hts Hnac Hroot Htoken Hck Hxy key branchKey branch.
  unfold merkledb.insert. rewrite Hnac.
  assert (Hstop : ~ compressedKey existing `prefix_of` (common ++ y :: keyRest)).
  { rewrite Hck. intros [k Hk]. rewrite <- app_assoc in Hk.
    apply app_inv_head in Hk. cbn in Hk. congruence. }
  rewrite (bind_ok _ _ _ _ _ (insert_walk_stops_at_root key m t Hts Hroot
                                ltac:(subst key; cbn; rewrite Htoken; exact Hstop))).
  cbn [iv_closestChildren iv_closestKey].
  rewrite bool_decide_eq_false_2 by discriminate.
  unfold deref. rewrite Hroot.
  change (default None (Some (Some m))) with (Some m). cbn [children_lookup].
  unfold Key_Token at 1. rewrite (tokens_of_first Hts). cbn [nth key]. rewrite Htoken.
  assert (Hoff : (Key_length tokenSize emptyKey + tokenSize
                  = tokenSize * Z.of_nat (length [token]))%Z)
    by (unfold Key_length; cbn [length emptyKey]; lia).
  rewrite Hoff, Hck. clear Hoff.
  set (cpl := (tokenSize * Z.of_nat (length common))%Z).
  assert (Hcpl : getLengthOfCommonPrefix tokenSize (common ++ x :: ckRest) key
                   (tokenSize * Z.of_nat (length [token])) = cpl).
  { exact (getLengthOfCommonPrefix_diverge [token] common x ckRest y keyRest Hts Hxy). }
  rewrite Hcpl.
  destruct (Z.leb_spec (Key_length tokenSize (common ++ x :: ckRest)) cpl) as [Hle | _].
  { subst cpl. unfold Key_length in Hle. rewrite length_app in Hle.
    cbn [length] in Hle. nia. }
  assert (Hlen : (tokenSize * Z.of_nat (length [token]) + cpl
                  = Key_length tokenSize branchKey)%Z).
  { subst cpl branchKey. unfold Key_length. cbn [length]. lia. }
  rewrite Hlen.
  assert (Hbranch : Key_Take tokenSize key (Key_length tokenSize branchKey) = branchKey).
  { unfold Key_Take, Key_length. rewrite (tokens_of_mul _ _ Hts).
    subst key branchKey.
    change (token :: common ++ y :: keyRest) with ((token :: common) ++ y :: keyRest).
    apply take_app_length. }
  rewrite Hbranch.
  assert (Hne : (Key_length tokenSize key =? Key_length tokenSize branchKey)%Z = false).
  { apply Z.eqb_neq. subst key branchKey. unfold Key_length.
    cbn [length]. rewrite length_app. cbn [length]. nia. }
  rewrite Hne. cbn [negb when].
  assert (Hrootedge :
            recordChildChange tokenSize emptyKey branchKey ids_Empty t
            = (Ok tt,
               set_childrenChanges
                 (<[emptyKey := Some (<[token := {| compressedKey := common;
                                                    child_id := ids_Empty;
                                                    hasValue := false |}]> m)]>
                    (childrenChanges t)) t)).
  { unfold recordChildChange, recordChildEntry. rewrite Hroot.
    unfold Key_Token, Key_Skip. rewrite (tokens_of_first Hts), (tokens_of_second Hts).
    reflexivity. }
  rewrite (bind_ok _ _ _ _ _ Hrootedge).
  set (t1 := set_childrenChanges _ t).
  assert (Hcc1 : childrenChanges t1 !! branchKey = childrenChanges t !! branchKey).
  { subst t1. cbn [childrenChanges set_childrenChanges].
    apply lookup_insert_ne. discriminate. }
  set (leaf := {| compressedKey := keyRest; child_id := ids_Empty; hasValue := false |}).
  assert (Hleafedge :
            recordChildChange tokenSize branchKey key ids_Empty t1
            = (Ok tt,
               set_childrenChanges
                 (<[branchKey :=
                      Some (<[y := leaf]>
                              (default ∅ (default None (childrenChanges t !! branchKey))))]>
                    (childrenChanges t1)) t1)).
  { assert (Htok : Key_Token tokenSize key (Key_length tokenSize branchKey) = y)
      by (subst key branchKey;
          exact (Key_Token_middle tokenSize (token :: common) y keyRest Hts)).
    assert (Hskip : Key_Skip tokenSize key (Key_length tokenSize branchKey + tokenSize)
                    = keyRest)
      by (subst key branchKey;
          exact (Key_Skip_middle tokenSize (token :: common) y keyRest Hts)).
    unfold recordChildChange. rewrite Htok, Hskip.
    unfold recordChildEntry. rewrite Hcc1.
    destruct (childrenChanges t !! branchKey) as [[e |] |];
      cbn; rewrite ?insert_empty; reflexivity. }
  rewrite (bind_ok _ _ _ _ _ Hleafedge).
  set (t2 := set_childrenChanges _ t1).
  assert (Hx : Key_Token tokenSize (common ++ x :: ckRest) cpl = x).
  { subst cpl. apply (Key_Token_middle _ _ _ _ Hts). }
  assert (Hrest : Key_Skip tokenSize (common ++ x :: ckRest) (cpl + tokenSize) = ckRest).
  { subst cpl. apply (Key_Skip_middle _ _ _ _ Hts). }
  rewrite Hx, Hrest.
  unfold bind, recordChildEntry, recordNewNode, store, modify, bind, ret.
  subst t2. cbn [childrenChanges set_childrenChanges].
  rewrite lookup_insert_eq. cbn [fst snd].
  f_equal. subst t1. unfold set_childrenChanges.
  cbn [committed nodesAlreadyCalculated calculateNodesOnce invalidated childViews
       values rootID childrenChanges].
  f_equal. rewrite insert_insert_eq. reflexivity.
Qed.


Lemma remove_walk_to_leaf (token : N) (rest : Key) existing m t :
  (0 < tokenSize)%Z ->
  childrenChanges t !! emptyKey = Some (Some m) ->
  m !! token = Some existing ->
  compressedKey existing = rest ->
  let key : Key := token :: rest in
  childrenChanges t !! key = Some (Some ∅) ->
  visitPathToKey tokenSize parentTrie key (remove_visit tokenSize)
    {| rv_grandParentKey := emptyKey;
       rv_parentKey := emptyKey;
       rv_nodeToDeleteKey := emptyKey;
       rv_grandParent := Detached None;
       rv_parent := Detached None;
       rv_nodeToDelete := Detached None |} t
  = (Ok {| rv_grandParentKey := emptyKey;
           rv_parentKey := emptyKey;
           rv_nodeToDeleteKey := key;
           rv_grandParent := Detached None;
           rv_parent := Stored emptyKey;
           rv_nodeToDelete := Stored key |},
     set_childrenChanges
       (<[emptyKey := Some (<[token := {| compressedKey := rest;
                                          child_id := ids_Empty;
                                          hasValue := false |}]> m)]>
          (childrenChanges t)) t).
Proof.
  intros Hts Hroot Htoken Hck key Hleaf.
  unfold visitPathToKey, load. rewrite Hroot.
  unfold bind at 1. unfold remove_visit at 1.
  cbn [rv_parent rv_parentKey rv_nodeToDeleteKey rv_nodeToDelete rv_grandParent
       rv_grandParentKey].
  unfold is_nil at 1. cbn [deref negb when]. unfold bind at 1. unfold ret at 1 2.
  cbn [length key visitPathLoop].
  destruct (Z.ltb_spec (Key_length tokenSize emptyKey) (Key_length tokenSize key))
    as [_ | Hge].
  2: { unfold Key_length in Hge. cbn [length emptyKey key] in Hge. nia. }
  unfold deref at 1. rewrite Hroot.
  change (default None (Some (Some m))) with (Some m). cbn [children_lookup].
  unfold Key_Token at 1. rewrite (tokens_of_first Hts). cbn [nth key]. rewrite Htoken.
  assert (Hhas : iteratedHasPrefix tokenSize key (compressedKey existing)
                   (Key_length tokenSize emptyKey + tokenSize) = true).
  { unfold iteratedHasPrefix. rewrite Hck.
    destruct (Z.ltb_spec (Key_length tokenSize key
                          - (Key_length tokenSize emptyKey + tokenSize))
                         (Key_length tokenSize rest)) as [Hlt | _].
    { unfold Key_length in Hlt. cbn [length emptyKey key] in Hlt. nia. }
    rewrite (tokens_of_second Hts). cbn [drop key].
    apply bool_decide_eq_true_2. apply take_ge. lia. }
  rewrite Hhas. cbn [negb].
  assert (Hnext : Key_Take tokenSize key
                    (Key_length tokenSize emptyKey + tokenSize
                     + Key_length tokenSize (compressedKey existing)) = key).
  { unfold Key_Take, Key_length. rewrite Hck. cbn [length emptyKey].
    replace (tokenSize * Z.of_nat 0 + tokenSize + tokenSize * Z.of_nat (length rest))%Z
      with (tokenSize * Z.of_nat (length key))%Z by (cbn [length key]; lia).
    rewrite (tokens_of_mul _ _ Hts). apply take_ge. lia. }
  rewrite Hnext.
  unfold bind at 1. unfold getChildrenInternal. rewrite Hleaf.
  unfold bind at 1. unfold remove_visit at 1.
  cbn [rv_parent rv_parentKey rv_nodeToDeleteKey rv_nodeToDelete rv_grandParent
       rv_grandParentKey].
  unfold is_nil at 1. unfold deref at 1. rewrite Hroot.
  change (default None (Some (Some m))) with (Some m). cbn [negb when].
  unfold bind at 1.
  unfold recordPendingChildChange, recordChildEntry. rewrite Hroot.
  unfold Key_Token, Key_Skip. rewrite (tokens_of_first Hts), (tokens_of_second Hts).
  cbn [nth drop key store modify]. unfold store, modify, ret.
  destruct (length rest); cbn [visitPathLoop]; rewrite Z.ltb_irrefl; reflexivity.
Qed.

Lemma remove_leaf_run (token : N) (rest : Key) existing m t :
  (0 < tokenSize)%Z ->
  nodesAlreadyCalculated t = false ->
  invalidated t = false ->
  childrenChanges t !! emptyKey = Some (Some m) ->
  m !! token = Some existing ->
  compressedKey existing = rest ->
  let key : Key := token :: rest in
  childrenChanges t !! key = Some (Some ∅) ->
  remove key t
  = (Ok tt,
     set_childrenChanges
       (<[emptyKey := Some (delete token m)]>
          (<[key := None]> (childrenChanges t))) t).
Proof.
  intros Hts Hnac Hvalid Hroot Htoken Hck key Hleaf.
  unfold merkledb.remove. rewrite Hnac.
  unfold getChildren, isInvalid. rewrite Hvalid.
  unfold getChildrenInternal. rewrite Hleaf, Hvalid.
  unfold is_nil at 1. unfold deref at 1. rewrite Hleaf.
  change (default None (Some (Some ∅))) with (Some (∅ : gmap N child)). cbv iota.
  rewrite (bind_ok _ _ _ _ _
             (remove_walk_to_leaf token rest existing m t Hts Hroot Htoken Hck Hleaf)).
  cbn [rv_parent rv_parentKey rv_nodeToDeleteKey rv_nodeToDelete rv_grandParent
       rv_grandParentKey].
  fold key.
  set (t1 := set_childrenChanges _ t).
  assert (Hne : emptyKey <> key) by discriminate.
  assert (Hleaf1 : childrenChanges t1 !! key = Some (Some ∅)).
  { subst t1. cbn [childrenChanges set_childrenChanges].
    rewrite lookup_insert_ne by exact Hne. exact Hleaf. }
  unfold deref at 1. rewrite Hleaf1.
  change (default None (Some (Some ∅))) with (Some (∅ : gmap N child)).
  cbn [children_len]. rewrite map_size_empty. cbn [Nat.eqb negb].
  unfold bind at 1. unfold recordNodeDeleted, store, modify.
  assert (Hne' : key <> emptyKey) by discriminate.
  unfold is_nil, deref. cbn [childrenChanges set_childrenChanges].
  rewrite lookup_insert_ne by exact Hne'.
  subst t1. cbn [childrenChanges set_childrenChanges].
  rewrite lookup_insert_eq.
  change (default None (Some (Some ?x))) with (Some x). cbn [negb].
  unfold bind, recordChildRemoved. cbn [childrenChanges set_childrenChanges].
  rewrite lookup_insert_ne by exact Hne'. rewrite lookup_insert_eq.
  unfold Key_Token. rewrite (tokens_of_first Hts). cbn [nth key].
  unfold store, modify. unfold compressNodePath.
  cbn [nodesAlreadyCalculated set_childrenChanges]. rewrite Hnac.
  cbn [deref orb]. cbn [fst snd].
  f_equal. unfold set_childrenChanges.
  cbn [committed nodesAlreadyCalculated calculateNodesOnce invalidated childViews
       values rootID childrenChanges].
  f_equal. cbn [fmap option_fmap option_map].
  rewrite delete_insert_eq.
  rewrite (insert_insert_ne _ emptyKey key) by exact Hne.
  rewrite insert_insert_eq.
  rewrite (insert_insert_ne _ key emptyKey) by exact Hne'. reflexivity.
Qed.


(** X25.  Removing a key whose node has no children and hangs directly
    below the root records the node as deleted and takes its edge out of the
    root, whose other edges stay; nothing else changes. *)
Theorem remove_leaf_under_root (token : N) (rest : Key) existing m t :
  (0 < tokenSize)%Z ->
  nodesAlreadyCalculated t = false ->
  invalidated t = false ->
  childrenChanges t !! emptyKey = Some (Some m) ->
  m !! token = Some existing ->
  compressedKey existing = rest ->
  let key : Key := token :: rest in
  childrenChanges t !! key = Some (Some ∅) ->
  remove key t
  = (Ok tt,
     set_childrenChanges
       (<[emptyKey := Some (delete token m)]>
          (<[key := None]> (childrenChanges t))) t).
Proof. apply remove_leaf_run. Qed.

(** X26.  Inserting a key as a new leaf below the root and removing it
    again gives the root its children back: the view is as before, except
    that it records the key as deleted. *)
Theorem insert_then_remove_leaf (token : N) (rest : Key) m t :
  (0 < tokenSize)%Z ->
  nodesAlreadyCalculated t = false ->
  invalidated t = false ->
  childrenChanges t !! emptyKey = Some (Some m) ->
  m !! token = None ->
  let key : Key := token :: rest in
  (run insert key in remove key) t
  = (Ok tt, set_childrenChanges (<[key := None]> (childrenChanges t)) t).
Proof.
  intros Hts Hnac Hvalid Hroot Htoken key.
  rewrite (bind_ok _ _ _ _ _ (insert_leaf_run token rest m t Hts Hnac Hroot Htoken)).
  set (leaf := {| compressedKey := rest; child_id := ids_Empty; hasValue := false |}).
  set (t1 := set_childrenChanges _ t).
  assert (Hne : key <> emptyKey) by discriminate.
  cbv beta.
  etransitivity;
    [apply (remove_leaf_run token rest leaf (<[token := leaf]> m) t1 Hts Hnac Hvalid) |].
  5: { f_equal. subst t1. unfold set_childrenChanges.
    cbn [committed nodesAlreadyCalculated calculateNodesOnce invalidated childViews
         values rootID childrenChanges].
    f_equal. fold key.
    rewrite insert_insert_eq.
    rewrite (insert_insert_ne _ emptyKey key) by congruence.
    rewrite insert_insert_eq.
    rewrite (delete_insert_id _ _ _ Htoken).
    rewrite (insert_id _ emptyKey (Some m) Hroot). reflexivity. }
  - subst t1. cbn [childrenChanges set_childrenChanges].
    rewrite lookup_insert_ne by exact Hne. apply lookup_insert_eq.
  - apply lookup_insert_eq.
  - reflexivity.
  - subst t1. cbn [childrenChanges set_childrenChanges]. apply lookup_insert_eq.
Qed.



End UnderRoot.


(** ** The properties above on the sample views *)

Lemma emptyDB_quiet : quiet emptyDB.
Proof. intros key. split; reflexivity. Defined.

Lemma newTrieView_reads_changes_witness :
  newTrieView 4 emptyDB changes_a_ab = Ok view_a_ab
  /\ childViews view_a_ab = []
  /\ GetValue 4 emptyDB [97%N] view_a_ab = (Ok [1%N], view_a_ab)
  /\ values view_a_ab !! ToKey 4 [98%N] = None.
Proof.
  assert (Hnew : newTrieView 4 emptyDB changes_a_ab = Ok view_a_ab)
    by (vm_compute; reflexivity).
  destruct (newTrieView_reads_changes 4 emptyDB changes_a_ab view_a_ab Hnew)
    as (_ & _ & _ & _ & Hchildren & Hreads).
  split; [exact Hnew |]. split; [exact Hchildren |].
  split.
  - exact (Hreads eq_refl [97%N]).
  - exact (proj1 (Hreads eq_refl [98%N])).
Defined.

Lemma GetValues_GetValue_witness :
  GetValues 4 emptyDB [[97%N]; [98%N]] view_a_ab
  = ([Some [1%N]; None], [None; Some database_ErrNotFound], view_a_ab).
Proof.
  exact (GetValues_GetValue 4 emptyDB [[97%N]; [98%N]] view_a_ab emptyDB_quiet).
Defined.

Lemma visitPathToKey_visits_witness :
  let start := {| iv_closestChildren := Detached None;
                  iv_closestKey := emptyKey;
                  iv_previousKey := None |} in
  match visitPathToKey 4 emptyDB key_ab (insert_visit 4) start view_with_ab with
  | (Ok a, t') =>
      exists rest,
        visitPathToKey 4 emptyDB key_ab (traced (insert_visit 4)) (start, []) view_with_ab
        = (Ok (a, emptyKey :: rest), t')
        /\ Forall (fun k : Key => k `prefix_of` key_ab) (emptyKey :: rest)
        /\ lengthening (emptyKey :: rest)
  | (Err e, t') =>
      visitPathToKey 4 emptyDB key_ab (traced (insert_visit 4)) (start, []) view_with_ab
      = (Err e, t')
  end.
Proof.
  intros start.
  apply (visitPathToKey_visits 4 emptyDB (insert_visit 4) key_ab start view_with_ab).
  lia.
Defined.

Lemma getLengthOfCommonPrefix_common_witness :
  exists n,
    getLengthOfCommonPrefix 4 [1%N; 2%N; 3%N] [9%N; 1%N; 2%N; 7%N] (4 * Z.of_nat 1)
    = (4 * Z.of_nat n)%Z
    /\ n <= 3
    /\ take n [1%N; 2%N; 3%N] = take n (drop 1 [9%N; 1%N; 2%N; 7%N])
    /\ (n = 3 \/ 4 <= n + 1
        \/ [1%N; 2%N; 3%N] !! n <> [9%N; 1%N; 2%N; 7%N] !! (n + 1)).
Proof.
  apply (getLengthOfCommonPrefix_common 4 [1%N; 2%N; 3%N] [9%N; 1%N; 2%N; 7%N] 1).
  lia.
Defined.

Lemma GetMerkleRoot_stable_witness :
  exists root t1,
    GetMerkleRoot 4 emptyDB sample_calculateID [key_a; key_ab] view_a_ab = (Ok root, t1)
    /\ (forall order', GetMerkleRoot 4 emptyDB sample_calculateID order' t1 = (Ok root, t1))
    /\ values t1 = values view_a_ab
    /\ nodesAlreadyCalculated t1 = true.
Proof.
  destruct (GetMerkleRoot 4 emptyDB sample_calculateID [key_a; key_ab] view_a_ab)
    as [[root | e] t1] eqn:Hrun.
  - exists root, t1. split; [reflexivity |].
    destruct (GetMerkleRoot_stable 4 emptyDB sample_calculateID _ _ _ _ Hrun)
      as (Hagain & _ & Hvalues & _ & Hsealed).
    split; [exact Hagain |]. split; [exact Hvalues |].
    exact (proj1 (proj2 (Hsealed eq_refl))).
  - vm_compute in Hrun. discriminate.
Defined.

Lemma getValue_after_recordValueChange_witness :
  let t' := snd (recordValueChange emptyDB key_a (Some [1%N]) freshView) in
  getValue emptyDB key_a t' = (Ok (Some [1%N]), t')
  /\ forall key', key' <> key_a ->
                  fst (getValue emptyDB key' t') = fst (getValue emptyDB key' freshView).
Proof.
  intros t'.
  apply (getValue_after_recordValueChange emptyDB key_a (Some [1%N]) freshView t');
    reflexivity.
Defined.

Lemma GetRangeProof_empty_range_witness :
  let t1 := snd (calculateNodeIDs 4 emptyDB sample_calculateID [] freshView) in
  GetRangeProof 4 emptyDB sample_calculateID sample_sha256 emptyIterator
                [] None None 5 freshView
  = (Ok {| StartProof := [];
           EndProof := [asProofNode sample_sha256 emptyKey
                                    (deref t1 (load emptyKey t1)) None];
           KeyValues := [] |}, t1).
Proof.
  intros t1.
  apply (GetRangeProof_empty_range 4 emptyDB sample_calculateID sample_sha256
           emptyIterator [] 5 freshView t1 None t1);
    [lia | vm_compute; reflexivity | reflexivity | vm_compute; reflexivity].
Defined.

Lemma GetRangeProof_takes_all_witness :
  let t1 := snd (calculateNodeIDs 4 emptyDB sample_calculateID
                                  [key_a; key_ab] view_a_ab) in
  exists rp t',
    GetRangeProof 4 emptyDB sample_calculateID sample_sha256 sampleIterator
                  [key_a; key_ab] (Some [97%N]) (Some [97%N; 98%N]) 10 view_a_ab
    = (Ok rp, t')
    /\ (exists rest, fst (sampleIterator t1 [97%N]) = KeyValues rp ++ rest)
    /\ exists t2 pf n,
         endProofStep 4 emptyDB sample_sha256 (KeyValues rp) (Some [97%N; 98%N]) t1
         = (Ok (EndProof rp), t2)
         /\ getProof 4 emptyDB sample_sha256 [97%N] t2 = (Ok pf, t')
         /\ StartProof rp = drop n (Proof_Path pf).
Proof.
  intros t1. subst t1.
  destruct (GetRangeProof 4 emptyDB sample_calculateID sample_sha256 sampleIterator
              [key_a; key_ab] (Some [97%N]) (Some [97%N; 98%N]) 10 view_a_ab)
    as [[rp | e] t'] eqn:Hrun.
  - exists rp, t'. split; [reflexivity |].
    destruct (GetRangeProof_takes_all 4 emptyDB sample_calculateID sample_sha256
                sampleIterator _ _ _ _ _ _ _ Hrun)
      as ((rest & Hrest & _) & _ & Hstart).
    split; [exists rest; exact Hrest |].
    destruct (Hstart [97%N] eq_refl) as (t2 & pf & n & Hend & Hpf & Hstrip & _).
    exists t2, pf, n. split; [exact Hend |]. split; [exact Hpf | exact Hstrip].
  - vm_compute in Hrun. discriminate.
Defined.

Lemma getProof_path_shape_witness :
  exists pf t',
    getProof 4 emptyDB sample_sha256 [97%N; 98%N] view_with_ab = (Ok pf, t')
    /\ Proof_Key pf = key_ab
    /\ (exists rest, map pn_Key (Proof_Path pf) = emptyKey :: rest)
    /\ lengthening (map pn_Key (Proof_Path pf)).
Proof.
  destruct (getProof 4 emptyDB sample_sha256 [97%N; 98%N] view_with_ab)
    as [[pf | e] t'] eqn:Hrun.
  - exists pf, t'. split; [reflexivity |].
    destruct (getProof_path_shape 4 emptyDB sample_sha256 _ _ _ _ ltac:(lia) Hrun)
      as (Hkey & Hroot & Hlen & _).
    split; [exact Hkey |]. split; [exact Hroot | exact Hlen].
  - vm_compute in Hrun. discriminate.
Defined.

Lemma invalidate_writes_validity_only_witness :
  exists h',
    invalidate 2 0 sample_heap = Some h'
    /\ (forall b, sample_heap !! b = None -> h' !! b = None)
    /\ forall b t,
         sample_heap !! b = Some t ->
         exists t', h' !! b = Some t' /\ values t' = values t
                    /\ childrenChanges t' = childrenChanges t.
Proof.
  destruct (invalidate_writes_validity_only sample_rank sample_heap 0 2
              sample_heap_ranked)
    as (h' & Hrun & Hnone & Hsome); [eexists; reflexivity | simpl; lia |].
  exists h'. split; [exact Hrun |]. split; [exact Hnone |].
  intros b t Hb. destruct (Hsome b t Hb) as (t' & Hb' & Hvalues & Hcc & _).
  exists t'. split; [exact Hb' |]. split; [exact Hvalues | exact Hcc].
Defined.

Lemma recordChildChange_round_trip_witness :
  let t1 := snd (recordChildChange 4 emptyKey key_a ids_Empty freshView) in
  exists m,
    childrenChanges t1 !! emptyKey = Some (Some m)
    /\ m !! 6%N = Some {| compressedKey := [1%N]; child_id := ids_Empty;
                          hasValue := false |}.
Proof.
  intros t1.
  destruct (recordChildChange_round_trip 4 emptyKey 6 [1%N] ids_Empty freshView ltac:(lia))
    as (_ & _ & m & Hm & Htoken & _).
  exists m. split; [exact Hm | exact Htoken].
Defined.

Lemma NewView_registers_witness :
  exists new h',
    NewView 4 sample_calculateID emptyDB sample_parent_NewView [] 0 changes_a_ab
            sample_heap
    = Some (Ok new, h')
    /\ sample_heap !! new = None
    /\ exists h'', invalidate 3 0 h' = Some h'' /\ dead h'' 0 /\ dead h'' new.
Proof.
  destruct (NewView 4 sample_calculateID emptyDB sample_parent_NewView [] 0 changes_a_ab
                    sample_heap)
    as [[[new | e] h'] |] eqn:Hrun.
  - exists new, h'. split; [reflexivity |].
    destruct (NewView_registers 4 emptyDB sample_calculateID sample_rank sample_heap 0
                (set_validity false [1] freshView) sample_parent_NewView []
                changes_a_ab new h' sample_heap_ranked eq_refl eq_refl Hrun)
      as (Hfresh & _ & _ & _ & _ & Hinvalidate).
    split; [exact Hfresh |].
    destruct (Hinvalidate 3 ltac:(simpl; lia)) as (h'' & Hinv & Hdead0 & Hdead & _).
    exists h''. split; [exact Hinv |]. split; [exact Hdead0 | exact Hdead].
  - vm_compute in Hrun. discriminate.
  - vm_compute in Hrun. discriminate.
Defined.

Lemma compressNodePath_links_child_witness :
  let t' := snd (compressNodePath 4 emptyDB (Stored emptyKey) emptyKey
                                  (Stored key_a) key_a chainView) in
  childrenChanges t' !! key_a = Some None
  /\ exists m,
       childrenChanges t' !! emptyKey = Some (Some m)
       /\ m !! 6%N = Some {| compressedKey := [1%N; 6%N; 2%N];
                             child_id := repeat 2%N 32;
                             hasValue := false |}.
Proof.
  intros t'.
  destruct (compressNodePath_links_child 4 emptyDB (Stored emptyKey) emptyKey
              (Stored key_a) 6 [1%N] 6
              {| compressedKey := [2%N]; child_id := repeat 2%N 32; hasValue := false |}
              chainView chainView)
    as (_ & _ & Hdeleted & (m & Hm & Htoken & _) & _);
    [lia | reflexivity | reflexivity | vm_compute; reflexivity | reflexivity |].
  split; [exact Hdeleted |]. exists m. split; [exact Hm | exact Htoken].
Defined.

Lemma insert_leaf_under_root_witness :
  insert 4 emptyDB key_a freshView
  = (Ok (Stored key_a),
     set_childrenChanges
       (<[key_a := Some ∅]>
          (<[emptyKey := Some (<[6%N := {| compressedKey := [1%N];
                                           child_id := ids_Empty;
                                           hasValue := false |}]> ∅)]>
             (childrenChanges freshView))) freshView).
Proof.
  apply (insert_leaf_under_root 4 emptyDB 6 [1%N] ∅ freshView);
    [lia | reflexivity | reflexivity | reflexivity].
Defined.

Lemma insert_splits_edge_under_root_witness :
  let edge := {| compressedKey := [1%N; 6%N; 2%N]; child_id := ids_Empty;
                 hasValue := false |} in
  let key_ac : Key := ToKey 4 [97%N; 99%N] in
  let branchKey : Key := [6%N; 1%N; 6%N] in
  insert 4 emptyDB key_ac view_with_ab
  = (Ok (Stored key_ac),
     set_childrenChanges
       (<[key_ac := Some ∅]>
          (<[branchKey :=
               Some (<[2%N := {| compressedKey := []; child_id := ids_Empty;
                                 hasValue := false |}]>
                       (<[3%N := {| compressedKey := []; child_id := ids_Empty;
                                    hasValue := false |}]>
                          (default ∅ (default None (childrenChanges view_with_ab !! branchKey)))))]>
             (<[emptyKey := Some (<[6%N := {| compressedKey := [1%N; 6%N];
                                              child_id := ids_Empty;
                                              hasValue := false |}]>
                                    {[ 6%N := edge ]})]>
                (childrenChanges view_with_ab)))) view_with_ab).
Proof.
  intros edge key_ac branchKey.
  apply (insert_splits_edge_under_root 4 emptyDB 6 [1%N; 6%N] 2 [] 3 [] edge
           {[ 6%N := edge ]} view_with_ab);
    [lia | reflexivity | vm_compute; reflexivity | reflexivity | reflexivity
     | discriminate].
Defined.

Lemma remove_leaf_under_root_witness :
  let edge := {| compressedKey := [1%N; 6%N; 2%N]; child_id := ids_Empty;
                 hasValue := false |} in
  remove 4 emptyDB key_ab view_with_ab
  = (Ok tt,
     set_childrenChanges
       (<[emptyKey := Some (delete 6%N {[ 6%N := edge ]})]>
          (<[key_ab := None]> (childrenChanges view_with_ab))) view_with_ab).
Proof.
  intros edge.
  apply (remove_leaf_under_root 4 emptyDB 6 [1%N; 6%N; 2%N] edge {[ 6%N := edge ]}
           view_with_ab);
    [lia | reflexivity | reflexivity | vm_compute; reflexivity | reflexivity
     | reflexivity | vm_compute; reflexivity].
Defined.

Lemma insert_then_remove_leaf_witness :
  (run insert 4 emptyDB key_a in remove 4 emptyDB key_a) freshView
  = (Ok tt, set_childrenChanges (<[key_a := None]> (childrenChanges freshView)) freshView).
Proof.
  apply (insert_then_remove_leaf 4 emptyDB 6 [1%N] ∅ freshView);
    [lia | reflexivity | reflexivity | reflexivity | reflexivity].
Defined.

End merkledb_facts.

(* ===================================================================== *)
(** * Properties of package paths *)
(* ===================================================================== *)

Module paths_facts.
Import paths.

Local Ltac div_lia := zify; Z.to_euclidean_division_equations; lia.

Lemma land_1 (z : Z) : Z.land z 1 = (z mod 2)%Z.
Proof. change 1%Z with (Z.ones 1). rewrite Z.land_ones by div_lia. reflexivity. Qed.

Lemma shiftr_1 (z : Z) : Z.shiftr z 1 = (z / 2)%Z.
Proof. rewrite Z.shiftr_div_pow2 by div_lia. reflexivity. Qed.

Lemma land_15 (n : N) : N.land n 15 = (n mod 16)%N.
Proof. change 15%N with (N.ones 4). rewrite N.land_ones. reflexivity. Qed.

Lemma shiftr_4 (n : N) : N.shiftr n 4 = (n / 16)%N.
Proof. rewrite N.shiftr_div_pow2. reflexivity. Qed.

(** The nibble at an even index is the high half of its byte, the nibble at
    an odd index the low half. *)
Lemma NibbleVal_even s (j : nat) v :
  Value s !! j = Some v -> (v < 256)%N ->
  NibbleVal s (2 * Z.of_nat j) = Some (v / 16)%N.
Proof.
  intros Hv Hlt. unfold NibbleVal. rewrite shiftr_1, land_1.
  replace (2 * Z.of_nat j / 2)%Z with (Z.of_nat j) by div_lia.
  destruct (Z.ltb_spec (Z.of_nat j) 0); [div_lia |].
  rewrite Nat2Z.id, Hv.
  replace ((2 * Z.of_nat j) mod 2)%Z with 0%Z by div_lia.
  unfold byte_of_int, byte_wrap. cbn [Z.modulo Z.div_eucl Z.to_N].
  rewrite land_15, shiftr_4. f_equal.
  change ((256 + 1 - 0) mod 256)%N with 1%N.
  rewrite N.mul_1_l, N.mul_0_l. div_lia.
Qed.

Lemma NibbleVal_odd s (j : nat) v :
  Value s !! j = Some v -> (v < 256)%N ->
  NibbleVal s (2 * Z.of_nat j + 1) = Some (v mod 16)%N.
Proof.
  intros Hv Hlt. unfold NibbleVal. rewrite shiftr_1, land_1.
  replace ((2 * Z.of_nat j + 1) / 2)%Z with (Z.of_nat j) by div_lia.
  destruct (Z.ltb_spec (Z.of_nat j) 0); [div_lia |].
  rewrite Nat2Z.id, Hv.
  replace ((2 * Z.of_nat j + 1) mod 2)%Z with 1%Z by div_lia.
  unfold byte_of_int, byte_wrap. cbn [Z.modulo Z.div_eucl Z.to_N].
  rewrite land_15, shiftr_4. f_equal.
  change (Z.to_N (1 mod 256)) with 1%N.
  change ((256 + 1 - 1) mod 256)%N with 0%N.
  rewrite N.mul_1_l, N.mul_0_l. div_lia.
Qed.


Lemma prefix_lookup (pv sv : list N) (k : nat) :
  k <= length pv -> k <= length sv ->
  take k pv `prefix_of` sv <-> forall j, j < k -> sv !! j = pv !! j.
Proof.
  intros Hp Hs. split.
  - intros [rest Hrest] j Hj. rewrite Hrest.
    rewrite lookup_app_l by (rewrite length_take; lia).
    apply lookup_take_lt. exact Hj.
  - intros Hall. exists (drop k sv).
    rewrite <- (take_drop k sv) at 1. f_equal.
    apply list_eq. intros j.
    destruct (decide (j < k)) as [Hj | Hj].
    + rewrite !lookup_take_lt by exact Hj. apply Hall. exact Hj.
    + rewrite !lookup_take_ge by lia. reflexivity.
Qed.

Lemma byte_halves (a b : N) :
  (a / 16 = b / 16)%N -> (a mod 16 = b mod 16)%N -> a = b.
Proof. intros. div_lia. Qed.

Lemma nibbles_bytes s p (k : nat) :
  Forall (fun b => (b < 256)%N) (Value s) ->
  Forall (fun b => (b < 256)%N) (Value p) ->
  k <= length (Value s) -> k <= length (Value p) ->
  (forall j, j < k -> Value s !! j = Value p !! j)
  <-> (forall i, (0 <= i < 2 * Z.of_nat k)%Z -> NibbleVal s i = NibbleVal p i).
Proof.
  intros Hsb Hpb Hs Hp. split.
  - intros Hall i Hi.
    assert (Hj : Z.to_nat (i / 2) < k) by div_lia.
    destruct (lookup_lt_is_Some_2 (Value p) (Z.to_nat (i / 2)) ltac:(lia)) as [a Ha].
    pose proof (Hall _ Hj) as Hsa. rewrite Ha in Hsa.
    pose proof (proj1 (Forall_lookup _ _) Hpb _ _ Ha) as Halt. cbv beta in Halt.
    destruct (Z.eq_dec (i mod 2)%Z 0%Z) as [Heven | Hodd].
    + replace i with (2 * Z.of_nat (Z.to_nat (i / 2)))%Z by div_lia.
      rewrite (NibbleVal_even s _ a Hsa Halt), (NibbleVal_even p _ a Ha Halt).
      reflexivity.
    + replace i with (2 * Z.of_nat (Z.to_nat (i / 2)) + 1)%Z by div_lia.
      rewrite (NibbleVal_odd s _ a Hsa Halt), (NibbleVal_odd p _ a Ha Halt).
      reflexivity.
  - intros Hall j Hj.
    destruct (lookup_lt_is_Some_2 (Value p) j ltac:(lia)) as [a Ha].
    destruct (lookup_lt_is_Some_2 (Value s) j ltac:(lia)) as [b Hb].
    pose proof (proj1 (Forall_lookup _ _) Hpb _ _ Ha) as Halt.
    pose proof (proj1 (Forall_lookup _ _) Hsb _ _ Hb) as Hblt.
    cbv beta in Halt, Hblt.
    pose proof (Hall (2 * Z.of_nat j)%Z ltac:(lia)) as Hhigh.
    pose proof (Hall (2 * Z.of_nat j + 1)%Z ltac:(lia)) as Hlow.
    rewrite (NibbleVal_even s _ b Hb Hblt), (NibbleVal_even p _ a Ha Halt) in Hhigh.
    rewrite (NibbleVal_odd s _ b Hb Hblt), (NibbleVal_odd p _ a Ha Halt) in Hlow.
    rewrite Ha, Hb. f_equal. apply byte_halves; congruence.
Qed.

Lemma HasPrefix_spec s p :
  well_formed s -> well_formed p ->
  HasPrefix s p = true
  <-> (NibbleLength p <= NibbleLength s)%Z
      /\ forall i, (0 <= i < NibbleLength p)%Z -> NibbleVal s i = NibbleVal p i.
Proof.
  intros (Hs0 & Hslen & Hsb) (Hp0 & Hplen & Hpb).
  unfold HasPrefix.
  destruct (Z.ltb_spec (NibbleLength s) (NibbleLength p)) as [Hlt | Hge].
  { cbn [orb]. split; [discriminate | intros [Hle _]; lia]. }
  destruct (Z.ltb_spec (Z.of_nat (length (Value s))) (Z.of_nat (length (Value p))))
    as [Hlt | Hlen]; [div_lia |].
  cbn [orb]. rewrite Z.rem_mod_nonneg by lia.
  destruct (Z.eqb_spec (NibbleLength p mod 2) 0) as [Heven | Hodd].
  - (* an even number of nibbles: whole bytes *)
    unfold bytes_HasPrefix. rewrite bool_decide_eq_true.
    rewrite <- (take_ge (Value p) (length (Value p))) at 1 by lia.
    rewrite prefix_lookup by lia.
    rewrite (nibbles_bytes s p (length (Value p)) Hsb Hpb) by lia.
    replace (2 * Z.of_nat (length (Value p)))%Z with (NibbleLength p) by div_lia.
    split; [intros Hall; split; [lia | exact Hall] | intros [_ Hall]; exact Hall].
  - (* an odd number of nibbles: whole bytes and the high half of the last *)
    destruct (Z.ltb_spec (Z.of_nat (length (Value p)) - 1) 0) as [Hneg | Hpos];
      [div_lia |].
    set (k := Z.to_nat (Z.of_nat (length (Value p)) - 1)).
    assert (Hk : S k = length (Value p)) by lia.
    destruct (lookup_lt_is_Some_2 (Value p) k ltac:(lia)) as [a Ha].
    destruct (lookup_lt_is_Some_2 (Value s) k ltac:(lia)) as [b Hb].
    rewrite Ha, Hb.
    pose proof (proj1 (Forall_lookup _ _) Hpb _ _ Ha) as Halt.
    pose proof (proj1 (Forall_lookup _ _) Hsb _ _ Hb) as Hblt.
    cbv beta in Halt, Hblt.
    rewrite andb_true_iff, N.eqb_eq, !shiftr_4.
    unfold bytes_HasPrefix. rewrite bool_decide_eq_true.
    rewrite prefix_lookup by lia.
    rewrite (nibbles_bytes s p k Hsb Hpb) by lia.
    assert (Hn : NibbleLength p = (2 * Z.of_nat k + 1)%Z) by div_lia.
    split.
    + intros [Hhigh Hall]. split; [lia |]. intros i Hi.
      destruct (Z.eq_dec i (2 * Z.of_nat k)%Z) as [-> | Hne].
      * rewrite (NibbleVal_even s _ b Hb Hblt), (NibbleVal_even p _ a Ha Halt).
        congruence.
      * apply Hall. lia.
    + intros [_ Hall]. split.
      * pose proof (Hall (2 * Z.of_nat k)%Z ltac:(lia)) as Hhigh.
        rewrite (NibbleVal_even s _ b Hb Hblt), (NibbleVal_even p _ a Ha Halt) in Hhigh.
        congruence.
      * intros i Hi. apply Hall. lia.
Qed.


Lemma int_wrap_small z : (- 2 ^ 63 <= z < 2 ^ 63)%Z -> int_wrap z = z.
Proof. intros Hz. unfold int_wrap. div_lia. Qed.

Lemma AppendNibble_even s nibble :
  (NibbleLength s mod 2 = 0)%Z -> (nibble < 16)%N ->
  AppendNibble s nibble
  = Some {| NibbleLength := int_wrap (NibbleLength s + 1);
            Value := Value s ++ [(16 * nibble)%N] |}.
Proof.
  intros Heven Hnibble. unfold AppendNibble. rewrite land_1, Heven.
  change (Z.to_nat (1 - 0)) with 1. cbn [repeat].
  rewrite length_app. cbn [length]. rewrite Nat.add_1_r.
  rewrite list_lookup_middle by reflexivity.
  do 2 f_equal.
  rewrite insert_app_r_alt by lia. rewrite Nat.sub_diag. cbn [insert list_insert].
  do 2 f_equal. unfold byte_wrap. change (Z.to_N (4 * (1 - 0))) with 4%N.
  rewrite N.shiftl_mul_pow2. change (2 ^ 4)%N with 16%N. div_lia.
Qed.

Lemma AppendNibble_odd s nibble V b :
  Value s = V ++ [b] ->
  (NibbleLength s mod 2 = 1)%Z ->
  (b mod 16 = 0)%N -> (b < 256)%N -> (nibble < 16)%N ->
  AppendNibble s nibble
  = Some {| NibbleLength := int_wrap (NibbleLength s + 1);
            Value := V ++ [(b + nibble)%N] |}.
Proof.
  intros HV Hodd Hpad Hb Hnibble. unfold AppendNibble. rewrite land_1, Hodd.
  change (Z.to_nat (1 - 1)) with 0. cbn [repeat]. rewrite app_nil_r, HV.
  rewrite length_app. cbn [length]. rewrite Nat.add_1_r.
  rewrite list_lookup_middle by reflexivity.
  do 2 f_equal.
  rewrite insert_app_r_alt by lia. rewrite Nat.sub_diag. cbn [insert list_insert].
  do 2 f_equal. unfold byte_wrap. change (Z.to_N (4 * (1 - 1))) with 0%N.
  rewrite N.shiftl_0_r. div_lia.
Qed.

Lemma AppendNibble_spec s nibble :
  well_formed s -> zero_padded s ->
  (nibble < 16)%N -> (NibbleLength s < 2 ^ 63 - 1)%Z ->
  exists s',
    AppendNibble s nibble = Some s'
    /\ NibbleLength s' = (NibbleLength s + 1)%Z
    /\ well_formed s'
    /\ zero_padded s'
    /\ NibbleVal s' (NibbleLength s) = Some nibble
    /\ forall i, (0 <= i < NibbleLength s)%Z -> NibbleVal s' i = NibbleVal s i.
Proof.
  intros (Hs0 & Hslen & Hsb) Hpad Hnibble Hmax.
  assert (Hwrap : int_wrap (NibbleLength s + 1) = (NibbleLength s + 1)%Z)
    by (apply int_wrap_small; lia).
  destruct (Z.eq_dec (NibbleLength s mod 2)%Z 0%Z) as [Heven | Hodd].
  - (* the nibble opens a new byte *)
    set (s' := {| NibbleLength := (NibbleLength s + 1)%Z;
                  Value := Value s ++ [(16 * nibble)%N] |}).
    exists s'. split.
    { rewrite (AppendNibble_even s nibble Heven Hnibble), Hwrap. reflexivity. }
    assert (Hlast : Value s' !! length (Value s) = Some (16 * nibble)%N)
      by (apply list_lookup_middle; reflexivity).
    assert (Hn : NibbleLength s = (2 * Z.of_nat (length (Value s)))%Z) by div_lia.
    assert (Hbytes : Forall (fun b => (b < 256)%N) (Value s')).
    { apply Forall_app. split; [exact Hsb |]. repeat constructor. lia. }
    split; [reflexivity |]. split; [| split; [| split]].
    + unfold well_formed. split; [cbn; lia |]. split; [| exact Hbytes].
      cbn [s' NibbleLength Value]. rewrite length_app. cbn [length]. div_lia.
    + intros _. exists (16 * nibble)%N. split.
      * apply last_snoc.
      * rewrite land_15. div_lia.
    + rewrite Hn.
      rewrite (NibbleVal_even s' _ (16 * nibble)%N Hlast) by lia.
      f_equal. div_lia.
    + rewrite Hn.
      apply (nibbles_bytes s' s (length (Value s)) Hbytes Hsb).
      * cbn [s' Value]. rewrite length_app. lia.
      * lia.
      * intros j Hj. apply lookup_app_l. exact Hj.
  - (* the nibble fills the low half of the last byte *)
    assert (Hodd' : (NibbleLength s mod 2 = 1)%Z) by div_lia.
    destruct Hpad as (b & Hlast & Hzero).
    { rewrite Z.odd_spec. exists (NibbleLength s / 2)%Z. div_lia. }
    apply last_Some in Hlast as [V HV]. rewrite land_15 in Hzero.
    assert (Hb : (b < 256)%N).
    { apply (proj1 (Forall_lookup _ _) Hsb (length V) b).
      rewrite HV. apply list_lookup_middle. reflexivity. }
    set (s' := {| NibbleLength := (NibbleLength s + 1)%Z;
                  Value := V ++ [(b + nibble)%N] |}).
    exists s'. split.
    { rewrite (AppendNibble_odd s nibble V b HV Hodd' Hzero Hb Hnibble), Hwrap.
      reflexivity. }
    assert (Hlen : length (Value s) = S (length V))
      by (rewrite HV, length_app; cbn [length]; lia).
    assert (Hlast' : Value s' !! length V = Some (b + nibble)%N)
      by (apply list_lookup_middle; reflexivity).
    assert (Hlast : Value s !! length V = Some b)
      by (rewrite HV; apply list_lookup_middle; reflexivity).
    assert (Hn : NibbleLength s = (2 * Z.of_nat (length V) + 1)%Z) by div_lia.
    assert (Hbytes : Forall (fun b => (b < 256)%N) (Value s')).
    { cbn [s' Value]. pose proof Hsb as HVb. rewrite HV in HVb.
      apply Forall_app in HVb as [HVb _].
      apply Forall_app. split; [exact HVb |]. repeat constructor. div_lia. }
    split; [reflexivity |]. split; [| split; [| split]].
    + unfold well_formed. split; [cbn; lia |]. split; [| exact Hbytes].
      cbn [s' NibbleLength Value]. rewrite length_app. cbn [length]. div_lia.
    + intros Hodd2. exfalso. cbn [s' NibbleLength] in Hodd2.
      apply Z.odd_spec in Hodd2 as [m Hm]. div_lia.
    + rewrite Hn.
      rewrite (NibbleVal_odd s' _ (b + nibble)%N Hlast') by div_lia.
      f_equal. div_lia.
    + intros i Hi.
      destruct (Z.eq_dec i (2 * Z.of_nat (length V))%Z) as [-> | Hne].
      * rewrite (NibbleVal_even s' _ (b + nibble)%N Hlast') by div_lia.
        rewrite (NibbleVal_even s _ b Hlast Hb). f_equal. div_lia.
      * apply (nibbles_bytes s' s (length V) Hbytes Hsb).
        -- cbn [s' Value]. rewrite length_app. lia.
        -- lia.
        -- intros j Hj. cbn [s' Value]. rewrite HV.
           rewrite !lookup_app_l by exact Hj. reflexivity.
        -- lia.
Qed.



(** X19.  Appending a nibble to a well-formed, zero-padded path whose
    length is below the greatest [int] succeeds; the result is one nibble
    longer, well formed and zero padded again; [NibbleVal] reads the
    appended nibble back at the old length and reads every earlier nibble
    as before. *)
Theorem AppendNibble_round_trip s nibble :
  well_formed s -> zero_padded s ->
  (nibble < 16)%N -> (NibbleLength s < 2 ^ 63 - 1)%Z ->
  exists s',
    AppendNibble s nibble = Some s'
    /\ NibbleLength s' = (NibbleLength s + 1)%Z
    /\ well_formed s'
    /\ zero_padded s'
    /\ NibbleVal s' (NibbleLength s) = Some nibble
    /\ forall i, (0 <= i < NibbleLength s)%Z -> NibbleVal s' i = NibbleVal s i.
Proof. apply AppendNibble_spec. Qed.

Lemma path_6_well_formed : well_formed path_6.
Proof. split; [cbn; lia |]. split; [reflexivity | repeat constructor]. Defined.

Lemma path_61_well_formed : well_formed path_61.
Proof. split; [cbn; lia |]. split; [reflexivity | repeat constructor]. Defined.

Lemma path_6_zero_padded : zero_padded path_6.
Proof. intros _. exists 96%N. split; reflexivity. Defined.

Lemma AppendNibble_round_trip_witness :
  exists s',
    AppendNibble path_6 1 = Some s'
    /\ NibbleLength s' = (NibbleLength path_6 + 1)%Z
    /\ well_formed s'
    /\ zero_padded s'
    /\ NibbleVal s' (NibbleLength path_6) = Some 1%N
    /\ forall i, (0 <= i < NibbleLength path_6)%Z -> NibbleVal s' i = NibbleVal path_6 i.
Proof.
  apply (AppendNibble_round_trip path_6 1 path_6_well_formed path_6_zero_padded);
    [reflexivity | reflexivity].
Defined.

(** X20.  On well-formed paths [HasPrefix] holds exactly when the prefix
    is not longer than the path and the two agree on every nibble of the
    prefix. *)
Theorem HasPrefix_nibbles s p :
  well_formed s -> well_formed p ->
  HasPrefix s p = true
  <-> (NibbleLength p <= NibbleLength s)%Z
      /\ forall i, (0 <= i < NibbleLength p)%Z -> NibbleVal s i = NibbleVal p i.
Proof. apply HasPrefix_spec. Qed.

Lemma HasPrefix_nibbles_witness :
  HasPrefix path_61 path_6 = true
  <-> (NibbleLength path_6 <= NibbleLength path_61)%Z
      /\ forall i, (0 <= i < NibbleLength path_6)%Z ->
                   NibbleVal path_61 i = NibbleVal path_6 i.
Proof.
  exact (HasPrefix_nibbles path_61 path_6 path_61_well_formed path_6_well_formed).
Defined.

(** X21.  A well-formed, zero-padded path is a strict prefix of the path
    [AppendNibble] makes of it, and not the other way round; it is a prefix
    of itself, but not a strict one. *)
Theorem AppendNibble_HasStrictPrefix s nibble s' :
  well_formed s -> zero_padded s ->
  (nibble < 16)%N -> (NibbleLength s < 2 ^ 63 - 1)%Z ->
  AppendNibble s nibble = Some s' ->
  HasStrictPrefix s' s = true
  /\ HasPrefix s s' = false
  /\ HasPrefix s s = true
  /\ HasStrictPrefix s s = false.
Proof.
  intros Hwf Hpad Hnibble Hmax Happend.
  destruct (AppendNibble_spec s nibble Hwf Hpad Hnibble Hmax)
    as (s0 & Hs0 & Hlen & Hwf' & _ & _ & Hsame).
  rewrite Happend in Hs0. injection Hs0 as <-.
  assert (Hself : HasPrefix s s = true).
  { apply (HasPrefix_spec s s Hwf Hwf). split; [lia | reflexivity]. }
  assert (Hext : HasPrefix s' s = true).
  { apply (HasPrefix_spec s' s Hwf' Hwf). split; [lia | exact Hsame]. }
  assert (Hback : HasPrefix s s' = false).
  { destruct (HasPrefix s s') eqn:H; [| reflexivity].
    apply (HasPrefix_spec s s' Hwf Hwf') in H as [Hle _]. lia. }
  unfold HasStrictPrefix, Equal. rewrite Hext, Hself.
  destruct (Z.eqb_spec (NibbleLength s') (NibbleLength s)) as [Heq | _]; [lia |].
  rewrite Z.eqb_refl, (bool_decide_eq_true_2 (Value s = Value s)) by reflexivity.
  repeat split; assumption || reflexivity.
Qed.

Lemma AppendNibble_HasStrictPrefix_witness :
  HasStrictPrefix path_61 path_6 = true
  /\ HasPrefix path_6 path_61 = false
  /\ HasPrefix path_6 path_6 = true
  /\ HasStrictPrefix path_6 path_6 = false.
Proof.
  apply (AppendNibble_HasStrictPrefix path_6 1 path_61
           path_6_well_formed path_6_zero_padded);
    reflexivity.
Defined.

End paths_facts.

(* ===================================================================== *)
(** * Properties of package rpc *)
(* ===================================================================== *)

Module rpc_facts.
Import rpc.

Section OptionFacts.

Variable Cookie : Type.
Variable Cookie_Name : Cookie -> string.
Variable CanonicalMIMEHeaderKey : string -> string.

Local Abbreviation Option := (Option Cookie).
Local Abbreviation NewOptions := (NewOptions Cookie).
Local Abbreviation WithHeader := (WithHeader Cookie CanonicalMIMEHeaderKey).
Local Abbreviation WithQueryParam := (WithQueryParam Cookie).
Local Abbreviation WithCookie := (WithCookie Cookie Cookie_Name).

(** The options are applied in order, on top of what the options before
    them built. *)
Lemma NewOptions_snoc (ops : list Option) (op : Option) :
  NewOptions (ops ++ [op]) = op (NewOptions ops).
Proof. unfold rpc.NewOptions, applyOptions. rewrite fold_left_app. reflexivity. Qed.

(** X22.  The last option of a list wins: after [WithHeader],
    [WithQueryParam] or [WithCookie] as the last option, the header under
    the canonical form of the key, the query parameter under the key, or the
    cookie under its name is the one given, whatever the options before it
    set there; every other header, query parameter and cookie is what the
    options before it set, and an option of one kind leaves the two other
    kinds alone. *)
Theorem NewOptions_last_option_wins (ops : list Option) :
  (forall key val,
      let o := NewOptions (ops ++ [WithHeader key val]) in
      Headers Cookie o !! CanonicalMIMEHeaderKey key = Some [val]
      /\ (forall k, k <> CanonicalMIMEHeaderKey key ->
                    Headers Cookie o !! k = Headers Cookie (NewOptions ops) !! k)
      /\ QueryParams Cookie o = QueryParams Cookie (NewOptions ops)
      /\ cookies Cookie o = cookies Cookie (NewOptions ops))
  /\ (forall key val,
        let o := NewOptions (ops ++ [WithQueryParam key val]) in
        QueryParams Cookie o !! key = Some [val]
        /\ (forall k, k <> key ->
                      QueryParams Cookie o !! k = QueryParams Cookie (NewOptions ops) !! k)
        /\ Headers Cookie o = Headers Cookie (NewOptions ops)
        /\ cookies Cookie o = cookies Cookie (NewOptions ops))
  /\ (forall c,
        let o := NewOptions (ops ++ [WithCookie c]) in
        cookies Cookie o !! Cookie_Name c = Some c
        /\ (forall k, k <> Cookie_Name c ->
                      cookies Cookie o !! k = cookies Cookie (NewOptions ops) !! k)
        /\ Headers Cookie o = Headers Cookie (NewOptions ops)
        /\ QueryParams Cookie o = QueryParams Cookie (NewOptions ops)).
Proof.
  split; [| split].
  - intros key val o. subst o. rewrite NewOptions_snoc.
    unfold Headers, QueryParams, rpc.WithHeader. cbn.
    split; [apply lookup_insert_eq |].
    split; [intros k Hk; apply lookup_insert_ne; congruence | auto].
  - intros key val o. subst o. rewrite NewOptions_snoc.
    unfold Headers, QueryParams, rpc.WithQueryParam. cbn.
    split; [apply lookup_insert_eq |].
    split; [intros k Hk; apply lookup_insert_ne; congruence | auto].
  - intros c o. subst o. rewrite NewOptions_snoc.
    unfold Headers, QueryParams, rpc.WithCookie. cbn.
    split; [apply lookup_insert_eq |].
    split; [intros k Hk; apply lookup_insert_ne; congruence | auto].
Qed.

End OptionFacts.

End rpc_facts.
